(** * prompt-to-video: the AI Director parser and the VideoJob orchestrator

    A shallow embedding of
    - [src/director/parser.ts]  (validateDirection, normalizeDirection,
      parseDirection),
    - [src/director/index.ts]   (AIDirector.refine),
    - [src/durable-objects/VideoJob.ts] (the job state machine),
    - the job-status route of the worker's [handleRequest],
    and the properties of the specification checked against them;
    further, [AIDirector.direct], [VideoJob.fetch], the timeline that
    [CreatomateService.compileVideo] builds and the route of the worker
    that reads a project back, with further properties of all of these.

    Modelling conventions.
    - A JavaScript number is given by its value, a rational ([Q]).  The
      sum of the durations and the 10% band of [validateDirection], whose
      rounding decides what is accepted, are computed as IEEE-754 doubles
      with the operations of the Standard Library's [SpecFloat]
      ([Js.toDouble], [Js.fadd], ...).  Counts, ids, percentages and the
      normalizer's rounding to a tenth are exact: [Math.round x] is
      [Qfloor (x + 1/2)], and [x * 10] is the exact product, which the
      product in doubles equals unless it lies within a rounding error of
      a half.
    - A JavaScript string is a [string] that holds the bytes of its UTF-8
      encoding; [trim] and [split(/\s+/)] recognise the white space of
      ECMAScript, all 25 code points of it, by their encodings
      ([Js.whiteSpace], [Js.scan]).
    - An exception is a value of [Thrown]; a function that can throw returns
      an [Outcome].
    - External services (fal.ai, Creatomate, the LLM) are oracles passed as
      arguments; every call is recorded in the log of the durable object. *)

From Stdlib Require Import String Ascii List ZArith QArith Qround Lia Bool.
From Stdlib Require SpecFloat.
From stdpp Require Import base gmap strings list pretty.
Import ListNotations.

#[local] Set Warnings "-register-all".

(* ===================================================================== *)
(** * JavaScript values and strings                                       *)
(* ===================================================================== *)

Module Js.

(** What [JSON.parse] returns, plus [undefined] (the value of a missing
    property).  An object keeps its properties in source order. *)
Inductive Value : Type :=
| JUndefined
| JNull
| JBool (b : bool)
| JNum (q : Q)
| JStr (s : string)
| JArr (items : list Value)
| JObj (fields : list (string * Value)).

(** Structured text of an [Error.message]: the template literals of the
    source with their interpolated values kept apart.  [Located] is the
    scene and shot suffix that [AIDirector.direct] appends; [EngineText] is
    a message worded by the JavaScript engine or the platform. *)
Inductive Message : Type :=
| Text (s : string)
| TooManyScenes (count : nat) (max : Q)
| SceneIdShouldBe (expected : Z) (got : Value)
| SceneTooManyShots (sceneId : Value) (count : nat) (max : Q)
| ShotIdShouldBe (expected : Z) (got : Value)
| ShotDurationRange (got : Value)
| InvalidCameraMove (got : Value)
| InvalidTransitionOut (got : Value)
| TotalDurationOutside (total minDuration maxDuration target : Q)
| Prefixed (prefix : string) (inner : Message)
| Located (inner : Message) (sceneId shotId : option Value)
| EngineText.

(** The values a [throw] can carry in the modelled code.  [Error] is an
    instance of [Error] that is of none of the three subclasses. *)
Inductive Thrown : Type :=
| ValidationError (message : Message) (field : option string)
    (sceneId shotId : option Value)
| TypeError
| SyntaxError (message : Message)
| Error (message : Message)
| NonError.

Inductive Outcome (A : Type) : Type :=
| Ok (a : A)
| Throw (t : Thrown).
Arguments Ok {A} a.
Arguments Throw {A} t.

Definition bind {A B : Type} (m : Outcome A) (k : A -> Outcome B) : Outcome B :=
  match m with
  | Ok a => k a
  | Throw t => Throw t
  end.

(** [error instanceof Error ? error.message : fallback] *)
Definition messageOr (fallback : string) (t : Thrown) : Message :=
  match t with
  | ValidationError m _ _ _ => m
  | TypeError => EngineText
  | SyntaxError m => m
  | Error m => m
  | NonError => Text fallback
  end.

(** ** Strings *)

(** The class [\s] of a regular expression without the [u] flag, which is
    also what [String.prototype.trim] removes: the WhiteSpace and
    LineTerminator code points of ECMAScript.  They are U+0009 to U+000D,
    U+0020, U+00A0, U+1680, U+2000 to U+200A, U+2028, U+2029, U+202F,
    U+205F, U+3000 and U+FEFF. *)
Definition whiteSpace : list N :=
  [9; 10; 11; 12; 13; 32; 160; 5760; 8192; 8193; 8194; 8195; 8196; 8197;
   8198; 8199; 8200; 8201; 8202; 8232; 8233; 8239; 8287; 12288; 65279]%N.

(** The UTF-8 encoding of a code point below U+10000. *)
Definition utf8 (n : N) : list N :=
  if (n <? 128)%N then [n]
  else if (n <? 2048)%N then [192 + n / 64; 128 + n mod 64]%N
  else [224 + n / 4096; 128 + (n / 64) mod 64; 128 + n mod 64]%N.

Fixpoint sameBytes (bytes : list ascii) (codes : list N) : bool :=
  match bytes, codes with
  | [], [] => true
  | b :: bytes', c :: codes' => (N.eqb (N_of_ascii b) c && sameBytes bytes' codes')%bool
  | _, _ => false
  end.

(** The bytes are the encoding of one white-space character. *)
Definition isWhiteSpace (bytes : list ascii) : bool :=
  existsb (fun n => sameBytes bytes (utf8 n)) whiteSpace.

(** What a string is made of, as far as white space goes: a white-space
    character, with the bytes that encode it, or a byte of anything
    else. *)
Inductive Item : Type :=
| Space (bytes : string)
| Other (c : ascii).

Definition isSpace (x : Item) : bool :=
  match x with Space _ => true | Other _ => false end.

Definition bytesOf (x : Item) : string :=
  match x with Space bytes => bytes | Other c => String c EmptyString end.

(** The items of a string, from left to right.  A white-space character
    takes one, two or three bytes. *)
Fixpoint scan (s : string) : list Item :=
  match s with
  | EmptyString => []
  | String a r =>
      if isWhiteSpace [a] then Space (String a EmptyString) :: scan r
      else
        match r with
        | EmptyString => [Other a]
        | String b r2 =>
            if isWhiteSpace [a; b]
            then Space (String a (String b EmptyString)) :: scan r2
            else
              match r2 with
              | EmptyString => Other a :: scan r
              | String c r3 =>
                  if isWhiteSpace [a; b; c]
                  then Space (String a (String b (String c EmptyString)))
                       :: scan r3
                  else Other a :: scan r
              end
        end
  end.

(** The first item of a string, and the rest of the string. *)
Definition step (s : string) : option (Item * string) :=
  match s with
  | EmptyString => None
  | String a r =>
      if isWhiteSpace [a] then Some (Space (String a EmptyString), r)
      else
        match r with
        | EmptyString => Some (Other a, r)
        | String b r2 =>
            if isWhiteSpace [a; b]
            then Some (Space (String a (String b EmptyString)), r2)
            else
              match r2 with
              | EmptyString => Some (Other a, r)
              | String c r3 =>
                  if isWhiteSpace [a; b; c]
                  then Some (Space (String a (String b (String c EmptyString))), r3)
                  else Some (Other a, r)
              end
        end
  end.

(** The string of one code point. *)
Definition char (n : N) : string :=
  string_of_list_ascii (map ascii_of_N (utf8 n)).

(** The string that the items spell. *)
Fixpoint text (l : list Item) : string :=
  match l with
  | [] => EmptyString
  | x :: rest => (bytesOf x ++ text rest)%string
  end.

(** The string begins with a white-space character. *)
Definition beginsWithSpace (s : string) : bool :=
  match step s with
  | Some (Space _, _) => true
  | _ => false
  end.

(** The items [l] are the items of the string they spell. *)
Definition scanned (l : list Item) : Prop := scan (text l) = l.

(** The items without the white space at their start, and without the
    white space at their end. *)
Fixpoint dropStart (l : list Item) : list Item :=
  match l with
  | Space _ :: rest => dropStart rest
  | _ => l
  end.

Fixpoint dropEnd (l : list Item) : list Item :=
  match l with
  | [] => []
  | x :: rest =>
      match dropEnd rest with
      | [] => if isSpace x then [] else [x]
      | rest' => x :: rest'
      end
  end.

Definition trimStart (s : string) : string := text (dropStart (scan s)).

Definition trimEnd (s : string) : string := text (dropEnd (scan s)).

(** [s.trim()] *)
Definition trim (s : string) : string := trimEnd (trimStart s).

(** [s.split(/\s+/)] on the items of [s]: [cur] is the piece being read,
    reversed; [inWs] tells that the previous item belonged to a
    separator. *)
Fixpoint split_go (inWs : bool) (cur : list ascii) (l : list Item) : list string :=
  match l with
  | [] => [string_of_list_ascii (rev cur)]
  | Space _ :: rest =>
      if inWs then split_go true cur rest
      else string_of_list_ascii (rev cur) :: split_go true [] rest
  | Other c :: rest => split_go false (c :: cur) rest
  end.

Definition splitWs (s : string) : list string := split_go false [] (scan s).

(** [!!v] *)
Definition truthy (v : Value) : bool :=
  match v with
  | JUndefined | JNull => false
  | JBool b => b
  | JNum q => negb (Qeq_bool q 0)
  | JStr s => negb (String.eqb s EmptyString)
  | JArr _ | JObj _ => true
  end.

(** The property named [k] of an object literal; [JSON.parse] keeps the
    last of several bindings of one key. *)
Definition lookupKey (k : string) (fields : list (string * Value)) : Value :=
  match find (fun kv => String.eqb k (fst kv)) (rev fields) with
  | Some kv => snd kv
  | None => JUndefined
  end.

(** [v.k] for a property name that no primitive wrapper and no array
    defines: a [TypeError] on [null] and [undefined]. *)
Definition get (k : string) (v : Value) : Outcome Value :=
  match v with
  | JUndefined | JNull => Throw TypeError
  | JObj fields => Ok (lookupKey k fields)
  | _ => Ok JUndefined
  end.

(** The fields of an object that a spread [{...v}] copies. *)
Definition ownFields (v : Value) : list (string * Value) :=
  match v with
  | JObj fields => fields
  | _ => []
  end.

Definition without (keys : list string) (fields : list (string * Value))
  : list (string * Value) :=
  filter (fun kv => negb (existsb (String.eqb (fst kv)) keys)) fields.

(** [!v || typeof v !== 'string'] is false exactly for a non-empty string. *)
Definition nonEmptyString (v : Value) : option string :=
  match v with
  | JStr s => if String.eqb s EmptyString then None else Some s
  | _ => None
  end.

(** [list.includes(v)] for a list of string literals. *)
Definition includes (l : list string) (v : Value) : bool :=
  match v with
  | JStr s => existsb (String.eqb s) l
  | _ => false
  end.

(** [v === n] for a number [n]. *)
Definition strictEqNum (v : Value) (n : Q) : bool :=
  match v with
  | JNum q => Qeq_bool q n
  | _ => false
  end.

Definition Qlt_bool (a b : Q) : bool := negb (Qle_bool b a).

(** ** Doubles *)

(** The binary64 format: 53 bits of precision, exponents below 1024. *)
Definition prec : Z := 53.
Definition emax : Z := 1024.

Definition ofInteger (z : Z) : SpecFloat.spec_float :=
  match z with
  | Z0 => SpecFloat.S754_zero false
  | Zpos p => SpecFloat.S754_finite false p 0
  | Zneg p => SpecFloat.S754_finite true p 0
  end.

(** The double nearest to [q] (ties to even): the number itself when it
    is a double, and the double that a literal of this value denotes. *)
Definition toDouble (q : Q) : SpecFloat.spec_float :=
  SpecFloat.SFdiv prec emax (ofInteger (Qnum q)) (ofInteger (Zpos (Qden q))).

(** The value of a finite double.  No sum of durations is infinite: a
    duration is at most 10 and an array has fewer than 2^32 elements. *)
Definition valueOf (x : SpecFloat.spec_float) : Q :=
  match x with
  | SpecFloat.S754_finite s m e =>
      let n := if s then Zneg m else Zpos m in
      match e with
      | Z0 => inject_Z n
      | Zpos p => inject_Z (n * 2 ^ Zpos p)
      | Zneg p => Qred (Qmake n (2 ^ p))
      end
  | _ => 0
  end.

(** [x + y], [x - y], [x * y] and [x < y] on doubles *)
Definition fadd : SpecFloat.spec_float -> SpecFloat.spec_float -> SpecFloat.spec_float :=
  SpecFloat.SFadd prec emax.
Definition fsub : SpecFloat.spec_float -> SpecFloat.spec_float -> SpecFloat.spec_float :=
  SpecFloat.SFsub prec emax.
Definition fmul : SpecFloat.spec_float -> SpecFloat.spec_float -> SpecFloat.spec_float :=
  SpecFloat.SFmul prec emax.
Definition flt : SpecFloat.spec_float -> SpecFloat.spec_float -> bool :=
  SpecFloat.SFltb.

Definition zero : SpecFloat.spec_float := SpecFloat.S754_zero false.

(** The literal [0.1] *)
Definition tenth : SpecFloat.spec_float := Eval vm_compute in toDouble (1 # 10).

(** [Math.round] *)
Definition round (x : Q) : Z := Qfloor (x + (1 # 2)).

(** [Math.round(x * 10) / 10] *)
Definition round1 (x : Q) : Q := (inject_Z (round (x * 10)) / 10)%Q.

End Js.

Notation "'let*' x ':=' m 'in' k" := (Js.bind m (fun x => k))
  (at level 10, x name, m at level 100, k at level 200, only parsing).

(* ===================================================================== *)
(** * src/director/parser.ts                                              *)
(* ===================================================================== *)

Module Parser.
Import Js.

Inductive AspectRatio : Type := ar_16_9 | ar_9_16 | ar_1_1.

(** [interface ValidationInput]; [None] is an absent optional field. *)
Record ValidationInput : Type := {
  targetDuration : Q;
  aspectRatio : AspectRatio;
  maxScenes : option Q;
  maxShotsPerScene : option Q
}.

(** [interface DirectedShot] as the parser handles it.  The two optional
    fields that [validateDirection] passes through unchecked against their
    declared type keep their raw value; [shot_extra] holds the remaining
    properties, which the spreads copy unchanged. *)
Record DirectedShot : Type := {
  shot_id : Q;
  duration : Q;
  startPrompt : string;
  endPrompt : string;
  motionPrompt : string;
  cameraMove : string;
  lighting : string;
  colorPalette : Value;
  transitionOut : Value;
  shot_extra : list (string * Value)
}.

Record DirectedScene : Type := {
  scene_id : Q;
  name : string;
  description : string;
  mood : string;
  shots : list DirectedShot;
  scene_extra : list (string * Value)
}.

Record VideoDirection : Type := {
  title : string;
  narrative : string;
  totalDuration : Q;
  scenes : list DirectedScene;
  direction_extra : list (string * Value)
}.

Definition validCameraMoves : list string :=
  ["static"; "push_in"; "pull_out"; "pan_left"; "pan_right"; "tilt_up";
   "tilt_down"; "crane_up"; "crane_down"; "dolly_left"; "dolly_right"]%string.

Definition validTransitions : list string :=
  ["cut"; "crossfade"; "fade_black"; "fade_white"; "wipe_left";
   "wipe_right"]%string.

Definition shotKeys : list string :=
  ["id"; "duration"; "startPrompt"; "endPrompt"; "motionPrompt";
   "cameraMove"; "lighting"; "colorPalette"; "transitionOut"]%string.

Definition sceneKeys : list string :=
  ["id"; "name"; "description"; "mood"; "shots"]%string.

(** [input.maxScenes && n > input.maxScenes] *)
Definition exceeds (n : nat) (cap : option Q) : option Q :=
  match cap with
  | Some m =>
      if (negb (Qeq_bool m 0) && Qlt_bool m (inject_Z (Z.of_nat n)))%bool
      then Some m else None
  | None => None
  end.

Definition durationInRange (v : Value) : option Q :=
  match v with
  | JNum q => if (Qlt_bool q 5 || Qlt_bool 10 q)%bool then None else Some q
  | _ => None
  end.

(** The body of the inner [for] loop for the shot at index [j]. *)
Definition validateShot (sceneId : Value) (j : nat) (shot : Value)
  : Outcome DirectedShot :=
  let expectedShotId := (Z.of_nat j + 1)%Z in
  let* id := get "id" shot in
  let fail m f := Throw (ValidationError m (Some f) (Some sceneId) (Some id)) in
  if negb (strictEqNum id (inject_Z expectedShotId))
  then fail (ShotIdShouldBe expectedShotId id) "id"%string
  else
  let* dur := get "duration" shot in
  match durationInRange dur with
  | None => fail (ShotDurationRange dur) "duration"%string
  | Some d =>
  let* sp := get "startPrompt" shot in
  match nonEmptyString sp with
  | None => fail (Text "Missing or invalid startPrompt") "startPrompt"%string
  | Some startP =>
  let* ep := get "endPrompt" shot in
  match nonEmptyString ep with
  | None => fail (Text "Missing or invalid endPrompt") "endPrompt"%string
  | Some endP =>
  let* mp := get "motionPrompt" shot in
  match nonEmptyString mp with
  | None => fail (Text "Missing or invalid motionPrompt") "motionPrompt"%string
  | Some motionP =>
  if Nat.ltb (length (splitWs startP)) 20
  then fail (Text "startPrompt is too brief (minimum 20 words)") "startPrompt"%string
  else
  if Nat.ltb (length (splitWs endP)) 20
  then fail (Text "endPrompt is too brief (minimum 20 words)") "endPrompt"%string
  else
  let* cm := get "cameraMove" shot in
  if negb (includes validCameraMoves cm)
  then fail (InvalidCameraMove cm) "cameraMove"%string
  else
  let* li := get "lighting" shot in
  match nonEmptyString li with
  | None => fail (Text "Missing or invalid lighting") "lighting"%string
  | Some light =>
  let* tr := get "transitionOut" shot in
  if (truthy tr && negb (includes validTransitions tr))%bool
  then fail (InvalidTransitionOut tr) "transitionOut"%string
  else
  let* cp := get "colorPalette" shot in
  Ok {| shot_id := match id with JNum q => q | _ => 0 end;
        duration := d;
        startPrompt := startP;
        endPrompt := endP;
        motionPrompt := motionP;
        cameraMove := match cm with JStr s => s | _ => EmptyString end;
        lighting := light;
        colorPalette := cp;
        transitionOut := tr;
        shot_extra := without shotKeys (ownFields shot) |}
  end end end end end.

(** The inner loop from index [j] on; [total] is
    [totalCalculatedDuration], a double. *)
Fixpoint validateShots (sceneId : Value) (j : nat) (l : list Value)
  (total : SpecFloat.spec_float)
  : Outcome (list DirectedShot * SpecFloat.spec_float) :=
  match l with
  | [] => Ok ([], total)
  | shot :: rest =>
      let* s := validateShot sceneId j shot in
      let* r := validateShots sceneId (S j) rest
                  (fadd total (toDouble (duration s))) in
      Ok (s :: fst r, snd r)
  end.

(** The body of the outer loop for the scene at index [i]. *)
Definition validateScene (input : ValidationInput) (i : nat) (scene : Value)
  (total : SpecFloat.spec_float)
  : Outcome (DirectedScene * SpecFloat.spec_float) :=
  let expectedSceneId := (Z.of_nat i + 1)%Z in
  let* id := get "id" scene in
  let fail m f := Throw (ValidationError m (Some f) (Some id) None) in
  if negb (strictEqNum id (inject_Z expectedSceneId))
  then fail (SceneIdShouldBe expectedSceneId id) "id"%string
  else
  let* nm := get "name" scene in
  match nonEmptyString nm with
  | None => fail (Text "Missing or invalid scene name") "name"%string
  | Some sname =>
  let* ds := get "description" scene in
  match nonEmptyString ds with
  | None => fail (Text "Missing or invalid scene description") "description"%string
  | Some sdesc =>
  let* md := get "mood" scene in
  match nonEmptyString md with
  | None => fail (Text "Missing or invalid mood") "mood"%string
  | Some smood =>
  let* sh := get "shots" scene in
  match sh with
  | JArr (first :: more) =>
      let l := first :: more in
      match exceeds (length l) (maxShotsPerScene input) with
      | Some m => fail (SceneTooManyShots id (length l) m) "shots"%string
      | None =>
          let* r := validateShots id 0 l total in
          Ok ({| scene_id := match id with JNum q => q | _ => 0 end;
                 name := sname;
                 description := sdesc;
                 mood := smood;
                 shots := fst r;
                 scene_extra := without sceneKeys (ownFields scene) |},
              snd r)
      end
  | _ => fail (Text "Scene must have at least one shot") "shots"%string
  end end end end.

Fixpoint validateScenes (input : ValidationInput) (i : nat) (l : list Value)
  (total : SpecFloat.spec_float)
  : Outcome (list DirectedScene * SpecFloat.spec_float) :=
  match l with
  | [] => Ok ([], total)
  | scene :: rest =>
      let* s := validateScene input i scene total in
      let* r := validateScenes input (S i) rest (snd s) in
      Ok (fst s :: fst r, snd r)
  end.

(** [typeof v === 'object'] for a truthy [v] *)
Definition isObject (v : Value) : bool :=
  match v with
  | JArr _ | JObj _ => true
  | _ => false
  end.

Definition positiveNumber (v : Value) : bool :=
  match v with
  | JNum q => Qlt_bool 0 q
  | _ => false
  end.

Definition validateDirection (direction : Value) (input : ValidationInput)
  : Outcome VideoDirection :=
  let fail m f := Throw (ValidationError m f None None) in
  if negb (isObject direction)
  then fail (Text "Direction must be a valid object") None
  else
  let* t := get "title" direction in
  match nonEmptyString t with
  | None => fail (Text "Missing or invalid title") (Some "title"%string)
  | Some ttl =>
  let* n := get "narrative" direction in
  match nonEmptyString n with
  | None => fail (Text "Missing or invalid narrative") (Some "narrative"%string)
  | Some narr =>
  let* td := get "totalDuration" direction in
  if negb (positiveNumber td)
  then fail (Text "Missing or invalid totalDuration") (Some "totalDuration"%string)
  else
  let* sc := get "scenes" direction in
  match sc with
  | JArr (first :: more) =>
      let l := first :: more in
      match exceeds (length l) (maxScenes input) with
      | Some m => fail (TooManyScenes (length l) m) (Some "scenes"%string)
      | None =>
          let* r := validateScenes input 0 l zero in
          let totalCalculatedDuration := snd r in
          let target := toDouble (targetDuration input) in
          let tolerance := fmul target tenth in
          let minDuration := fsub target tolerance in
          let maxDuration := fadd target tolerance in
          if (flt totalCalculatedDuration minDuration
              || flt maxDuration totalCalculatedDuration)%bool
          then fail (TotalDurationOutside (valueOf totalCalculatedDuration)
                       (valueOf minDuration) (valueOf maxDuration)
                       (targetDuration input))
                    (Some "totalDuration"%string)
          else Ok {| title := ttl;
                     narrative := narr;
                     totalDuration := valueOf totalCalculatedDuration;
                     scenes := fst r;
                     direction_extra := [] |}
      end
  | _ => fail (Text "Scenes must be a non-empty array") (Some "scenes"%string)
  end end end.

(** [shot.colorPalette?.trim()] *)
Definition trimOptional (v : Value) : Outcome Value :=
  match v with
  | JUndefined | JNull => Ok JUndefined
  | JStr s => Ok (JStr (trim s))
  | _ => Throw TypeError
  end.

(** [shot.transitionOut || 'cut'] *)
Definition orCut (v : Value) : Value :=
  if truthy v then v else JStr "cut".

Definition normalizeShot (shotIndex : nat) (shot : DirectedShot)
  : Outcome DirectedShot :=
  let* cp := trimOptional (colorPalette shot) in
  Ok {| shot_id := inject_Z (Z.of_nat shotIndex + 1);
        duration := round1 (duration shot);
        startPrompt := trim (startPrompt shot);
        endPrompt := trim (endPrompt shot);
        motionPrompt := trim (motionPrompt shot);
        cameraMove := cameraMove shot;
        lighting := trim (lighting shot);
        colorPalette := cp;
        transitionOut := orCut (transitionOut shot);
        shot_extra := shot_extra shot |}.

(** [l.map((x, index) => f(index, x))] from index [i] on, for a callback
    that can throw. *)
Fixpoint mapi {A B : Type} (f : nat -> A -> Outcome B) (i : nat) (l : list A)
  : Outcome (list B) :=
  match l with
  | [] => Ok []
  | x :: rest =>
      let* y := f i x in
      let* ys := mapi f (S i) rest in
      Ok (y :: ys)
  end.

Definition normalizeScene (sceneIndex : nat) (scene : DirectedScene)
  : Outcome DirectedScene :=
  let* normalizedShots := mapi normalizeShot 0 (shots scene) in
  Ok {| scene_id := inject_Z (Z.of_nat sceneIndex + 1);
        name := trim (name scene);
        description := trim (description scene);
        mood := trim (mood scene);
        shots := normalizedShots;
        scene_extra := scene_extra scene |}.

(** [scene.shots.reduce((sum, shot) => sum + shot.duration, 0)] *)
Definition sceneDuration (scene : DirectedScene) : Q :=
  fold_left (fun sum shot => (sum + duration shot)%Q) (shots scene) 0%Q.

Definition sumDurations (l : list DirectedScene) : Q :=
  fold_left (fun total scene => (total + sceneDuration scene)%Q) l 0%Q.

Definition normalizeDirection (direction : VideoDirection)
  : Outcome VideoDirection :=
  let* normalizedScenes := mapi normalizeScene 0 (scenes direction) in
  let totalDuration := sumDurations normalizedScenes in
  Ok {| title := trim (title direction);
        narrative := trim (narrative direction);
        totalDuration := round1 totalDuration;
        scenes := normalizedScenes;
        direction_extra := direction_extra direction |}.

Definition parseDirection (rawDirection : Value) (input : ValidationInput)
  : Outcome VideoDirection :=
  let* validated := validateDirection rawDirection input in
  normalizeDirection validated.

End Parser.

(* ===================================================================== *)
(** * src/director/index.ts                                               *)
(* ===================================================================== *)

Module Director.
Import Js Parser.

(** [input.constraints] *)
Record Constraints : Type := {
  c_maxScenes : option Q;
  c_maxShotsPerScene : option Q;
  mustInclude : list string;
  avoid : list string
}.

Record DirectorInput : Type := {
  concept : string;
  style : option string;
  in_targetDuration : Q;
  in_aspectRatio : AspectRatio;
  constraints : option Constraints
}.

(** [this.llm.json(messages)]: the provider answers the messages, which
    [direct] builds from its input and [refine] from the direction and the
    feedback; it returns the parsed JSON or throws, a [SyntaxError] among
    others when the body of the provider's response is not JSON. *)
Record LLM : Type := {
  json_direct : DirectorInput -> Outcome Value;
  json_refine : VideoDirection -> string -> Outcome Value
}.

Definition direct (llm : LLM) (input : DirectorInput) : Outcome VideoDirection :=
  match
    (let* rawDirection := json_direct llm input in
     parseDirection rawDirection
       {| targetDuration := in_targetDuration input;
          aspectRatio := in_aspectRatio input;
          maxScenes := match constraints input with
                       | Some c => c_maxScenes c | None => None end;
          maxShotsPerScene := match constraints input with
                              | Some c => c_maxShotsPerScene c | None => None end |})
  with
  | Throw (ValidationError m _ sceneId shotId) =>
      Throw (Error (Prefixed "AI Director output validation failed: "
                      (Located m sceneId shotId)))
  | Throw (SyntaxError m) =>
      Throw (Error (Prefixed "AI Director returned invalid JSON: " m))
  | r => r
  end.

(** The validation context that [refine] derives from the prior plan. *)
Definition refineInput (direction : VideoDirection) : ValidationInput :=
  {| targetDuration := totalDuration direction;
     aspectRatio := ar_16_9;
     maxScenes := Some (inject_Z (Z.of_nat (length (scenes direction)) + 2));
     maxShotsPerScene := None |}.

Definition refine (llm : LLM) (direction : VideoDirection) (feedback : string)
  : Outcome VideoDirection :=
  match
    (let* rawDirection := json_refine llm direction feedback in
     parseDirection rawDirection (refineInput direction))
  with
  | Throw (ValidationError m _ _ _) =>
      Throw (Error (Prefixed "Refined direction validation failed: " m))
  | r => r
  end.

End Director.

(* ===================================================================== *)
(** * src/durable-objects/VideoJob.ts                                     *)
(* ===================================================================== *)

Module VideoJob.
Import Js.

Definition POLL_INTERVAL_MS : Z := 30000.
Definition MAX_POLL_ATTEMPTS : nat := 40.

Inductive AspectRatio : Type := ar_16_9 | ar_9_16 | ar_1_1.

Inductive JobStatus : Type :=
| pending | generating_images | images_complete | generating_videos
| videos_complete | compiling | complete | failed.

Inductive SceneStatus : Type :=
| scene_pending | generating_start_image | generating_end_image
| generating_video | polling_video | scene_complete | scene_failed.

(** [interface Scene] *)
Record Scene : Type := {
  id : Z;
  name : string;
  startPrompt : string;
  endPrompt : string;
  motionPrompt : string;
  duration : Q
}.

(** [interface SceneJobState]; the R2 keys, which VideoJob never assigns,
    are left out. *)
Record SceneJobState : Type := {
  sceneId : Z;
  startImageUrl : option string;
  endImageUrl : option string;
  videoRequestId : option string;
  videoUrl : option string;
  status : SceneStatus;
  error : option Message
}.

(** [interface VideoJobState] *)
Record VideoJobState : Type := {
  job_id : string;
  projectId : string;
  job_status : JobStatus;
  scenes : list SceneJobState;
  finalVideoUrl : option string;
  progress : Z;
  job_error : option Message;
  createdAt : string;
  updatedAt : string
}.

Inductive QueueStatus : Type := IN_QUEUE | IN_PROGRESS | COMPLETED | FAILED.

Inductive RenderStatus : Type := planned | rendering | succeeded | render_failed.

(** [interface CreatomateRenderResponse] *)
Record Render : Type := {
  render_id : string;
  render_status : RenderStatus;
  render_url : option string;
  error_message : option string
}.

(** The calls that leave the durable object. *)
Inductive Call : Type :=
| GenerateImage (prompt : string) (aspectRatio : AspectRatio)
| SubmitVideoGeneration (prompt startImageUrl endImageUrl : string)
    (aspectRatio : AspectRatio) (duration : Q)
| CheckVideoStatus (requestId : string)
| GetVideoResult (requestId : string)
| CompileVideo (videoUrls : list string) (aspectRatio : AspectRatio)
| CheckRenderStatus (renderId : string).

Inductive Event : Type :=
| Saved (snapshot : VideoJobState)
| AlarmSet (delay : Z)
| Called (c : Call).

(** FalService, CreatomateService and the platform.  The first argument of
    a service is the number of events that precede the call, so that the
    same request can be answered differently at different times.
    [fal_generateImage] answers with the urls of [images]; the compilation with
    [renders[0]], absent for an empty array; [sqlNoRow] is what
    [cursor.one()] throws on an empty result. *)
Record Services : Type := {
  fal_generateImage : nat -> string -> AspectRatio -> Outcome (list string);
  fal_submitVideoGeneration :
    nat -> string -> string -> string -> AspectRatio -> Q -> Outcome string;
  fal_checkVideoStatus : nat -> string -> Outcome QueueStatus;
  fal_getVideoResult : nat -> string -> Outcome string;
  creatomate_compileVideo :
    nat -> list string -> AspectRatio -> Outcome (option Render);
  creatomate_checkRenderStatus : nat -> string -> Outcome Render;
  now : nat -> string;
  sqlNoRow : Thrown
}.

(** One instance of [class VideoJob]: its two private fields, the rows of
    its SQLite storage, its alarm, and the log of what it has done.
    [job_state_row] is the row of the table [job_state], which is keyed
    by the id of the job: the router names an object after the id of its
    job and initializes it once, so that every upsert of [saveState]
    replaces the one row of the table and [SELECT * ... LIMIT 1] reads
    it.  (An object that were to save the states of two jobs would keep a
    row for each; what is proved of reading back what was saved excludes
    it by hypothesis.) *)
Record DurableObject : Type := {
  state : option VideoJobState;
  pollAttempts : nat;
  job_state_row : option VideoJobState;
  config_scenes : option (list Scene);
  config_aspectRatio : option AspectRatio;
  config_renderId : option string;
  alarmArmed : bool;
  log : list Event
}.

Definition fresh : DurableObject :=
  {| state := None; pollAttempts := 0; job_state_row := None;
     config_scenes := None; config_aspectRatio := None;
     config_renderId := None; alarmArmed := false; log := [] |}.

(** ** Field updates *)

Definition setSceneStatus (v : SceneStatus) (s : SceneJobState) : SceneJobState :=
  {| sceneId := sceneId s; startImageUrl := startImageUrl s;
     endImageUrl := endImageUrl s; videoRequestId := videoRequestId s;
     videoUrl := videoUrl s; status := v; error := error s |}.

Definition setStartImageUrl (v : string) (s : SceneJobState) : SceneJobState :=
  {| sceneId := sceneId s; startImageUrl := Some v;
     endImageUrl := endImageUrl s; videoRequestId := videoRequestId s;
     videoUrl := videoUrl s; status := status s; error := error s |}.

Definition setEndImageUrl (v : string) (s : SceneJobState) : SceneJobState :=
  {| sceneId := sceneId s; startImageUrl := startImageUrl s;
     endImageUrl := Some v; videoRequestId := videoRequestId s;
     videoUrl := videoUrl s; status := status s; error := error s |}.

Definition setVideoRequestId (v : string) (s : SceneJobState) : SceneJobState :=
  {| sceneId := sceneId s; startImageUrl := startImageUrl s;
     endImageUrl := endImageUrl s; videoRequestId := Some v;
     videoUrl := videoUrl s; status := status s; error := error s |}.

Definition setVideoUrl (v : string) (s : SceneJobState) : SceneJobState :=
  {| sceneId := sceneId s; startImageUrl := startImageUrl s;
     endImageUrl := endImageUrl s; videoRequestId := videoRequestId s;
     videoUrl := Some v; status := status s; error := error s |}.

Definition setSceneError (v : Message) (s : SceneJobState) : SceneJobState :=
  {| sceneId := sceneId s; startImageUrl := startImageUrl s;
     endImageUrl := endImageUrl s; videoRequestId := videoRequestId s;
     videoUrl := videoUrl s; status := status s; error := Some v |}.

Definition setStatus (v : JobStatus) (st : VideoJobState) : VideoJobState :=
  {| job_id := job_id st; projectId := projectId st; job_status := v;
     scenes := scenes st; finalVideoUrl := finalVideoUrl st;
     progress := progress st; job_error := job_error st;
     createdAt := createdAt st; updatedAt := updatedAt st |}.

Definition setScenes (v : list SceneJobState) (st : VideoJobState) : VideoJobState :=
  {| job_id := job_id st; projectId := projectId st;
     job_status := job_status st; scenes := v;
     finalVideoUrl := finalVideoUrl st; progress := progress st;
     job_error := job_error st; createdAt := createdAt st;
     updatedAt := updatedAt st |}.

Definition setFinalVideoUrl (v : string) (st : VideoJobState) : VideoJobState :=
  {| job_id := job_id st; projectId := projectId st;
     job_status := job_status st; scenes := scenes st;
     finalVideoUrl := Some v; progress := progress st;
     job_error := job_error st; createdAt := createdAt st;
     updatedAt := updatedAt st |}.

Definition setProgress (v : Z) (st : VideoJobState) : VideoJobState :=
  {| job_id := job_id st; projectId := projectId st;
     job_status := job_status st; scenes := scenes st;
     finalVideoUrl := finalVideoUrl st; progress := v;
     job_error := job_error st; createdAt := createdAt st;
     updatedAt := updatedAt st |}.

Definition setError (v : Message) (st : VideoJobState) : VideoJobState :=
  {| job_id := job_id st; projectId := projectId st;
     job_status := job_status st; scenes := scenes st;
     finalVideoUrl := finalVideoUrl st; progress := progress st;
     job_error := Some v; createdAt := createdAt st;
     updatedAt := updatedAt st |}.

Definition setUpdatedAt (v : string) (st : VideoJobState) : VideoJobState :=
  {| job_id := job_id st; projectId := projectId st;
     job_status := job_status st; scenes := scenes st;
     finalVideoUrl := finalVideoUrl st; progress := progress st;
     job_error := job_error st; createdAt := createdAt st;
     updatedAt := v |}.

Definition withState (v : option VideoJobState) (d : DurableObject) : DurableObject :=
  {| state := v; pollAttempts := pollAttempts d;
     job_state_row := job_state_row d; config_scenes := config_scenes d;
     config_aspectRatio := config_aspectRatio d;
     config_renderId := config_renderId d; alarmArmed := alarmArmed d;
     log := log d |}.

Definition withPollAttempts (v : nat) (d : DurableObject) : DurableObject :=
  {| state := state d; pollAttempts := v;
     job_state_row := job_state_row d; config_scenes := config_scenes d;
     config_aspectRatio := config_aspectRatio d;
     config_renderId := config_renderId d; alarmArmed := alarmArmed d;
     log := log d |}.

Definition withRow (v : option VideoJobState) (d : DurableObject) : DurableObject :=
  {| state := state d; pollAttempts := pollAttempts d;
     job_state_row := v; config_scenes := config_scenes d;
     config_aspectRatio := config_aspectRatio d;
     config_renderId := config_renderId d; alarmArmed := alarmArmed d;
     log := log d |}.

Definition withConfig (sc : list Scene) (ar : AspectRatio) (d : DurableObject)
  : DurableObject :=
  {| state := state d; pollAttempts := pollAttempts d;
     job_state_row := job_state_row d; config_scenes := Some sc;
     config_aspectRatio := Some ar;
     config_renderId := config_renderId d; alarmArmed := alarmArmed d;
     log := log d |}.

Definition withRenderId (v : string) (d : DurableObject) : DurableObject :=
  {| state := state d; pollAttempts := pollAttempts d;
     job_state_row := job_state_row d; config_scenes := config_scenes d;
     config_aspectRatio := config_aspectRatio d;
     config_renderId := Some v; alarmArmed := alarmArmed d;
     log := log d |}.

Definition withAlarm (v : bool) (d : DurableObject) : DurableObject :=
  {| state := state d; pollAttempts := pollAttempts d;
     job_state_row := job_state_row d; config_scenes := config_scenes d;
     config_aspectRatio := config_aspectRatio d;
     config_renderId := config_renderId d; alarmArmed := v;
     log := log d |}.

Definition record (e : Event) (d : DurableObject) : DurableObject :=
  {| state := state d; pollAttempts := pollAttempts d;
     job_state_row := job_state_row d; config_scenes := config_scenes d;
     config_aspectRatio := config_aspectRatio d;
     config_renderId := config_renderId d; alarmArmed := alarmArmed d;
     log := log d ++ [e] |}.

(** ** The computation type: state of the object, and exceptions *)

Definition M (A : Type) : Type := DurableObject -> Outcome A * DurableObject.

Definition ret {A : Type} (a : A) : M A := fun d => (Ok a, d).

Definition throw {A : Type} (t : Thrown) : M A := fun d => (Throw t, d).

Definition bindM {A B : Type} (m : M A) (k : A -> M B) : M B :=
  fun d =>
    match m d with
    | (Ok a, d') => k a d'
    | (Throw t, d') => (Throw t, d')
    end.

(** [try { body } catch (error) { handler(error) }]: what [body] did to the
    object before it threw stays done. *)
Definition tryCatch {A : Type} (body : M A) (handler : Thrown -> M A) : M A :=
  fun d =>
    match body d with
    | (Ok a, d') => (Ok a, d')
    | (Throw t, d') => handler t d'
    end.

Notation "x <- m ;; k" := (bindM m (fun x => k))
  (at level 100, m at next level, right associativity).
Notation "m ;; k" := (bindM m (fun _ => k))
  (at level 100, right associativity).

Definition read {A : Type} (f : DurableObject -> A) : M A :=
  fun d => (Ok (f d), d).

Definition update (f : DurableObject -> DurableObject) : M unit :=
  fun d => (Ok tt, f d).

(** [if (!this.state) throw new Error('Job not initialized')] *)
Definition theState : M VideoJobState :=
  fun d =>
    match state d with
    | Some st => (Ok st, d)
    | None => (Throw (Error (Text "Job not initialized")), d)
    end.

Definition modify (f : VideoJobState -> VideoJobState) : M unit :=
  update (fun d => withState (option_map f (state d)) d).

(** An assignment through the reference [this.state.scenes[i]]. *)
Definition modifyScene (i : nat) (f : SceneJobState -> SceneJobState) : M unit :=
  modify (fun st => setScenes (alter f i (scenes st)) st).

(** A call to an external service, recorded in the log. *)
Definition call {A : Type} (c : Call) (answer : nat -> Outcome A) : M A :=
  fun d => (answer (length (log d)), record (Called c) d).

Fixpoint forEach {A : Type} (f : A -> M unit) (l : list A) : M unit :=
  match l with
  | [] => ret tt
  | x :: rest => f x ;; forEach f rest
  end.

(** ** loadState, saveState *)

Definition hasText (u : option string) : bool :=
  match u with
  | Some s => negb (String.eqb s EmptyString)
  | None => false
  end.

(** [this.state.finalVideoUrl || null] *)
Definition orNull (u : option string) : option string :=
  if hasText u then u else None.

(** [this.state.error || null] *)
Definition orNullMessage (m : option Message) : option Message :=
  match m with
  | Some (Text s) => if String.eqb s EmptyString then None else m
  | _ => m
  end.

(** The row that the upsert of [saveState] writes. *)
Definition persisted (st : VideoJobState) : VideoJobState :=
  {| job_id := job_id st; projectId := projectId st;
     job_status := job_status st; scenes := scenes st;
     finalVideoUrl := orNull (finalVideoUrl st); progress := progress st;
     job_error := orNullMessage (job_error st); createdAt := createdAt st;
     updatedAt := updatedAt st |}.

Definition loadState : M (option VideoJobState) :=
  fun d =>
    match state d with
    | Some st => (Ok (Some st), d)
    | None => (Ok (job_state_row d), withState (job_state_row d) d)
    end.

Definition saveState : M unit :=
  fun d =>
    match state d with
    | None => (Ok tt, d)
    | Some st =>
        (Ok tt, record (Saved (persisted st)) (withRow (Some (persisted st)) d))
    end.

(** [this.ctx.storage.setAlarm(Date.now() + POLL_INTERVAL_MS)] *)
Definition setAlarm : M unit :=
  update (fun d => record (AlarmSet POLL_INTERVAL_MS) (withAlarm true d)).

(** ** updateProgress *)

Definition stepsOf (scene : SceneJobState) : Z :=
  ((if hasText (startImageUrl scene) then 1 else 0)
   + (if hasText (endImageUrl scene) then 1 else 0)
   + (if hasText (videoUrl scene) then 1 else 0))%Z.

Definition countSteps (l : list SceneJobState) : Z :=
  fold_left (fun completedSteps scene => (completedSteps + stepsOf scene)%Z) l 0%Z.

Definition isComplete (v : JobStatus) : bool :=
  match v with complete => true | _ => false end.

Definition isFailed (v : JobStatus) : bool :=
  match v with failed => true | _ => false end.

Definition computeProgress (st : VideoJobState) : Z :=
  let totalSteps := (Z.of_nat (length (scenes st)) * 3 + 1)%Z in
  let completedSteps :=
    if isComplete (job_status st) then totalSteps else countSteps (scenes st) in
  round ((inject_Z completedSteps / inject_Z totalSteps) * 100)%Q.

Definition updateProgress : M unit :=
  modify (fun st => setProgress (computeProgress st) st).

(** ** The catch blocks *)

Definition failWith (fallback : string) (t : Thrown) : M unit :=
  modify (fun st => setError (messageOr fallback t) (setStatus failed st)) ;;
  saveState.

(** ** pollRenderCompletion, compileVideo *)

Definition renderFailed (v : RenderStatus) : bool :=
  match v with render_failed => true | _ => false end.

Definition renderSucceeded (v : RenderStatus) : bool :=
  match v with succeeded => true | _ => false end.

(** The [while (attempts < maxAttempts)] loop with [remaining] iterations
    to go. *)
Fixpoint pollRenderLoop (env : Services) (renderId : string) (remaining : nat)
  : M unit :=
  match remaining with
  | O => throw (Error (Text "Render timed out"))
  | S k =>
      render <- call (CheckRenderStatus renderId)
                  (fun n => creatomate_checkRenderStatus env n renderId) ;;
      if (renderSucceeded (render_status render) && hasText (render_url render))%bool
      then
        modify (fun st =>
          setProgress 100
            (setStatus complete
               (setFinalVideoUrl (default EmptyString (render_url render)) st))) ;;
        saveState
      else if renderFailed (render_status render)
      then throw (Error (Text (if hasText (error_message render)
                               then default EmptyString (error_message render)
                               else "Render failed"%string)))
      else pollRenderLoop env renderId k
  end.

Definition pollRenderCompletion (env : Services) (renderId : string) : M unit :=
  st <- read state ;;
  match st with
  | None => ret tt
  | Some _ => pollRenderLoop env renderId 60
  end.

(** [Array.prototype.sort] with [(a, b) => a.sceneId - b.sceneId]: stable,
    in place. *)
Fixpoint insertBySceneId (x : SceneJobState) (l : list SceneJobState)
  : list SceneJobState :=
  match l with
  | [] => [x]
  | y :: rest =>
      if (sceneId x <=? sceneId y)%Z then x :: y :: rest
      else y :: insertBySceneId x rest
  end.

Definition sortBySceneId (l : list SceneJobState) : list SceneJobState :=
  fold_right insertBySceneId [] l.

Definition truthyUrls (l : list SceneJobState) : list string :=
  omap (fun s => orNull (videoUrl s)) l.

Definition compileVideo (env : Services) : M unit :=
  _ <- theState ;;
  modify (setStatus compiling) ;;
  saveState ;;
  tryCatch
    (modify (fun st => setScenes (sortBySceneId (scenes st)) st) ;;
     st <- theState ;;
     let videoUrls := truthyUrls (scenes st) in
     match videoUrls with
     | [] => throw (Error (Text "No videos to compile"))
     | _ =>
         row <- read config_aspectRatio ;;
         aspectRatio <- match row with
                        | Some a => ret a
                        | None => throw (sqlNoRow env)
                        end ;;
         render <- call (CompileVideo videoUrls aspectRatio)
                     (fun n => creatomate_compileVideo env n videoUrls aspectRatio) ;;
         match render with
         | None => throw TypeError
         | Some r =>
             update (withRenderId (render_id r)) ;;
             pollRenderCompletion env (render_id r)
         end
     end)
    (failWith "Compilation failed").

(** ** alarm *)

Definition isPolling (v : SceneStatus) : bool :=
  match v with polling_video => true | _ => false end.

(** One iteration of the [for] loop of [alarm], on the scene state at
    index [i]; the flags are [(allComplete, anyFailed)]. *)
Definition pollScene (env : Services) (i : nat) (flags : bool * bool)
  : M (bool * bool) :=
  st <- theState ;;
  match scenes st !! i with
  | None => ret flags
  | Some sceneState =>
      if (negb (isPolling (status sceneState))
          || negb (hasText (videoRequestId sceneState)))%bool
      then ret flags
      else
        let requestId := default EmptyString (videoRequestId sceneState) in
        answer <- call (CheckVideoStatus requestId)
                    (fun n => fal_checkVideoStatus env n requestId) ;;
        match answer with
        | COMPLETED =>
            url <- call (GetVideoResult requestId)
                     (fun n => fal_getVideoResult env n requestId) ;;
            modifyScene i (setVideoUrl url) ;;
            modifyScene i (setSceneStatus scene_complete) ;;
            ret flags
        | FAILED =>
            modifyScene i (setSceneStatus scene_failed) ;;
            modifyScene i (setSceneError (Text "Video generation failed")) ;;
            ret (fst flags, true)
        | _ => ret (false, snd flags)
        end
  end.

Fixpoint pollFrom (env : Services) (i count : nat) (flags : bool * bool)
  : M (bool * bool) :=
  match count with
  | O => ret flags
  | S k =>
      flags' <- pollScene env i flags ;;
      pollFrom env (S i) k flags'
  end.

(** The alarm handler.  The platform has cleared the alarm that fires. *)
Definition alarm (env : Services) : M unit :=
  update (withAlarm false) ;;
  loaded <- loadState ;;
  match loaded with
  | None => ret tt
  | Some st =>
      if (isComplete (job_status st) || isFailed (job_status st))%bool
      then ret tt
      else
        update (fun d => withPollAttempts (S (pollAttempts d)) d) ;;
        attempts <- read pollAttempts ;;
        if Nat.ltb MAX_POLL_ATTEMPTS attempts
        then
          modify (fun st => setError (Text "Video generation timed out")
                              (setStatus failed st)) ;;
          saveState
        else
          tryCatch
            (flags <- pollFrom env 0 (length (scenes st)) (true, false) ;;
             updateProgress ;;
             saveState ;;
             if snd flags
             then
               modify (fun st =>
                 setError (Text "One or more videos failed to generate")
                   (setStatus failed st)) ;;
               saveState
             else if fst flags
             then
               modify (setStatus videos_complete) ;;
               saveState ;;
               compileVideo env
             else setAlarm)
            (fun _ => setAlarm)
  end.

(** ** startVideoGeneration, generateImages, startGeneration, initialize *)

(** [this.state.scenes.find((s) => s.sceneId === scene.id)], as the index
    of the element found. *)
Fixpoint findIndex (sid : Z) (l : list SceneJobState) : option nat :=
  match l with
  | [] => None
  | s :: rest =>
      if (sceneId s =? sid)%Z then Some O
      else option_map S (findIndex sid rest)
  end.

Definition submitFor (env : Services) (aspectRatio : AspectRatio) (scene : Scene)
  : M unit :=
  st <- theState ;;
  match findIndex (id scene) (scenes st) with
  | None => ret tt
  | Some i =>
      match scenes st !! i with
      | None => ret tt
      | Some sceneState =>
          if (negb (hasText (startImageUrl sceneState))
              || negb (hasText (endImageUrl sceneState)))%bool
          then ret tt
          else
            let startUrl := default EmptyString (startImageUrl sceneState) in
            let endUrl := default EmptyString (endImageUrl sceneState) in
            modifyScene i (setSceneStatus generating_video) ;;
            request_id <-
              call (SubmitVideoGeneration (motionPrompt scene) startUrl endUrl
                      aspectRatio (duration scene))
                (fun n => fal_submitVideoGeneration env n (motionPrompt scene)
                            startUrl endUrl aspectRatio (duration scene)) ;;
            modifyScene i (setVideoRequestId request_id) ;;
            modifyScene i (setSceneStatus polling_video)
      end
  end.

Definition startVideoGeneration (env : Services) (l : list Scene)
  (aspectRatio : AspectRatio) : M unit :=
  _ <- theState ;;
  modify (setStatus generating_videos) ;;
  saveState ;;
  tryCatch
    (forEach (submitFor env aspectRatio) l ;;
     updateProgress ;;
     saveState ;;
     update (withPollAttempts 0) ;;
     setAlarm)
    (failWith "Video generation failed").

(** [result.images[0].url] *)
Definition firstUrl (images : list string) : M string :=
  match images with
  | url :: _ => ret url
  | [] => throw TypeError
  end.

Definition generateImagesFor (env : Services) (aspectRatio : AspectRatio)
  (scene : Scene) : M unit :=
  st <- theState ;;
  match findIndex (id scene) (scenes st) with
  | None => ret tt
  | Some i =>
      modifyScene i (setSceneStatus generating_start_image) ;;
      updateProgress ;;
      saveState ;;
      startResult <- call (GenerateImage (startPrompt scene) aspectRatio)
                       (fun n => fal_generateImage env n (startPrompt scene) aspectRatio) ;;
      startUrl <- firstUrl startResult ;;
      modifyScene i (setStartImageUrl startUrl) ;;
      modifyScene i (setSceneStatus generating_end_image) ;;
      updateProgress ;;
      saveState ;;
      endResult <- call (GenerateImage (endPrompt scene) aspectRatio)
                     (fun n => fal_generateImage env n (endPrompt scene) aspectRatio) ;;
      endUrl <- firstUrl endResult ;;
      modifyScene i (setEndImageUrl endUrl)
  end.

Definition generateImages (env : Services) (l : list Scene)
  (aspectRatio : AspectRatio) : M unit :=
  _ <- theState ;;
  tryCatch
    (forEach (generateImagesFor env aspectRatio) l ;;
     modify (setStatus images_complete) ;;
     updateProgress ;;
     saveState ;;
     startVideoGeneration env l aspectRatio)
    (failWith "Image generation failed").

Definition startGeneration (env : Services) (l : list Scene)
  (aspectRatio : AspectRatio) : M unit :=
  loadState ;;
  _ <- theState ;;
  update (withConfig l aspectRatio) ;;
  modify (setStatus generating_images) ;;
  stamp <- read (fun d => now env (length (log d))) ;;
  modify (setUpdatedAt stamp) ;;
  saveState ;;
  generateImages env l aspectRatio.

Definition initialize (env : Services) (jobId projectId : string) (l : list Scene)
  : M VideoJobState :=
  stamp <- read (fun d => now env (length (log d))) ;;
  let st := {| job_id := jobId; projectId := projectId; job_status := pending;
               scenes := map (fun scene =>
                                {| sceneId := id scene; startImageUrl := None;
                                   endImageUrl := None; videoRequestId := None;
                                   videoUrl := None; status := scene_pending;
                                   error := None |}) l;
               finalVideoUrl := None; progress := 0; job_error := None;
               createdAt := stamp; updatedAt := stamp |} in
  update (withState (Some st)) ;;
  saveState ;;
  ret st.

End VideoJob.

(* ===================================================================== *)
(** * The worker's router: the routes of [handleRequest] that touch jobs  *)
(* ===================================================================== *)

Module Api.
Import Js.

(** [interface Project] (the scene-based one the router stores) *)
Record Project : Type := {
  project_id : string;
  project_name : string;
  project_scenes : list VideoJob.Scene;
  project_aspectRatio : VideoJob.AspectRatio;
  project_createdAt : string;
  project_updatedAt : string
}.

(** What the router puts in the KV namespace [CACHE]: the JSON text of a
    project, the JSON text of [{ projectId, jobId }], or a bare job id. *)
Inductive Stored : Type :=
| StoredProject (p : Project)
| StoredJobRef (projectId jobId : string)
| StoredJobId (jobId : string).

(** The bindings of [Env] that these routes use: the KV namespace and the
    durable objects of [VIDEO_JOB], by the name given to [idFromName]. *)
Record Env : Type := {
  CACHE : gmap string Stored;
  VIDEO_JOB : gmap string VideoJob.DurableObject
}.

Record AuthContext : Type := {
  userId : string;
  email : string
}.

Inductive Route : Type :=
| PostProjects (name : string) (scenes : list VideoJob.Scene)
    (aspectRatio : option VideoJob.AspectRatio)
| PostGenerate (projectId : string)
| GetJob (jobId : string)
| GetProjectJob (projectId : string)
| PostTemplateCreate.

Inductive Data : Type :=
| NoData
| ProjectData (p : Project)
| StartedData (jobId projectId : string)
| JobData (st : option VideoJob.VideoJobState).

(** A response of [jsonResponse]: the HTTP status and the [ApiResponse]. *)
Record Response : Type := {
  http_status : nat;
  success : bool;
  data : Data;
  error : option string
}.

(** A request sent to a durable object stub. *)
Inductive StubFetch : Type :=
| FetchState (name : string)
| FetchInitialize (name : string)
| FetchStart (name : string).

(** What a request needs from the platform: the value of
    [crypto.randomUUID()], the clock, the external services and the
    template scenes of [./data/scenes]. *)
Record Platform : Type := {
  generateId : string;
  nowIso : string;
  services : VideoJob.Services;
  HAMZA_LABS_SCENES : list VideoJob.Scene
}.

Definition projectKey (user projectId : string) : string :=
  "user:" +:+ user +:+ ":project:" +:+ projectId.

Definition jobKey (user jobId : string) : string :=
  "user:" +:+ user +:+ ":job:" +:+ jobId.

Definition currentJobKey (user projectId : string) : string :=
  "user:" +:+ user +:+ ":project:" +:+ projectId +:+ ":currentJob".

(** [\w] or [-] *)
Definition isWordChar (c : ascii) : bool :=
  let n := nat_of_ascii c in
  ((Nat.leb 48 n && Nat.leb n 57) || (Nat.leb 65 n && Nat.leb n 90)
   || (Nat.leb 97 n && Nat.leb n 122) || Nat.eqb n 95 || Nat.eqb n 45)%bool.

(** The path segment matches [[\w-]+]. *)
Definition isWord (s : string) : bool :=
  (negb (String.eqb s EmptyString)
   && forallb isWordChar (list_ascii_of_string s))%bool.

Definition okResponse (code : nat) (d : Data) : Response :=
  {| http_status := code; success := true; data := d; error := None |}.

Definition errorResponse (code : nat) (message : string) : Response :=
  {| http_status := code; success := false; data := NoData;
     error := Some message |}.

Definition putCache (k : string) (v : Stored) (env : Env) : Env :=
  {| CACHE := <[k := v]> (CACHE env); VIDEO_JOB := VIDEO_JOB env |}.

Definition putObject (k : string) (d : VideoJob.DurableObject) (env : Env) : Env :=
  {| CACHE := CACHE env; VIDEO_JOB := <[k := d]> (VIDEO_JOB env) |}.

(** [env.VIDEO_JOB.get(env.VIDEO_JOB.idFromName(name))]: the object of
    that name, created on first use. *)
Definition stub (name : string) (env : Env) : VideoJob.DurableObject :=
  default VideoJob.fresh (VIDEO_JOB env !! name).

(** The text read back from the KV namespace is truthy. *)
Definition truthyStored (v : option Stored) : bool :=
  match v with
  | Some (StoredJobId j) => negb (String.eqb j EmptyString)
  | Some _ => true
  | None => false
  end.

Definition renumber (l : list VideoJob.Scene) : list VideoJob.Scene :=
  imap (fun index scene =>
          {| VideoJob.id := Z.of_nat index + 1;
             VideoJob.name := VideoJob.name scene;
             VideoJob.startPrompt := VideoJob.startPrompt scene;
             VideoJob.endPrompt := VideoJob.endPrompt scene;
             VideoJob.motionPrompt := VideoJob.motionPrompt scene;
             VideoJob.duration := VideoJob.duration scene |}) l.

Definition Result : Type := Response * Env * list StubFetch.

Definition postProjects (pf : Platform) (user : string) (name : string)
  (scenes : list VideoJob.Scene) (aspectRatio : option VideoJob.AspectRatio)
  (env : Env) : Result :=
  if (String.eqb name EmptyString || Nat.eqb (length scenes) 0)%bool
  then (errorResponse 400 "Name and scenes are required", env, [])
  else
    let project :=
      {| project_id := generateId pf; project_name := name;
         project_scenes := renumber scenes;
         project_aspectRatio := default VideoJob.ar_16_9 aspectRatio;
         project_createdAt := nowIso pf; project_updatedAt := nowIso pf |} in
    (okResponse 201 (ProjectData project),
     putCache (projectKey user (project_id project)) (StoredProject project) env,
     []).

Definition postTemplateCreate (pf : Platform) (user : string) (env : Env)
  : Result :=
  let project :=
    {| project_id := generateId pf; project_name := "Hamza Labs Forge Video";
       project_scenes := HAMZA_LABS_SCENES pf;
       project_aspectRatio := VideoJob.ar_16_9;
       project_createdAt := nowIso pf; project_updatedAt := nowIso pf |} in
  (okResponse 201 (ProjectData project),
   putCache (projectKey user (project_id project)) (StoredProject project) env,
   []).

(** [POST /api/projects/{id}/generate].  A stored text that is not the
    JSON of a project makes the route throw, which the router answers
    with 500. *)
Definition postGenerate (pf : Platform) (user projectId : string) (env : Env)
  : Result :=
  match CACHE env !! projectKey user projectId with
  | Some (StoredProject project) =>
      let jobId := generateId pf in
      let d0 := stub jobId env in
      let d1 := snd (VideoJob.initialize (services pf) jobId
                       (project_id project) (project_scenes project) d0) in
      let d2 := snd (VideoJob.startGeneration (services pf)
                       (project_scenes project) (project_aspectRatio project) d1) in
      let env1 := putObject jobId d2 env in
      let env2 := putCache (jobKey user jobId) (StoredJobRef projectId jobId) env1 in
      let env3 := putCache (currentJobKey user projectId) (StoredJobId jobId) env2 in
      (okResponse 202 (StartedData jobId projectId), env3,
       [FetchInitialize jobId; FetchStart jobId])
  | Some _ => (errorResponse 500 "Internal server error", env, [])
  | None => (errorResponse 404 "Project not found", env, [])
  end.

(** The [/state] request to the object named [name]. *)
Definition fetchState (name : string) (env : Env)
  : option VideoJob.VideoJobState * Env :=
  let r := VideoJob.loadState (stub name env) in
  (match fst r with Ok st => st | Throw _ => None end,
   putObject name (snd r) env).

(** [GET /api/jobs/{id}] *)
Definition getJob (user jobId : string) (env : Env) : Result :=
  let jobData := CACHE env !! jobKey user jobId in
  if negb (truthyStored jobData)
  then (errorResponse 404 "Job not found", env, [])
  else
    let r := fetchState jobId env in
    match fst r with
    | None => (errorResponse 404 "Job not found", snd r, [FetchState jobId])
    | Some st => (okResponse 200 (JobData (Some st)), snd r, [FetchState jobId])
    end.

(** [GET /api/projects/{id}/job] *)
Definition getProjectJob (user projectId : string) (env : Env) : Result :=
  match CACHE env !! currentJobKey user projectId with
  | Some (StoredJobId jobId) =>
      if String.eqb jobId EmptyString
      then (errorResponse 404 "No active job for this project", env, [])
      else
        let r := fetchState jobId env in
        (okResponse 200 (JobData (fst r)), snd r, [FetchState jobId])
  | Some _ => (errorResponse 500 "Internal server error", env, [])
  | None => (errorResponse 404 "No active job for this project", env, [])
  end.

(** The protected routes of [handleRequest]: [requireAuth], then the
    route; a path whose id does not match the route's pattern falls
    through to the final 404. *)
Definition handleRequest (pf : Platform) (auth : option AuthContext)
  (route : Route) (env : Env) : Result :=
  let notFound := (errorResponse 404 "Not found", env, []) in
  let guarded (valid : bool) (run : string -> Result) : Result :=
    if valid
    then match auth with
         | None => (errorResponse 401 "Unauthorized", env, [])
         | Some a => run (userId a)
         end
    else notFound in
  match route with
  | PostProjects name scenes aspectRatio =>
      guarded true (fun user => postProjects pf user name scenes aspectRatio env)
  | PostGenerate projectId =>
      guarded (isWord projectId) (fun user => postGenerate pf user projectId env)
  | GetJob jobId =>
      guarded (isWord jobId) (fun user => getJob user jobId env)
  | GetProjectJob projectId =>
      guarded (isWord projectId) (fun user => getProjectJob user projectId env)
  | PostTemplateCreate =>
      guarded true (fun user => postTemplateCreate pf user env)
  end.

End Api.

(* ===================================================================== *)
(** * Predicates used to state the properties                            *)
(* ===================================================================== *)

Module Spec.
Import Js Parser.

(** The first item is no white space. *)
Definition cleanStart (l : list Item) : Prop :=
  match l with
  | Space _ :: _ => False
  | _ => True
  end.

(** A string that does not begin with white space. *)
Definition startsClean (s : string) : Prop := cleanStart (scan s).

(** [direction.scenes] and [scene.shots] of a raw direction. *)
Definition rawScenes (direction : Value) : list Value :=
  match get "scenes" direction with
  | Ok (JArr l) => l
  | _ => []
  end.

Definition rawShots (scene : Value) : list Value :=
  match get "shots" scene with
  | Ok (JArr l) => l
  | _ => []
  end.

(** The property [k] of [v] is a non-empty string. *)
Definition stringAt (k : string) (v : Value) : option string :=
  match get k v with
  | Ok x => nonEmptyString x
  | Throw _ => None
  end.

(** The number of pieces of [split(/\s+/)] of the string property [k]. *)
Definition piecesAt (k : string) (v : Value) : nat :=
  match stringAt k v with
  | Some s => length (splitWs s)
  | None => 0
  end.

(** A raw shot that fails one of the prompt checks the validator makes:
    [motionPrompt] is not a non-empty string, or [startPrompt] or
    [endPrompt] is not a string of at least 20 pieces. *)
Definition failsPromptChecks (shot : Value) : bool :=
  (match stringAt "motionPrompt" shot with Some _ => false | None => true end
   || Nat.ltb (piecesAt "startPrompt" shot) 20
   || Nat.ltb (piecesAt "endPrompt" shot) 20)%bool.

(** The two kinds of exception that leave the validator. *)
Definition rejection (t : Thrown) : Prop :=
  t = TypeError \/ exists m f a b, t = ValidationError m f a b.

(** The durations of all the shots of the scenes [l], added up as doubles
    from 0, shot after shot. *)
Definition runningTotal (l : list DirectedScene) : SpecFloat.spec_float :=
  fold_left (fun total shot => fadd total (toDouble (duration shot)))
    (flat_map shots l) zero.

(** [total] lies within 10% of [target]: it is neither less than
    [target - target * 0.1] nor greater than [target + target * 0.1],
    each computed in doubles. *)
Definition inTolerance (target : Q) (total : SpecFloat.spec_float) : Prop :=
  let t := toDouble target in
  flt total (fsub t (fmul t tenth)) = false /\
  flt (fadd t (fmul t tenth)) total = false.

(** A validation against [target] with no cap on scenes or shots. *)
Definition uncapped (target : Q) : ValidationInput :=
  {| targetDuration := target; aspectRatio := ar_16_9; maxScenes := None;
     maxShotsPerScene := None |}.



(** What the validator has established of every shot before
    normalization. *)
Definition promptsChecked (shot : DirectedShot) : Prop :=
  (20 <= length (splitWs (startPrompt shot)))%nat /\
  (20 <= length (splitWs (endPrompt shot)))%nat /\
  motionPrompt shot <> EmptyString.



End Spec.

Module JobSpec.
Import Js VideoJob.

(** The object as [alarm] leaves it before polling: the alarm that fired
    is cleared and [pollAttempts] is incremented. *)
Definition entered (d : DurableObject) : DurableObject :=
  withPollAttempts (S (pollAttempts d)) (withAlarm false d).

(** The handler of [alarm] past its guards. *)
Definition pollBody (env : Services) (count : nat) : M unit :=
  tryCatch
    (flags <- pollFrom env 0 count (true, false) ;;
     updateProgress ;;
     saveState ;;
     if snd flags
     then
       modify (fun st =>
         setError (Text "One or more videos failed to generate")
           (setStatus failed st)) ;;
       saveState
     else if fst flags
     then
       modify (setStatus videos_complete) ;;
       saveState ;;
       compileVideo env
     else setAlarm)
    (fun _ => setAlarm).

(** The object after [updateProgress] and [saveState], from job state
    [st]. *)
Definition saved (st : VideoJobState) (d : DurableObject) : DurableObject :=
  record (Saved (persisted st)) (withRow (Some (persisted st)) (withState (Some st) d)).

(** The job state after [updateProgress]. *)
Definition progressed (st : VideoJobState) : VideoJobState :=
  setProgress (computeProgress st) st.

(** The job is in neither terminal status. *)
Definition running (st : VideoJobState) : bool :=
  negb (isComplete (job_status st) || isFailed (job_status st)).

(** A shot that [alarm] polls. *)
Definition pollable (s : SceneJobState) : bool :=
  (isPolling (status s) && hasText (videoRequestId s))%bool.

Definition isSceneFailed (v : SceneStatus) : bool :=
  match v with scene_failed => true | _ => false end.

(** Some shot that was polled in this tick is now [failed]. *)
Fixpoint anyTurnedFailed (before after : list SceneJobState) : bool :=
  match before, after with
  | b :: bs, a :: rest =>
      (pollable b && isSceneFailed (status a) || anyTurnedFailed bs rest)%bool
  | _, _ => false
  end.

(** No shot is left to poll. *)
Definition nonePollable (l : list SceneJobState) : bool :=
  forallb (fun s => negb (pollable s)) l.

(** The scenes of the job state of an object. *)
Definition scenesOf (d : DurableObject) : list SceneJobState :=
  match state d with
  | Some st => scenes st
  | None => []
  end.

(** The statuses and progress values that [saveState] has persisted, in
    order. *)
Definition snapshots (d : DurableObject) : list (JobStatus * Z) :=
  omap (fun e => match e with
                 | Saved s => Some (job_status s, progress s)
                 | _ => None
                 end) (log d).

Definition isExternal (e : Event) : bool :=
  match e with Called _ => true | _ => false end.

(** [d'] has all the log of [d], and possibly more. *)
Definition extends (d d' : DurableObject) : Prop :=
  exists more, log d' = log d ++ more.

(** No shot is [failed] in [after] that was not already in [before]. *)
Definition noNewFailure (before after : list SceneJobState) : Prop :=
  forall i s', after !! i = Some s' -> status s' = scene_failed ->
  exists s, before !! i = Some s /\ status s = scene_failed.

(** What a part of the image loop that started in [d], with job state
    [st], has done when it ends in [d'] with result [r]: the job state is
    still there and no shot has been marked failed; the log has only
    grown; and if it threw, the last thing logged is a request for an
    image. *)
Definition imageStep (aspectRatio : AspectRatio) (d : DurableObject)
  (st : VideoJobState) (r : Outcome unit) (d' : DurableObject) : Prop :=
  (exists st', state d' = Some st' /\ noNewFailure (scenes st) (scenes st')) /\
  extends d d' /\
  forall t, r = Throw t ->
    exists earlier prompt,
      log d' = log d ++ earlier ++ [Called (GenerateImage prompt aspectRatio)].

(** The job is [complete] with the video of the render: the last thing
    the object did was to ask Creatomate for the status of the render
    whose id it had stored, the answer was a render that [succeeded], and
    the url of that render is now the final video url of the job, saved
    with progress 100. *)
Definition rendered (env : Services) (d : DurableObject) (st : VideoJobState)
  : Prop :=
  job_status st = complete /\ progress st = 100%Z /\
  exists earlier renderId render url,
    log d = earlier ++ [Called (CheckRenderStatus renderId); Saved (persisted st)] /\
    config_renderId d = Some renderId /\
    creatomate_checkRenderStatus env (length earlier) renderId = Ok render /\
    render_status render = succeeded /\
    render_url render = Some url /\ url <> EmptyString /\
    finalVideoUrl st = Some url.

Definition renderedOrFailed (env : Services) (d : DurableObject)
  (st : VideoJobState) : Prop :=
  job_status st = failed \/ rendered env d st.

End JobSpec.

Module ApiSpec.
Import Js Api.

(** The string has no colon, as a UUID of [crypto.randomUUID()]. *)
Fixpoint noColon (s : string) : bool :=
  match s with
  | EmptyString => true
  | String c r => (negb (Ascii.eqb c ":") && noColon r)%bool
  end.



(** Every job reference in the KV namespace lies under the id of the
    owner of the job. *)
Definition namespaced (env : Env) (owners : gmap string string) : Prop :=
  forall user jobId v,
    noColon user = true ->
    CACHE env !! jobKey user jobId = Some v ->
    owners !! jobId = Some user.

End ApiSpec.

(* ===================================================================== *)
(** * Concrete inputs                                                     *)
(* ===================================================================== *)

Module Samples.
Import Js Parser.

Definition forestPrompt : string :=
  "Wide establishing shot of a dense pine forest at dawn, low mist between the trunks, soft golden light, cinematic, photorealistic, 4K resolution".

Definition canopyPrompt : string :=
  "Aerial view just above the pine canopy at dawn, the sun breaking over distant ridges, long shadows, warm haze, cinematic, photorealistic, 4K resolution".

(** A raw shot as the LLM returns it. *)
Definition rawShot (id : Z) (duration : Q) (motion : string) : Value :=
  JObj [("id", JNum (inject_Z id)); ("duration", JNum duration);
        ("startPrompt", JStr forestPrompt); ("endPrompt", JStr canopyPrompt);
        ("motionPrompt", JStr motion); ("cameraMove", JStr "crane_up");
        ("lighting", JStr "soft golden dawn light")]%string.

Definition rawScene (id : Z) (l : list Value) : Value :=
  JObj [("id", JNum (inject_Z id)); ("name", JStr "Ascent");
        ("description", JStr "The drone rises out of the forest");
        ("mood", JStr "serene"); ("shots", JArr l)]%string.

Definition rawDirection (total : Q) (l : list Value) : Value :=
  JObj [("title", JStr "Dawn Ascent");
        ("narrative", JStr "A drone ascent over a pine forest at dawn");
        ("totalDuration", JNum total); ("scenes", JArr l)]%string.

(** Three shots of ten seconds, each with a three-word [motionPrompt]. *)
Definition rawDrone : Value :=
  rawDirection 30
    [rawScene 1 [rawShot 1 10 "Slow crane up"; rawShot 2 10 "Slow crane up";
                 rawShot 3 10 "Slow crane up"]].

Definition input30 : ValidationInput :=
  {| targetDuration := 30; aspectRatio := ar_16_9; maxScenes := None;
     maxShotsPerScene := None |}.

(** One scene of two shots whose [motionPrompt] is the one of the
    example of src/director/README.md. *)
Definition rawForge : Value :=
  rawDirection 10
    [rawScene 1 [rawShot 1 5 "Slow push in towards the forge...";
                 rawShot 2 5 "Slow push in towards the forge..."]].

Definition input10 : ValidationInput :=
  {| targetDuration := 10; aspectRatio := ar_16_9; maxScenes := Some 5%Q;
     maxShotsPerScene := Some 4%Q |}.

(** A shot whose [startPrompt] has two words. *)
Definition terseShot : Value :=
  JObj [("id", JNum 1); ("duration", JNum 10);
        ("startPrompt", JStr "A forest"); ("endPrompt", JStr canopyPrompt);
        ("motionPrompt", JStr "Slow crane up"); ("cameraMove", JStr "crane_up");
        ("lighting", JStr "soft golden dawn light")]%string.

Definition rawTerse : Value := rawDirection 10 [rawScene 1 [terseShot]].


(** Eighteen words between a leading and a trailing space. *)
Definition paddedPrompt : string :=
  " Wide establishing shot of a dense pine forest at dawn, low mist between the trunks, soft golden light ".



(** The twenty words of a prompt, separated by em spaces (U+2003) and by
    ideographic spaces (U+3000). *)
Definition emSpacedPrompt : string :=
  String.concat (char 8195 ++ char 12288)
    ["Wide"; "establishing"; "shot"; "of"; "a"; "dense"; "pine"; "forest";
     "at"; "dawn,"; "low"; "mist"; "between"; "the"; "trunks,"; "soft";
     "golden"; "light,"; "cinematic,"; "photorealistic"]%string.

Definition rawEmSpaced : Value :=
  rawDirection 10
    [rawScene 1
       [JObj [("id", JNum 1); ("duration", JNum 10);
              ("startPrompt", JStr emSpacedPrompt); ("endPrompt", JStr emSpacedPrompt);
              ("motionPrompt", JStr "Slow crane up");
              ("cameraMove", JStr "crane_up");
              ("lighting", JStr "soft golden dawn light")]%string]].

(** Durations of 5.6, 5.6, 5.6 and 5.7 s, as the doubles that these
    literals denote, for a target of 25 s. *)
Definition rawEdge : Value :=
  rawDirection 25
    [rawScene 1 [rawShot 1 (valueOf (toDouble (56 # 10))) "Slow crane up";
                 rawShot 2 (valueOf (toDouble (56 # 10))) "Slow crane up";
                 rawShot 3 (valueOf (toDouble (56 # 10))) "Slow crane up";
                 rawShot 4 (valueOf (toDouble (57 # 10))) "Slow crane up"]].

Definition input25 : ValidationInput :=
  {| targetDuration := 25; aspectRatio := ar_16_9; maxScenes := None;
     maxShotsPerScene := None |}.

(** Four scenes of one shot of 7.5 s each. *)
Definition rawFour : Value :=
  rawDirection 30
    (map (fun i => rawScene (Z.of_nat i) [rawShot 1 (15 # 2) "Slow crane up"])
       (seq 1 4)).

Definition rawPadded : Value :=
  rawDirection 10
    [rawScene 1
       [JObj [("id", JNum 1); ("duration", JNum 10);
              ("startPrompt", JStr paddedPrompt); ("endPrompt", JStr canopyPrompt);
              ("motionPrompt", JStr "Slow crane up");
              ("cameraMove", JStr "crane_up");
              ("lighting", JStr "soft golden dawn light")]%string]].

Definition emptyDirection : VideoDirection :=
  {| title := EmptyString; narrative := EmptyString; totalDuration := 0;
     scenes := []; direction_extra := [] |}.

Definition planDrone : VideoDirection :=
  Eval vm_compute in
    match parseDirection rawDrone input30 with
    | Ok plan => plan
    | Throw _ => emptyDirection
    end.


(** A prior plan of one scene and the answers of an LLM that returns
    [rawDrone] whatever it is asked. *)
Definition priorPlan : VideoDirection :=
  {| title := "Dawn"; narrative := "A forest at dawn"; totalDuration := 30;
     scenes := scenes planDrone; direction_extra := [] |}.

Definition droneLLM : Director.LLM :=
  {| Director.json_direct := fun _ => Ok rawDrone;
     Director.json_refine := fun _ _ => Ok rawDrone |}.

(** An LLM that answers a refinement with the four scenes of [rawFour]. *)
Definition fourLLM : Director.LLM :=
  {| Director.json_direct := fun _ => Ok rawFour;
     Director.json_refine := fun _ _ => Ok rawFour |}.

End Samples.

Module JobSamples.
Import Js VideoJob.

(** Scene [i] of a project; its prompts carry its number. *)
Definition scene (i : nat) : Scene :=
  {| id := Z.of_nat i; name := "Scene";
     startPrompt := "start of scene " +:+ pretty i;
     endPrompt := "end of scene " +:+ pretty i;
     motionPrompt := "motion " +:+ pretty i; duration := 5 |}.

Definition scenesUpTo (n : nat) : list Scene := map scene (seq 1 n).

Definition aRender (v : RenderStatus) (url : option string) : Render :=
  {| render_id := "render-1"; render_status := v; render_url := url;
     error_message := None |}.

(** Services that answer an image request with [image], accept every
    video request (naming it after its motion prompt), answer a status
    check with [check], deliver every video, and answer a compilation
    with [compile] and a render check with [rendered]. *)
Definition servicesWith (image : string -> Outcome (list string))
  (check : string -> Outcome QueueStatus)
  (compile : Outcome (option Render)) (rendered : Outcome Render) : Services :=
  {| fal_generateImage := fun _ prompt _ => image prompt;
     fal_submitVideoGeneration :=
       fun _ prompt _ _ _ _ => Ok ("request for " +:+ prompt);
     fal_checkVideoStatus := fun _ requestId => check requestId;
     fal_getVideoResult := fun _ requestId => Ok ("video-of-" +:+ requestId);
     creatomate_compileVideo := fun _ _ _ => compile;
     creatomate_checkRenderStatus := fun _ _ => rendered;
     now := fun _ => "2025-01-01T00:00:00.000Z";
     sqlNoRow := Error EngineText |}.

Definition everyImage (prompt : string) : Outcome (list string) :=
  Ok ["image-of-" +:+ prompt].

Definition compiled : Outcome (option Render) := Ok (Some (aRender planned None)).

Definition rendered : Outcome Render :=
  Ok (aRender succeeded (Some "https://cdn.example/final.mp4")).

(** Every video completes. *)
Definition allDone : Services :=
  servicesWith everyImage (fun _ => Ok COMPLETED) compiled rendered.

(** Every video is still being generated. *)
Definition allRunning : Services :=
  servicesWith everyImage (fun _ => Ok IN_PROGRESS) compiled rendered.

(** A job of [n] scenes, initialized and started with [env]. *)
Definition startedWith (env : Services) (n : nat) : DurableObject :=
  snd ((initialize env "job-1" "project-1" (scenesUpTo n) ;;
        startGeneration env (scenesUpTo n) ar_16_9) fresh).

Definition started (n : nat) : DurableObject := startedWith allDone n.

(** The video of shot 2 fails, every other video completes. *)
Definition shot2Fails : Services :=
  servicesWith everyImage
    (fun requestId =>
       if String.eqb requestId "request for motion 2" then Ok FAILED
       else Ok COMPLETED)
    compiled rendered.

(** Every video completes, and the compilation service refuses the
    request, as it does for a job that has no Creatomate key. *)
Definition noCompiler : Services :=
  servicesWith everyImage (fun _ => Ok COMPLETED)
    (Throw (Error (Text "Creatomate API error: 401 - Unauthorized")))
    rendered.

(** The request for the start image of scene 2 fails, with the message
    of [FalService]; every other image is generated. *)
Definition badImage : Services :=
  servicesWith
    (fun prompt =>
       if String.eqb prompt "start of scene 2"
       then Throw (Error (Text "Flux API error: 400 - Bad Request"))
       else everyImage prompt)
    (fun _ => Ok COMPLETED) compiled rendered.

Definition initialized (n : nat) : DurableObject :=
  snd (initialize allDone "job-1" "project-1" (scenesUpTo n) fresh).

Definition emptyJob : VideoJobState :=
  {| job_id := EmptyString; projectId := EmptyString; job_status := pending;
     scenes := []; finalVideoUrl := None; progress := 0; job_error := None;
     createdAt := EmptyString; updatedAt := EmptyString |}.

Definition jobStateOf (d : DurableObject) : VideoJobState :=
  default emptyJob (state d).

Definition tick (env : Services) (d : DurableObject) : DurableObject :=
  snd (alarm env d).

(** A job of three shots whose videos have been requested, and its
    state. *)
Definition started3 : DurableObject := Eval vm_compute in started 3.

Definition state3 : VideoJobState := Eval vm_compute in jobStateOf started3.

(** The same job after the poll loop of a tick in which shot 2 fails,
    and after the one of a tick in which every video completes. *)
Definition polledShot2Fails : DurableObject :=
  Eval vm_compute in
    snd (pollFrom shot2Fails 0 3 (true, false) (JobSpec.entered started3)).

Definition polledAllDone : DurableObject :=
  Eval vm_compute in
    snd (pollFrom noCompiler 0 3 (true, false) (JobSpec.entered started3)).

(** The same job after 40 ticks in which every video is still running. *)
Definition after40 : DurableObject :=
  Eval vm_compute in Nat.iter 40 (tick allRunning) started3.

Definition state40 : VideoJobState := Eval vm_compute in jobStateOf after40.

(** A job of three shots, initialized, and its state; the same job
    after an image loop in which the start image of scene 2 fails. *)
Definition initialized3 : DurableObject := Eval vm_compute in initialized 3.

Definition stateInitialized3 : VideoJobState :=
  Eval vm_compute in jobStateOf initialized3.

Definition imagesAborted : DurableObject :=
  Eval vm_compute in
    snd (forEach (generateImagesFor badImage ar_16_9) (scenesUpTo 3) initialized3).

End JobSamples.

Module ApiSamples.
Import Js Api.

Definition alice : AuthContext :=
  {| userId := "7d1c9a50-0c1e-4a4b-9d7e-2f1f6a0b8c11";
     email := "alice@example.com" |}.

Definition bob : AuthContext :=
  {| userId := "c2b8e3f4-5a6d-4e7f-8091-a2b3c4d5e6f7";
     email := "bob@example.com" |}.

Definition projectUuid : string := "0b9f6c1e-3d2a-4c5b-8e7f-112233445566".

Definition jobUuid : string := "5e4d3c2b-1a09-4f8e-9d7c-665544332211".

(** The platform during a request in which [crypto.randomUUID()] returns
    [uuid]. *)
Definition platform (uuid : string) : Platform :=
  {| generateId := uuid; nowIso := "2025-01-01T00:00:00.000Z";
     services := JobSamples.allDone; HAMZA_LABS_SCENES := [] |}.

Definition emptyEnv : Env := {| CACHE := ∅; VIDEO_JOB := ∅ |}.

(** Bob creates a project of two scenes ... *)
Definition bobCreates : Route :=
  PostProjects "Forest" (JobSamples.scenesUpTo 2) None.

Definition afterCreate : Env :=
  snd (fst (handleRequest (platform projectUuid) (Some bob) bobCreates emptyEnv)).

(** ... and starts a job for it. *)
Definition afterGenerate : Env :=
  snd (fst (handleRequest (platform jobUuid) (Some bob)
              (PostGenerate projectUuid) afterCreate)).


End ApiSamples.

(* ===================================================================== *)
(** * Further predicates on strings and plans                            *)
(* ===================================================================== *)

Module TextSpec.
Import Js Parser.

(** The last item is no white space. *)
Definition cleanEnd (l : list Item) : Prop :=
  match last l with
  | Some (Space _) => False
  | _ => True
  end.

(** A string that does not end with white space. *)
Definition endsClean (s : string) : Prop := cleanEnd (scan s).

(** White space at neither end. *)
Definition trimmed (s : string) : Prop := Spec.startsClean s /\ endsClean s.

(** The string fields of a shot and of a scene that [normalizeDirection]
    trims. *)
Definition shotTexts (shot : DirectedShot) : list string :=
  [startPrompt shot; endPrompt shot; motionPrompt shot; lighting shot]
  ++ match colorPalette shot with JStr s => [s] | _ => [] end.

Definition sceneTexts (scene : DirectedScene) : list string :=
  [name scene; description scene; mood scene]
  ++ flat_map shotTexts (shots scene).

Definition directionTexts (x : VideoDirection) : list string :=
  [title x; narrative x] ++ flat_map sceneTexts (scenes x).

(** The pieces of [s.split(/\s+/)] are all words: none is empty. *)
Definition allWords (s : string) : Prop :=
  Forall (fun piece => piece <> EmptyString) (splitWs s).

End TextSpec.

Module PlanSpec.
Import Js Parser.

(** A cap as the validator reads it: [input.maxScenes && ...] skips the
    check for a cap of zero as for an absent one. *)
Definition effectiveCap (cap : option Q) : option Q :=
  match cap with
  | Some m => if Qeq_bool m 0 then None else Some m
  | None => None
  end.

Definition effectiveInput (input : ValidationInput) : ValidationInput :=
  {| targetDuration := targetDuration input;
     aspectRatio := aspectRatio input;
     maxScenes := effectiveCap (maxScenes input);
     maxShotsPerScene := effectiveCap (maxShotsPerScene input) |}.

(** [n] is within the cap. *)
Definition withinCap (n : nat) (cap : option Q) : Prop :=
  match effectiveCap cap with
  | Some m => (inject_Z (Z.of_nat n) <= m)%Q
  | None => True
  end.

(** What [normalizeShot] leaves of the shot [x] in [y], at index [j]. *)
Definition shotKept (j : nat) (x y : DirectedShot) : Prop :=
  shot_id y = inject_Z (Z.of_nat j + 1) /\
  cameraMove y = cameraMove x /\
  shot_extra y = shot_extra x /\
  (truthy (transitionOut x) = true -> transitionOut y = transitionOut x) /\
  (truthy (transitionOut x) = false -> transitionOut y = JStr "cut").

Definition sceneKept (i : nat) (x y : DirectedScene) : Prop :=
  scene_id y = inject_Z (Z.of_nat i + 1) /\
  scene_extra y = scene_extra x /\
  length (shots y) = length (shots x) /\
  forall j hx, shots x !! j = Some hx ->
    exists hy, shots y !! j = Some hy /\ shotKept j hx hy.

(** A direction whose ids run backwards and whose texts are padded. *)
Definition untidyShot (id : Q) : DirectedShot :=
  {| shot_id := id; duration := 161 # 32;
     startPrompt := "  a forge at night "; endPrompt := " the same forge at dawn";
     motionPrompt := "slow push in  "; cameraMove := "push_in";
     lighting := " warm firelight "; colorPalette := JStr " amber, black ";
     transitionOut := JUndefined;
     shot_extra := [("notes"%string, JStr "keep the anvil in frame")] |}.

Definition untidy : VideoDirection :=
  {| title := " Forge "; narrative := " A night at the forge ";
     totalDuration := 3;
     scenes := [ {| scene_id := 7; name := " Night "; description := " The forge ";
                    mood := " tense "; shots := [untidyShot 9; untidyShot 4];
                    scene_extra := [] |} ];
     direction_extra := [] |}.

(** A direction whose texts are padded with white space beyond ASCII: an
    em space (U+2003), a no-break space (U+00A0), a byte order mark
    (U+FEFF), a line separator (U+2028), an ideographic space (U+3000),
    an ogham space mark (U+1680), a narrow no-break space (U+202F) and a
    medium mathematical space (U+205F). *)
Definition paddedShot : DirectedShot :=
  {| shot_id := 1; duration := 5;
     startPrompt := char 8195 ++ "a forge at night" ++ char 160;
     endPrompt := char 65279 ++ "the same forge at dawn" ++ char 8232;
     motionPrompt := "slow push in" ++ char 12288;
     cameraMove := "push_in";
     lighting := char 5760 ++ "warm firelight";
     colorPalette := JStr (char 8239 ++ "amber, black" ++ char 8287);
     transitionOut := JUndefined; shot_extra := [] |}.

Definition padded : VideoDirection :=
  {| title := char 8195 ++ "Forge" ++ char 8195;
     narrative := char 160 ++ "A night at the forge";
     totalDuration := 5;
     scenes := [ {| scene_id := 1; name := "Night" ++ char 8233;
                    description := char 12288 ++ "The forge";
                    mood := char 8202 ++ "tense" ++ char 8192;
                    shots := [paddedShot]; scene_extra := [] |} ];
     direction_extra := [] |}.

Definition unpadded : VideoDirection :=
  Eval vm_compute in
    match normalizeDirection padded with
    | Ok y => y
    | Throw _ => padded
    end.

Definition tidy : VideoDirection :=
  Eval vm_compute in
    match normalizeDirection untidy with
    | Ok y => y
    | Throw _ => untidy
    end.

End PlanSpec.

Module DirectorSpec.
Import Js Parser Director.




(** The message of the [SyntaxError] with which [response.json()] fails
    on a body that is not JSON. *)
Definition badJson : Message := Text "Unexpected token < in JSON at position 0".

(** An LLM provider whose response is not JSON. *)
Definition garbledLLM : LLM :=
  {| json_direct := fun _ => Throw (SyntaxError badJson);
     json_refine := fun _ _ => Throw (SyntaxError badJson) |}.

(** An LLM whose answer has a scene without shots. *)
Definition hollowLLM : LLM :=
  {| json_direct := fun _ =>
       Ok (Samples.rawDirection 10 [Samples.rawScene 1 []]);
     json_refine := fun _ _ =>
       Ok (Samples.rawDirection 10 [Samples.rawScene 1 []]) |}.

Definition request10 : DirectorInput :=
  {| concept := "A night at the forge"; style := None;
     in_targetDuration := 10; in_aspectRatio := ar_16_9;
     constraints := None |}.


End DirectorSpec.

(* ===================================================================== *)
(** * Assertions about a durable object and the effects of VideoJob       *)
(* ===================================================================== *)

Module JobLogic.
Import Js VideoJob.

(** [m], started in an object that satisfies [P], leaves an object that
    satisfies [Q a] when it returns [a] and [E t] when it throws [t]. *)
Definition triple {A : Type} (P : DurableObject -> Prop) (m : M A)
  (Q : A -> DurableObject -> Prop) (E : Thrown -> DurableObject -> Prop) : Prop :=
  forall d, P d ->
    match m d with
    | (Ok a, d') => Q a d'
    | (Throw t, d') => E t d'
    end.

(** [m] keeps [I], whether it returns or throws. *)
Definition keeps {A : Type} (I : DurableObject -> Prop) (m : M A) : Prop :=
  triple I m (fun _ => I) (fun _ => I).

(** [m] never throws. *)
Definition returns {A : Type} (m : M A) : Prop :=
  forall d, exists a, fst (m d) = Ok a.

(** What the methods of VideoJob do to the object, one statement at a
    time. *)
Inductive Effect : Type :=
| Assign (f : VideoJobState -> VideoJobState)
| Persist
| Reload
| Request (c : Call)
| ArmAlarm
| ClearAlarm
| CountPoll
| ResetPolls
| Configure (l : list Scene) (aspectRatio : AspectRatio)
| NoteRender (renderId : string).

Definition effect (e : Effect) (d : DurableObject) : DurableObject :=
  match e with
  | Assign f => withState (option_map f (state d)) d
  | Persist =>
      match state d with
      | Some st => record (Saved (persisted st)) (withRow (Some (persisted st)) d)
      | None => d
      end
  | Reload =>
      match state d with
      | Some _ => d
      | None => withState (job_state_row d) d
      end
  | Request c => record (Called c) d
  | ArmAlarm => record (AlarmSet POLL_INTERVAL_MS) (withAlarm true d)
  | ClearAlarm => withAlarm false d
  | CountPoll => withPollAttempts (S (pollAttempts d)) d
  | ResetPolls => withPollAttempts 0 d
  | Configure l aspectRatio => withConfig l aspectRatio d
  | NoteRender renderId => withRenderId renderId d
  end.

(** [I] survives every effect of [allowed]. *)
Definition closed (allowed : Effect -> Prop) (I : DurableObject -> Prop) : Prop :=
  forall e d, allowed e -> I d -> I (effect e d).

(** The assignments that VideoJob makes to a [SceneJobState]. *)
Inductive SceneEdit : (SceneJobState -> SceneJobState) -> Prop :=
| edit_sceneStatus (v : SceneStatus) : SceneEdit (setSceneStatus v)
| edit_startImageUrl (v : string) : SceneEdit (setStartImageUrl v)
| edit_endImageUrl (v : string) : SceneEdit (setEndImageUrl v)
| edit_videoRequestId (v : string) : SceneEdit (setVideoRequestId v)
| edit_videoUrl (v : string) : SceneEdit (setVideoUrl v)
| edit_sceneError (v : Message) : SceneEdit (setSceneError v).

(** The effects of the poll loop of [alarm] and of the submission loop
    of [startVideoGeneration]: assignments to one scene state, and
    requests. *)
Inductive Polls : Effect -> Prop :=
| polls_scene (i : nat) (g : SceneJobState -> SceneJobState) :
    SceneEdit g -> Polls (Assign (fun st => setScenes (alter g i (scenes st)) st))
| polls_request (c : Call) : Polls (Request c).

(** The effects of the image loop, which also updates the progress and
    saves. *)
Inductive Generates : Effect -> Prop :=
| generates_polls (e : Effect) : Polls e -> Generates e
| generates_progress :
    Generates (Assign (fun st => setProgress (computeProgress st) st))
| generates_save : Generates Persist.

(** The effects of [compileVideo] and of [alarm] past its guards.  The
    assignments are grouped as the code makes them: [failed] is set
    together with an error, [complete] together with the final video and
    full progress. *)
Inductive Works : Effect -> Prop :=
| works_generates (e : Effect) : Generates e -> Works e
| works_status (v : JobStatus) :
    v <> failed -> v <> complete -> Works (Assign (setStatus v))
| works_sort :
    Works (Assign (fun st => setScenes (sortBySceneId (scenes st)) st))
| works_fail (m : Message) :
    Works (Assign (fun st => setError m (setStatus failed st)))
| works_complete (u : option string) :
    hasText u = true ->
    Works (Assign (fun st =>
             setProgress 100
               (setStatus complete
                  (setFinalVideoUrl (default EmptyString u) st))))
| works_armAlarm : Works ArmAlarm
| works_noteRender (renderId : string) : Works (NoteRender renderId).

(** The effects of the public methods of VideoJob. *)
Inductive Performs : Effect -> Prop :=
| performs_works (e : Effect) : Works e -> Performs e
| performs_updatedAt (v : string) : Performs (Assign (setUpdatedAt v))
| performs_load : Performs Reload
| performs_clearAlarm : Performs ClearAlarm
| performs_countPoll : Performs CountPoll
| performs_resetPolls : Performs ResetPolls
| performs_configure (l : list Scene) (aspectRatio : AspectRatio) :
    Performs (Configure l aspectRatio).

(** A property of job states that the assignments of VideoJob and the
    round trip through storage keep. *)
Definition stable (J : VideoJobState -> Prop) : Prop :=
  (forall f st, Performs (Assign f) -> J st -> J (f st)) /\
  (forall st, J st -> J (persisted st)).

(** [J] holds of the job state in memory and of the stored one. *)
Definition sound (J : VideoJobState -> Prop) (d : DurableObject) : Prop :=
  (forall st, state d = Some st -> J st) /\
  (forall st, job_state_row d = Some st -> J st).

(** The job state is in memory. *)
Definition loaded (d : DurableObject) : Prop := exists st, state d = Some st.

(** The job state is in memory and has status [v]. *)
Definition inStatus (v : JobStatus) (d : DurableObject) : Prop :=
  exists st, state d = Some st /\ job_status st = v.

(** The job state has been stored. *)
Definition stored (d : DurableObject) : Prop :=
  exists st, job_state_row d = Some st.

(** The job state of an object: the one in memory or, when there is
    none, the stored one. *)
Definition current (d : DurableObject) : option VideoJobState :=
  match state d with
  | Some st => Some st
  | None => job_state_row d
  end.

(** The platform evicts the object from memory: the private fields of the
    class are lost, the storage and the alarm stay. *)
Definition evict (d : DurableObject) : DurableObject :=
  withPollAttempts 0 (withState None d).

(** The life of the durable object of a job, from its initialization by
    the router: requests to start, alarms, reads of the state and
    evictions, in any number and order, whatever the services answer. *)
Inductive lifecycle (jobId projectId : string) (l : list Scene)
  : DurableObject -> Prop :=
| life_initialize (env : Services) :
    lifecycle jobId projectId l (snd (initialize env jobId projectId l fresh))
| life_start (env : Services) (l' : list Scene) (aspectRatio : AspectRatio)
    (d : DurableObject) :
    lifecycle jobId projectId l d ->
    lifecycle jobId projectId l (snd (startGeneration env l' aspectRatio d))
| life_alarm (env : Services) (d : DurableObject) :
    lifecycle jobId projectId l d ->
    lifecycle jobId projectId l (snd (alarm env d))
| life_getState (d : DurableObject) :
    lifecycle jobId projectId l d ->
    lifecycle jobId projectId l (snd (loadState d))
| life_evict (d : DurableObject) :
    lifecycle jobId projectId l d ->
    lifecycle jobId projectId l (evict d).

(** The job is the one that was initialized: its id, its project and the
    ids of its scenes. *)
Definition sameJob (jobId projectId : string) (ids : list Z)
  (st : VideoJobState) : Prop :=
  job_id st = jobId /\ VideoJob.projectId st = projectId /\
  map sceneId (scenes st) ≡ₚ ids.

(** The progress is a percentage, and a [complete] job has its final
    video and full progress. *)
Definition progressSound (st : VideoJobState) : Prop :=
  (0 <= progress st <= 100)%Z /\
  (job_status st = complete ->
   hasText (finalVideoUrl st) = true /\ progress st = 100%Z).

(** Where a handler leaves a job: in a terminal status, or with an alarm
    armed for the next poll. *)
Definition settled (d : DurableObject) : Prop :=
  exists st, state d = Some st /\
    (job_status st = complete \/ job_status st = failed \/ alarmArmed d = true).

(** Where [startGeneration] leaves a job: what is stored is what is in
    memory, and the job is [failed] with an error, or its videos are
    being generated and the first poll is scheduled. *)
Definition launched (d : DurableObject) : Prop :=
  exists st, state d = Some st /\ job_state_row d = Some (persisted st) /\
    ((job_status st = failed /\ job_error st <> None) \/
     (job_status st = generating_videos /\ alarmArmed d = true /\
      pollAttempts d = 0%nat)).

(** Since [d0], the object has made requests and assignments to its
    scenes, and nothing else: the job-level fields, the stored row, the
    alarm and the poll counter are those of [d0], and the log has grown
    by requests only. *)
Definition polledSince (d0 d : DurableObject) : Prop :=
  job_state_row d = job_state_row d0 /\
  alarmArmed d = alarmArmed d0 /\
  pollAttempts d = pollAttempts d0 /\
  (exists more, log d = log d0 ++ more /\
                forallb JobSpec.isExternal more = true) /\
  match state d0 with
  | Some st0 =>
      exists st, state d = Some st /\
        job_status st = job_status st0 /\ progress st = progress st0 /\
        job_error st = job_error st0 /\ finalVideoUrl st = finalVideoUrl st0 /\
        length (scenes st) = length (scenes st0)
  | None => state d = None
  end.

(** The job is in memory and in a terminal status. *)
Definition ended (d : DurableObject) : Prop :=
  exists st, state d = Some st /\ JobSpec.running st = false.

(** A run of alarms, one after the other, each with its own answers of
    the services; the object stays in memory in between. *)
Definition ticks (envs : list Services) (d : DurableObject) : DurableObject :=
  fold_left (fun d env => snd (alarm env d)) envs d.

End JobLogic.

(* ===================================================================== *)
(** * The HTTP interface of the durable object                            *)
(* ===================================================================== *)

Module JobHttp.
Import Js VideoJob.

(** The requests that [VideoJob.fetch] tells apart, with the body that
    the router sends; [Unrouted] is any other path or method. *)
Inductive Request : Type :=
| GetState
| PostInitialize (jobId projectId : string) (scenes : list Scene)
| PostStart (scenes : list Scene) (aspectRatio : AspectRatio)
| Unrouted.

Inductive Body : Type :=
| StateJson (st : option VideoJobState)
| SuccessJson
| ErrorJson (message : Message)
| NotFoundText.

Record ObjectResponse : Type := {
  code : nat;
  body : Body
}.

Definition getState : M (option VideoJobState) := loadState.

(** [try { return Response.json(...) } catch (error) { ... 500 }] *)
Definition respond {A : Type} (m : M A) (ok : A -> Body) (d : DurableObject)
  : ObjectResponse * DurableObject :=
  match m d with
  | (Ok a, d') => ({| code := 200; body := ok a |}, d')
  | (Throw t, d') =>
      ({| code := 500; body := ErrorJson (messageOr "Unknown error" t) |}, d')
  end.

Definition fetch (env : Services) (request : Request) (d : DurableObject)
  : ObjectResponse * DurableObject :=
  match request with
  | GetState => respond getState StateJson d
  | PostInitialize jobId projectId scenes =>
      respond (initialize env jobId projectId scenes)
        (fun st => StateJson (Some st)) d
  | PostStart scenes aspectRatio =>
      respond (startGeneration env scenes aspectRatio) (fun _ => SuccessJson) d
  | Unrouted => ({| code := 404; body := NotFoundText |}, d)
  end.

End JobHttp.

Module JobMoreSpec.
Import Js VideoJob JobSamples JobLogic.

(** ** The table [job_state]

    The table has [id] as its primary key.  [INSERT OR REPLACE] removes
    the row that has the id of the new row, if there is one, and adds the
    new row; [SELECT * FROM job_state LIMIT 1] reads the first row of the
    table.  An object that has saved the states of one job only has at
    most one row, which is the row of [job_state_row]. *)
Definition insertOrReplace (row : VideoJobState) (table : list VideoJobState)
  : list VideoJobState :=
  List.filter (fun r => negb (String.eqb (job_id r) (job_id row))) table ++ [row].

Definition selectOne (table : list VideoJobState) : option VideoJobState :=
  head table.

Definition tableOf (d : DurableObject) : list VideoJobState :=
  match job_state_row d with
  | Some row => [row]
  | None => []
  end.

(** The object stores no row of another job than the one of [st]. *)
Definition ownRow (st : VideoJobState) (d : DurableObject) : bool :=
  match job_state_row d with
  | Some row => String.eqb (job_id row) (job_id st)
  | None => true
  end.

(** A render that is neither finished nor failed; a render that has
    [succeeded] without a url counts as not finished. *)
Definition stillRendering (r : Render) : bool :=
  (negb (renderSucceeded (render_status r) && hasText (render_url r))
   && negb (renderFailed (render_status r)))%bool.

(** The scene states are in ascending order of [sceneId]. *)
Definition ascending (l : list SceneJobState) : Prop :=
  forall i j a b, (i < j)%nat -> l !! i = Some a -> l !! j = Some b ->
  (sceneId a <= sceneId b)%Z.

(** The optional texts of a job state are absent or non-empty, as
    [saveState] stores them. *)
Definition canonical (st : VideoJobState) : Prop :=
  persisted st = st.

(** fal.ai is unreachable when a video is checked. *)
Definition unreachable : Services :=
  servicesWith everyImage
    (fun _ => Throw (Error (Text "fetch failed"))) compiled rendered.

(** The render never finishes. *)
Definition stalled : Services :=
  servicesWith everyImage (fun _ => Ok COMPLETED) compiled
    (Ok (aRender rendering None)).

(** A job of two scenes: initialized, started, evicted, and polled
    once. *)
Definition jobOfTwo : DurableObject :=
  snd (alarm allRunning
         (evict (snd (startGeneration allDone (scenesUpTo 2) ar_16_9
                        (snd (initialize allDone "job-1" "project-1"
                                (scenesUpTo 2) fresh)))))).

(** A job whose scenes are stored in the order 3, 1, 2, with their
    videos. *)
Definition sceneDone (i : Z) : SceneJobState :=
  {| sceneId := i; startImageUrl := Some "s"; endImageUrl := Some "e";
     videoRequestId := Some "r"; videoUrl := Some ("video-" +:+ pretty i);
     status := scene_complete; error := None |}.

Definition shuffled : DurableObject :=
  let d := snd (initialize allDone "job-1" "project-1" [] fresh) in
  withConfig [] ar_9_16
    (withState
       (Some (setScenes [sceneDone 3; sceneDone 1; sceneDone 2] (jobStateOf d)))
       d).

(** A job of three scenes none of which has a video. *)
Definition noVideos : DurableObject := initialized3.

End JobMoreSpec.

(* ===================================================================== *)
(** * CreatomateService.compileVideo: the timeline of a render request    *)
(* ===================================================================== *)

Module Creatomate.
Import Js.

(** The [options] of [compileVideo]; [None] is an absent property. *)
Record CompileOptions : Type := {
  audioUrl : option string;
  aspectRatio : option VideoJob.AspectRatio;
  transitionDuration : option Q;
  transitionType : option string;
  finalHoldDuration : option Q
}.

Inductive ElementType : Type := video | audio.

Record Transition : Type := {
  transition_type : string;
  transition_duration : Q
}.

(** [interface CreatomateElement] *)
Record Element : Type := {
  el_type : ElementType;
  source : string;
  track : Z;
  time : Q;
  el_duration : Q;
  transition : option Transition;
  volume : option Q;
  audio_fade_in : option Q;
  audio_fade_out : option Q
}.

(** [interface CreatomateSource], with the output format 'mp4'. *)
Record Source : Type := {
  width : Z;
  height : Z;
  frame_rate : Z;
  elements : list Element
}.

Definition getDimensions (a : VideoJob.AspectRatio) : Z * Z :=
  match a with
  | VideoJob.ar_16_9 => (1920, 1080)
  | VideoJob.ar_9_16 => (1080, 1920)
  | VideoJob.ar_1_1 => (1080, 1080)
  end%Z.

(** [const videoDuration = 5] *)
Definition videoDuration : Q := 5.

(** The [for] loop over [videoUrls] from index [i] on, with [n] urls in
    all; it returns the elements it pushes and the final
    [currentTime]. *)
Fixpoint videoElements (n : nat) (kind : string) (overlap hold : Q)
  (i : nat) (currentTime : Q) (videoUrls : list string) : list Element * Q :=
  match videoUrls with
  | [] => ([], currentTime)
  | url :: rest =>
      let isLast := Nat.eqb i (n - 1) in
      let videoElement :=
        {| el_type := video; source := url; track := 1; time := currentTime;
           el_duration := if isLast then (videoDuration + hold)%Q else videoDuration;
           transition :=
             if Nat.ltb 0 i
             then Some {| transition_type := kind; transition_duration := overlap |}
             else None;
           volume := None; audio_fade_in := None; audio_fade_out := None |} in
      let next :=
        (currentTime + (videoDuration - (if Nat.ltb i (n - 1) then overlap else 0)))%Q in
      let r := videoElements n kind overlap hold (S i) next rest in
      (videoElement :: fst r, snd r)
  end.

(** The source of the render request that [compileVideo] posts. *)
Definition renderSource (videoUrls : list string) (options : CompileOptions)
  : Source :=
  let overlap := default (1 # 2) (transitionDuration options) in
  let kind := default "crossfade"%string (transitionType options) in
  let hold := default 3%Q (finalHoldDuration options) in
  let dimensions := getDimensions (default VideoJob.ar_16_9 (aspectRatio options)) in
  let r := videoElements (length videoUrls) kind overlap hold 0 0 videoUrls in
  let currentTime := snd r in
  {| width := fst dimensions; height := snd dimensions; frame_rate := 30;
     elements :=
       fst r ++
       (if VideoJob.hasText (audioUrl options)
        then [ {| el_type := audio;
                  source := default EmptyString (audioUrl options);
                  track := 2; time := 0;
                  el_duration := (currentTime + hold)%Q;
                  transition := None; volume := Some (8 # 10);
                  audio_fade_in := Some (1 # 2);
                  audio_fade_out := Some (3 # 2) |} ]
        else []) |}.

(** The options with which [VideoJob.compileVideo] calls the service. *)
Definition jobOptions (a : VideoJob.AspectRatio) : CompileOptions :=
  {| audioUrl := None; aspectRatio := Some a;
     transitionDuration := Some (1 # 2);
     transitionType := Some "crossfade"%string;
     finalHoldDuration := Some 3%Q |}.

(** The length of the timeline: the end of its last video element. *)
Definition timelineEnd (l : list Element) : Q :=
  match last l with
  | Some e => (time e + el_duration e)%Q
  | None => 0
  end.

End Creatomate.

(* ===================================================================== *)
(** * The worker's router: reading a project back                         *)
(* ===================================================================== *)

Module ApiMore.
Import Js Api.

(** What [GET /api/projects/{id}] answers.  The route parses whatever
    text it finds under the key and returns it as the project. *)
Inductive ProjectAnswer : Type :=
| Project200 (p : Project)
| JobRef200 (projectId jobId : string)
| ParseOf (text : string)
| NotFound404
| Unauthorized401
| NoRoute404.

(** The route after authentication.  [ParseOf text] stands for the answer
    that [JSON.parse(text)] decides for a bare text: 200 with its value,
    or 500 when it throws. *)
Definition getProject (user projectId : string) (env : Env) : ProjectAnswer :=
  let projectData := CACHE env !! projectKey user projectId in
  if negb (truthyStored projectData) then NotFound404
  else match projectData with
       | Some (StoredProject project) => Project200 project
       | Some (StoredJobRef projectId jobId) => JobRef200 projectId jobId
       | Some (StoredJobId text) => ParseOf text
       | None => NotFound404
       end.

(** [GET /api/projects/{id}] as [handleRequest] routes it: the path must
    match [/api/projects/[\w-]+], and the request must be
    authenticated.  The route changes nothing. *)
Definition getProjectRoute (auth : option AuthContext) (projectId : string)
  (env : Env) : ProjectAnswer :=
  if isWord projectId
  then match auth with
       | None => Unauthorized401
       | Some a => getProject (userId a) projectId env
       end
  else NoRoute404.

(** The path of the request matches the pattern of its route. *)
Definition routed (route : Route) : bool :=
  match route with
  | PostProjects _ _ _ | PostTemplateCreate => true
  | PostGenerate projectId | GetProjectJob projectId => isWord projectId
  | GetJob jobId => isWord jobId
  end.

(** The key lies in the part of the KV namespace that belongs to
    [user]. *)
Definition underUser (user key : string) : Prop :=
  exists rest, key = "user:" +:+ user +:+ ":" +:+ rest.

(** The environment after a request. *)
Definition after (pf : Platform) (auth : option AuthContext) (route : Route)
  (env : Env) : Env :=
  snd (fst (handleRequest pf auth route env)).

Definition answer (pf : Platform) (auth : option AuthContext) (route : Route)
  (env : Env) : Response :=
  fst (fst (handleRequest pf auth route env)).

(** The platform during a request in which [crypto.randomUUID()] returns
    [uuid] and the image service is failing. *)
Definition failingPlatform (uuid : string) : Platform :=
  {| generateId := uuid; nowIso := "2025-01-01T00:00:00.000Z";
     services := JobSamples.badImage; HAMZA_LABS_SCENES := [] |}.

(** The project that bob has created. *)
Definition bobsProject : Project :=
  Eval vm_compute in
    match CACHE ApiSamples.afterCreate
          !! projectKey (userId ApiSamples.bob) ApiSamples.projectUuid with
    | Some (StoredProject p) => p
    | _ => {| project_id := EmptyString; project_name := EmptyString;
              project_scenes := []; project_aspectRatio := VideoJob.ar_16_9;
              project_createdAt := EmptyString; project_updatedAt := EmptyString |}
    end.

End ApiMore.

(* ===================================================================== *)
(** * Facts about strings and numbers                                     *)
(* ===================================================================== *)

Module JsFacts.
Import Js.

#[local] Arguments append !_ _ / : simpl nomatch.

(** ** The items of a string *)

Lemma scan_step (s : string) :
  scan s = match step s with
           | Some (x, r) => x :: scan r
           | None => []
           end.
Proof.
  destruct s as [|a [|b [|c r]]]; cbn [step]; [reflexivity| | |].
  - cbn [scan]. destruct (isWhiteSpace [a]); reflexivity.
  - change (scan (String a (String b EmptyString)))
      with (if isWhiteSpace [a]
            then Space (String a EmptyString) :: scan (String b EmptyString)
            else if isWhiteSpace [a; b]
                 then Space (String a (String b EmptyString)) :: scan EmptyString
                 else Other a :: scan (String b EmptyString)).
    destruct (isWhiteSpace [a]); [reflexivity|].
    destruct (isWhiteSpace [a; b]); reflexivity.
  - change (scan (String a (String b (String c r))))
      with (if isWhiteSpace [a]
            then Space (String a EmptyString) :: scan (String b (String c r))
            else if isWhiteSpace [a; b]
                 then Space (String a (String b EmptyString)) :: scan (String c r)
                 else if isWhiteSpace [a; b; c]
                      then Space (String a (String b (String c EmptyString))) :: scan r
                      else Other a :: scan (String b (String c r))).
    destruct (isWhiteSpace [a]); [reflexivity|].
    destruct (isWhiteSpace [a; b]); [reflexivity|].
    destruct (isWhiteSpace [a; b; c]); reflexivity.
Qed.

Lemma step_text (s : string) (x : Item) (r : string) :
  step s = Some (x, r) -> s = (bytesOf x ++ r)%string.
Proof.
  destruct s as [|a [|b [|c r3]]]; cbn [step]; [discriminate| | |];
    repeat match goal with
    | |- context [if ?b then _ else _] => destruct b
    end;
    intros [= <- <-]; reflexivity.
Qed.

Lemma step_shorter (s : string) (x : Item) (r : string) :
  step s = Some (x, r) -> (String.length r < String.length s)%nat.
Proof.
  destruct s as [|a [|b [|c r3]]]; cbn [step]; [discriminate| | |];
    repeat match goal with
    | |- context [if ?b then _ else _] => destruct b
    end;
    intros [= <- <-]; cbn [String.length]; lia.
Qed.

Lemma step_cons (a : ascii) (r : string) : step (String a r) <> None.
Proof.
  destruct r as [|b [|c r3]]; cbn [step];
    repeat match goal with
    | |- context [if ?b then _ else _] => destruct b
    end; discriminate.
Qed.

(** Induction along the items of a string. *)
Lemma scan_ind (P : string -> Prop) :
  P EmptyString ->
  (forall s x r, step s = Some (x, r) -> P r -> P s) ->
  forall s, P s.
Proof.
  intros H0 Hs s.
  assert (G : forall n s, (String.length s < n)%nat -> P s).
  { induction n as [|n IH]; intros s' L; [lia|].
    destruct (step s') as [[x r]|] eqn:E.
    - apply (Hs s' x r E). apply IH.
      pose proof (step_shorter _ _ _ E). lia.
    - destruct s' as [|a r]; [exact H0|]. exfalso. exact (step_cons a r E). }
  exact (G (S (String.length s)) s (Nat.lt_succ_diag_r _)).
Qed.

Lemma text_scan (s : string) : text (scan s) = s.
Proof.
  induction s as [|s x r E IH] using scan_ind; [reflexivity|].
  rewrite scan_step, E. cbn [text]. rewrite IH. symmetry. exact (step_text _ _ _ E).
Qed.

Lemma append_inv_head (p a b : string) : (p ++ a)%string = (p ++ b)%string -> a = b.
Proof.
  induction p as [|c p IH]; cbn [append]; [exact id|].
  intros [= H]. exact (IH H).
Qed.

Lemma append_assoc (a b c : string) : (a ++ (b ++ c))%string = ((a ++ b) ++ c)%string.
Proof. induction a as [|x a IH]; cbn [append]; [reflexivity|]. rewrite IH. reflexivity. Qed.

Lemma length_append (a b : string) :
  String.length (a ++ b) = (String.length a + String.length b)%nat.
Proof. induction a as [|x a IH]; cbn [append String.length]; [reflexivity|]. rewrite IH. reflexivity. Qed.

Lemma text_app (l l' : list Item) : text (l ++ l') = (text l ++ text l')%string.
Proof.
  induction l as [|x l IH]; cbn [text app]; [reflexivity|].
  rewrite IH. apply append_assoc.
Qed.

Lemma step_Space_append (s : string) (t r v : string) :
  step s = Some (Space t, r) -> step (s ++ v) = Some (Space t, (r ++ v)%string).
Proof.
  destruct s as [|a [|b [|c r3]]]; cbn [step append]; [discriminate| | |].
  - destruct (isWhiteSpace [a]); intros [= <- <-]; reflexivity.
  - destruct (isWhiteSpace [a]); [intros [= <- <-]; reflexivity|].
    destruct (isWhiteSpace [a; b]); intros [= <- <-]. reflexivity.
  - destruct (isWhiteSpace [a]); [intros [= <- <-]; reflexivity|].
    destruct (isWhiteSpace [a; b]); [intros [= <- <-]; reflexivity|].
    destruct (isWhiteSpace [a; b; c]); intros [= <- <-]. reflexivity.
Qed.

Lemma step_Other (c : ascii) (r : string) :
  beginsWithSpace (String c r) = false -> step (String c r) = Some (Other c, r).
Proof.
  unfold beginsWithSpace.
  destruct r as [|b [|c' r3]]; cbn [step];
    repeat match goal with
    | |- context [if ?b then _ else _] => destruct b
    end; (discriminate || reflexivity).
Qed.

Lemma beginsWithSpace_append (u v : string) :
  beginsWithSpace (u ++ v) = false -> beginsWithSpace u = false.
Proof.
  unfold beginsWithSpace. destruct (step u) as [[[t|c] r]|] eqn:E; try reflexivity.
  rewrite (step_Space_append _ _ _ v E). discriminate.
Qed.

(** A white-space character that begins a string is one by itself. *)
Lemma step_Space_self (s : string) (t r : string) :
  step s = Some (Space t, r) -> step t = Some (Space t, EmptyString).
Proof.
  destruct s as [|a [|b [|c r3]]]; cbn [step]; [discriminate| | |].
  - destruct (isWhiteSpace [a]) eqn:A; intros [= <- <-]. cbn [step]. rewrite A. reflexivity.
  - destruct (isWhiteSpace [a]) eqn:A; [intros [= <- <-]; cbn [step]; rewrite A; reflexivity|].
    destruct (isWhiteSpace [a; b]) eqn:B; intros [= <- <-].
    cbn [step]. rewrite A, B. reflexivity.
  - destruct (isWhiteSpace [a]) eqn:A; [intros [= <- <-]; cbn [step]; rewrite A; reflexivity|].
    destruct (isWhiteSpace [a; b]) eqn:B;
      [intros [= <- <-]; cbn [step]; rewrite A, B; reflexivity|].
    destruct (isWhiteSpace [a; b; c]) eqn:C; intros [= <- <-].
    cbn [step]. rewrite A, B, C. reflexivity.
Qed.

(** The first step of a string that begins with the bytes of [x] on a
    shorter string that still has them. *)
Lemma step_truncate (x : Item) (u v : string) :
  step (bytesOf x ++ u ++ v) = Some (x, (u ++ v)%string) ->
  step (bytesOf x ++ u) = Some (x, u).
Proof.
  destruct x as [t|c]; cbn [bytesOf].
  - intros H. apply step_Space_self in H.
    exact (step_Space_append _ _ _ u H).
  - cbn [append]. intros H. apply step_Other.
    apply (beginsWithSpace_append _ v). unfold beginsWithSpace.
    change (String c u ++ v)%string with (String c (u ++ v)). rewrite H. reflexivity.
Qed.

Lemma scanned_scan (s : string) : scanned (scan s).
Proof. unfold scanned. rewrite text_scan. reflexivity. Qed.

Lemma scanned_step (x : Item) (l : list Item) :
  scanned (x :: l) -> step (bytesOf x ++ text l) = Some (x, text l) /\ scanned l.
Proof.
  unfold scanned. cbn [text]. rewrite scan_step.
  destruct (step (bytesOf x ++ text l)) as [[x' r]|] eqn:E; [|discriminate].
  intros [= -> Hr]. apply step_text, append_inv_head in E. subst r. auto.
Qed.

Lemma scanned_tail (x : Item) (l : list Item) : scanned (x :: l) -> scanned l.
Proof. intros H. exact (proj2 (scanned_step x l H)). Qed.

Lemma scanned_init (l : list Item) (x : Item) : scanned (l ++ [x]) -> scanned l.
Proof.
  induction l as [|y l IH]; [reflexivity|].
  cbn [app]. intros H. destruct (scanned_step _ _ H) as [E T].
  specialize (IH T). unfold scanned. cbn [text]. rewrite scan_step.
  rewrite text_app in E. rewrite (step_truncate _ _ _ E), IH. reflexivity.
Qed.

Lemma scanned_prefix (p w : list Item) : scanned (p ++ w) -> scanned p.
Proof.
  induction w as [|x w IH] using rev_ind; [rewrite app_nil_r; exact id|].
  rewrite app_assoc. intros H. exact (IH (scanned_init _ _ H)).
Qed.

(** ** trim *)

Lemma dropStart_scanned (l : list Item) : scanned l -> scanned (dropStart l).
Proof.
  induction l as [|[t|c] l IH]; cbn [dropStart]; try exact id.
  intros H. exact (IH (scanned_tail _ _ H)).
Qed.

Lemma dropEnd_prefix (l : list Item) : exists w, l = dropEnd l ++ w.
Proof.
  induction l as [|x l [w IH]]; cbn [dropEnd]; [exists []; reflexivity|].
  destruct (dropEnd l) as [|y l'] eqn:E.
  - destruct (isSpace x).
    + exists (x :: l). reflexivity.
    + exists w. cbn [app] in *. congruence.
  - exists w. cbn [app] in *. congruence.
Qed.

Lemma dropEnd_scanned (l : list Item) : scanned l -> scanned (dropEnd l).
Proof.
  intros H. destruct (dropEnd_prefix l) as [w E]. rewrite E in H.
  exact (scanned_prefix _ _ H).
Qed.

Lemma scan_trimStart (s : string) : scan (trimStart s) = dropStart (scan s).
Proof. apply dropStart_scanned, scanned_scan. Qed.

Lemma scan_trimEnd (s : string) : scan (trimEnd s) = dropEnd (scan s).
Proof. apply dropEnd_scanned, scanned_scan. Qed.

Lemma scan_trim (s : string) : scan (trim s) = dropEnd (dropStart (scan s)).
Proof. unfold trim. rewrite scan_trimEnd, scan_trimStart. reflexivity. Qed.

Lemma dropStart_idempotent (l : list Item) : dropStart (dropStart l) = dropStart l.
Proof. induction l as [|[t|c] l IH]; cbn [dropStart]; auto. Qed.


Lemma dropStart_clean (l : list Item) : Spec.cleanStart (dropStart l).
Proof. induction l as [|[t|c] l IH]; cbn [dropStart]; auto; exact I. Qed.


Lemma dropEnd_clean (l : list Item) : Spec.cleanStart l -> Spec.cleanStart (dropEnd l).
Proof.
  destruct l as [|[t|c] l]; cbn [dropEnd Spec.cleanStart]; [exact id|contradiction|].
  intros _. destruct (dropEnd l); exact I.
Qed.

Lemma trimStart_idempotent (s : string) : trimStart (trimStart s) = trimStart s.
Proof.
  unfold trimStart at 1. rewrite scan_trimStart, dropStart_idempotent. reflexivity.
Qed.






(** Each of the 25 white-space characters is one item of white space,
    and the characters next to the class are none: the next line control
    (U+0085), the Mongolian vowel separator (U+180E), the zero width
    space (U+200B) and the word joiner (U+2060). *)
Example white_space_class :
  forallb (fun n => match scan (char n) with
                    | [Space _] => true
                    | _ => false
                    end) whiteSpace = true /\
  forallb (fun n => forallb (fun x => negb (isSpace x)) (scan (char n)))
    [133; 6158; 8203; 8288]%N = true.
Proof. vm_compute. split; reflexivity. Qed.

(** White space of every kind separates words and is trimmed: here an em
    space (U+2003), a no-break space (U+00A0), an ideographic space
    (U+3000) and a byte order mark (U+FEFF). *)
Example unicode_white_space :
  splitWs ("wide" ++ char 8195 ++ "shot" ++ char 160 ++ char 12288 ++ "at dawn")
  = ["wide"; "shot"; "at"; "dawn"]%string /\
  trim (char 65279 ++ " wide shot" ++ char 8195 ++ char 10) = "wide shot"%string.
Proof. vm_compute. split; reflexivity. Qed.

Lemma Qlt_bool_false (a b : Q) : Qlt_bool a b = false -> (b <= a)%Q.
Proof.
  unfold Qlt_bool. intros H. apply Qle_bool_iff.
  destruct (Qle_bool b a); [reflexivity|discriminate].
Qed.

Lemma Qlt_bool_true (a b : Q) : Qlt_bool a b = true -> (a < b)%Q.
Proof.
  unfold Qlt_bool. intros H. apply Qnot_le_lt. intros L.
  apply Qle_bool_iff in L. rewrite L in H. discriminate.
Qed.



Lemma round_bounds (x : Q) (a b : Z) :
  (inject_Z a <= x)%Q -> (x <= inject_Z b)%Q -> (a <= round x <= b)%Z.
Proof.
  intros La Lb. unfold round. split.
  - rewrite <- (Qfloor_Z a). apply Qfloor_resp_le.
    apply Qle_trans with x; [exact La|].
    rewrite <- (Qplus_0_r x) at 1. apply Qplus_le_r. discriminate.
  - apply Z.lt_succ_r. rewrite Zlt_Qlt.
    apply Qle_lt_trans with (x + (1 # 2))%Q; [apply Qfloor_le|].
    apply Qle_lt_trans with (inject_Z b + (1 # 2))%Q.
    + apply Qplus_le_l. exact Lb.
    + unfold Z.succ. rewrite inject_Z_plus. apply Qplus_lt_r. reflexivity.
Qed.


End JsFacts.

(* ===================================================================== *)
(** * Facts about the parser                                              *)
(* ===================================================================== *)

Module ParserFacts.
Import Js Parser Spec JsFacts.

Lemma nonEmptyString_Some (v : Value) (s : string) :
  nonEmptyString v = Some s -> v = JStr s /\ s <> EmptyString.
Proof.
  destruct v; simpl; try discriminate.
  destruct (String.eqb s0 EmptyString) eqn:E; [discriminate|].
  intros [= <-]. split; [reflexivity|]. apply String.eqb_neq. exact E.
Qed.

Lemma includes_true (l : list string) (v : Value) :
  includes l v = true -> exists s, v = JStr s /\ In s l.
Proof.
  destruct v; simpl; try discriminate. intros H.
  exists s. split; [reflexivity|].
  apply existsb_exists in H as (x & Hx & E).
  apply String.eqb_eq in E. subst x. exact Hx.
Qed.

Lemma durationInRange_Some (v : Value) (d : Q) :
  durationInRange v = Some d -> v = JNum d /\ (5 <= d)%Q /\ (d <= 10)%Q.
Proof.
  destruct v; simpl; try discriminate.
  destruct (Qlt_bool q 5) eqn:A; [discriminate|].
  destruct (Qlt_bool 10 q) eqn:B; [discriminate|].
  simpl. intros [= <-].
  auto using Qlt_bool_false.
Qed.

Lemma get_throws (k : string) (v : Value) (t : Thrown) :
  get k v = Throw t -> t = TypeError.
Proof. destruct v; simpl; congruence. Qed.

(** One step of the inversion of a successful validation. *)
Ltac invert_ok H :=
  repeat match type of H with
  | bind ?m _ = Ok _ =>
      let E := fresh "E" in destruct m eqn:E; cbn [bind] in H; [|discriminate H]
  | (if ?b then _ else _) = Ok _ =>
      let E := fresh "E" in destruct b eqn:E; [discriminate H|]
  | match ?x with Some _ => _ | None => _ end = Ok _ =>
      let E := fresh "E" in destruct x eqn:E; [|discriminate H]
  end.

(** What [validateShot] has checked of the raw shot it accepts. *)
Lemma validateShot_Ok (sceneId : Value) (j : nat) (raw : Value)
  (shot : DirectedShot) :
  validateShot sceneId j raw = Ok shot ->
  stringAt "startPrompt" raw = Some (startPrompt shot) /\
  stringAt "endPrompt" raw = Some (endPrompt shot) /\
  stringAt "motionPrompt" raw = Some (motionPrompt shot) /\
  promptsChecked shot /\
  In (cameraMove shot) validCameraMoves /\
  (5 <= duration shot)%Q /\ (duration shot <= 10)%Q /\
  (truthy (transitionOut shot) = true ->
   includes validTransitions (transitionOut shot) = true).
Proof.
  unfold validateShot. intros H. cbv zeta in H.
  invert_ok H.
  injection H as <-.
  repeat match goal with
  | E : nonEmptyString _ = Some _ |- _ =>
      apply nonEmptyString_Some in E as [-> ?]
  | E : durationInRange _ = Some _ |- _ =>
      apply durationInRange_Some in E as (-> & ? & ?)
  | E : (_ <? 20) = false |- _ => apply Nat.ltb_ge in E
  | E : negb (includes validCameraMoves _) = false |- _ =>
      apply negb_false_iff, includes_true in E as (? & -> & ?)
  end.
  unfold stringAt, promptsChecked.
  cbn [startPrompt endPrompt motionPrompt cameraMove duration transitionOut].
  repeat match goal with
  | E : get _ raw = Ok _ |- _ => rewrite E; clear E
  end.
  cbn [nonEmptyString].
  repeat match goal with
  | N : ?s <> EmptyString |- context [String.eqb ?s EmptyString] =>
      rewrite (proj2 (String.eqb_neq s EmptyString) N)
  end.
  repeat split; try assumption.
  intros T.
  match goal with
  | E : (truthy _ && negb _)%bool = false |- _ =>
      rewrite T in E; simpl in E; apply negb_false_iff in E; exact E
  end.
Qed.

(** The running total after the shots [l], from [total]. *)
Lemma validateShots_Ok (sceneId : Value) (l : list Value) :
  forall (j : nat) (total : SpecFloat.spec_float)
    (r : list DirectedShot * SpecFloat.spec_float),
  validateShots sceneId j l total = Ok r ->
  Forall2 (fun raw shot => exists k, validateShot sceneId k raw = Ok shot) l (fst r) /\
  snd r = fold_left (fun sum shot => fadd sum (toDouble (duration shot))) (fst r) total.
Proof.
  induction l as [|raw rest IH]; intros j total r H; simpl in H.
  - injection H as <-. split; [constructor|reflexivity].
  - destruct (validateShot sceneId j raw) as [shot|] eqn:E; [|discriminate H].
    simpl in H.
    destruct (validateShots sceneId (S j) rest (fadd total (toDouble (duration shot))))
      as [r'|] eqn:E'; [|discriminate H].
    simpl in H. injection H as <-. simpl.
    apply IH in E' as [F T]. split.
    + constructor; [exists j; exact E|exact F].
    + exact T.
Qed.

Lemma validateScene_Ok (input : ValidationInput) (i : nat) (raw : Value)
  (total : SpecFloat.spec_float) (r : DirectedScene * SpecFloat.spec_float) :
  validateScene input i raw total = Ok r ->
  rawShots raw <> [] /\
  exists j r', validateShots (JNum (scene_id (fst r))) j (rawShots raw) total = Ok r' /\
               shots (fst r) = fst r' /\ snd r = snd r'.
Proof.
  unfold validateScene. intros H. cbv zeta in H.
  invert_ok H.
  unfold rawShots.
  match goal with E : get "shots" raw = Ok _ |- _ => rewrite E end.
  match type of H with
  | match ?x with _ => _ end = _ => destruct x as [| | | | |[|first more]|]; try discriminate H
  end.
  invert_ok H.
  match type of H with
  | match ?x with _ => _ end = _ => destruct x eqn:Ex; [discriminate H|]
  end.
  invert_ok H. injection H as <-. simpl.
  split; [discriminate|].
  match goal with
  | E : negb (strictEqNum ?a _) = false |- _ =>
      destruct a; try discriminate E
  end.
  eauto.
Qed.

Lemma validateScenes_Ok (input : ValidationInput) (l : list Value) :
  forall (i : nat) (total : SpecFloat.spec_float)
    (r : list DirectedScene * SpecFloat.spec_float),
  validateScenes input i l total = Ok r ->
  Forall2 (fun raw scene =>
             rawShots raw <> [] /\
             Forall2 (fun rawShot shot =>
                        exists sid k, validateShot sid k rawShot = Ok shot)
               (rawShots raw) (shots scene)) l (fst r) /\
  snd r = fold_left (fun sum shot => fadd sum (toDouble (duration shot)))
            (flat_map shots (fst r)) total.
Proof.
  induction l as [|raw rest IH]; intros i total r H; simpl in H.
  - injection H as <-. split; [constructor|reflexivity].
  - destruct (validateScene input i raw total) as [s|] eqn:E; [|discriminate H].
    simpl in H.
    destruct (validateScenes input (S i) rest (snd s)) as [r'|] eqn:E';
      [|discriminate H].
    simpl in H. injection H as <-. simpl.
    apply IH in E' as [F T].
    apply validateScene_Ok in E as (N & j & rs & V & Es & Et).
    apply validateShots_Ok in V as [Fs Ts].
    split.
    + constructor; [|exact F]. split; [exact N|].
      rewrite Es. eapply Forall2_impl; [exact Fs|].
      intros x y [k Hk]. eauto.
    + rewrite T, Et, Ts, Es. cbn [flat_map]. rewrite fold_left_app. reflexivity.
Qed.

Lemma validateDirection_Ok (raw : Value) (input : ValidationInput)
  (v : VideoDirection) :
  validateDirection raw input = Ok v ->
  rawScenes raw <> [] /\
  exceeds (length (rawScenes raw)) (maxScenes input) = None /\
  exists total,
    validateScenes input 0 (rawScenes raw) zero = Ok (scenes v, total) /\
    totalDuration v = valueOf total /\
    inTolerance (targetDuration input) total.
Proof.
  unfold validateDirection. intros H. cbv zeta in H.
  invert_ok H.
  unfold rawScenes.
  match goal with E : get "scenes" raw = Ok _ |- _ => rewrite E end.
  match type of H with
  | match ?x with _ => _ end = _ => destruct x as [| | | | |[|first more]|]; try discriminate H
  end.
  match type of H with
  | match ?x with _ => _ end = _ => destruct x eqn:Ex; [discriminate H|]
  end.
  invert_ok H. injection H as <-. simpl.
  match goal with
  | E : (_ || _)%bool = false |- _ => apply orb_false_iff in E as [A B]
  end.
  split; [discriminate|]. split; [reflexivity|].
  match goal with
  | E : validateScenes _ _ _ _ = Ok ?r |- _ => exists (snd r); destruct r
  end.
  split; [reflexivity|]. split; [reflexivity|]. split; assumption.
Qed.

(** The total that the validator has added up is the running total of
    the shots it returns. *)
Lemma validated_total (raw : Value) (input : ValidationInput)
  (v : VideoDirection) (total : SpecFloat.spec_float) :
  validateScenes input 0 (rawScenes raw) zero = Ok (scenes v, total) ->
  total = runningTotal (scenes v).
Proof.
  intros H. apply validateScenes_Ok in H as [_ T]. exact T.
Qed.

(** ** What the validator throws *)

Ltac classify_throw :=
  repeat match goal with
  | |- context [bind ?m _] =>
      let E := fresh "E" in destruct m eqn:E; cbn [bind]
  | |- context [if ?b then _ else _] => destruct b
  | |- context [match ?x with Some _ => _ | None => _ end] => destruct x
  end;
  let H := fresh "H" in
  intros H; try discriminate H; injection H as <-;
  solve [ left; eapply get_throws; eassumption
        | right; eauto
        | assumption ].

Lemma validateShot_throws (sceneId : Value) (j : nat) (raw : Value) (t : Thrown) :
  validateShot sceneId j raw = Throw t -> rejection t.
Proof. unfold validateShot, rejection. cbv zeta. classify_throw. Qed.

Lemma validateShots_throws (sceneId : Value) (l : list Value) :
  forall (j : nat) (total : SpecFloat.spec_float) (t : Thrown),
  validateShots sceneId j l total = Throw t -> rejection t.
Proof.
  induction l as [|raw rest IH]; intros j total t; simpl; [discriminate|].
  destruct (validateShot sceneId j raw) as [s|t0] eqn:E; cbn [bind].
  - destruct (validateShots sceneId (S j) rest (fadd total (toDouble (duration s))))
      eqn:E'; cbn [bind]; [discriminate|]. intros [= <-]. eauto.
  - intros [= <-]. eauto using validateShot_throws.
Qed.

Lemma validateScene_throws (input : ValidationInput) (i : nat) (raw : Value)
  (total : SpecFloat.spec_float) (t : Thrown) :
  validateScene input i raw total = Throw t -> rejection t.
Proof.
  unfold validateScene. cbv zeta.
  repeat match goal with
  | |- context [bind (get ?k raw) _] =>
      let E := fresh "E" in destruct (get k raw) eqn:E; cbn [bind];
      [|intros [= <-]; left; eapply get_throws; eassumption]
  | |- context [if ?b then _ else _] =>
      destruct b; [intros [= <-]; right; eauto|]
  | |- context [match nonEmptyString ?x with _ => _ end] =>
      destruct (nonEmptyString x); [|intros [= <-]; right; eauto]
  end.
  match goal with
  | |- match ?x with _ => _ end = _ -> _ =>
      destruct x as [| | | | |[|first more]|]; try (intros [= <-]; right; eauto)
  end.
  destruct (exceeds _ _); [intros [= <-]; right; eauto|].
  match goal with
  | |- bind ?m _ = _ -> _ => destruct m eqn:E'; cbn [bind]; [discriminate|]
  end.
  intros [= <-]. eauto using validateShots_throws.
Qed.

Lemma validateScenes_throws (input : ValidationInput) (l : list Value) :
  forall (i : nat) (total : SpecFloat.spec_float) (t : Thrown),
  validateScenes input i l total = Throw t -> rejection t.
Proof.
  induction l as [|raw rest IH]; intros i total t; simpl; [discriminate|].
  destruct (validateScene input i raw total) as [s|t0] eqn:E; cbn [bind].
  - destruct (validateScenes input (S i) rest (snd s)) eqn:E';
      cbn [bind]; [discriminate|]. intros [= <-]. eauto.
  - intros [= <-]. eauto using validateScene_throws.
Qed.

Lemma validateDirection_throws (raw : Value) (input : ValidationInput) (t : Thrown) :
  validateDirection raw input = Throw t -> rejection t.
Proof.
  unfold validateDirection. cbv zeta.
  repeat match goal with
  | |- context [bind (get ?k raw) _] =>
      let E := fresh "E" in destruct (get k raw) eqn:E; cbn [bind];
      [|intros [= <-]; left; eapply get_throws; eassumption]
  | |- context [if negb ?b then _ else _] =>
      destruct (negb b); [intros [= <-]; right; eauto|]
  | |- context [match nonEmptyString ?x with _ => _ end] =>
      destruct (nonEmptyString x); [|intros [= <-]; right; eauto]
  end.
  match goal with
  | |- match ?x with _ => _ end = _ -> _ =>
      destruct x as [| | | | |[|first more]|]; try (intros [= <-]; right; eauto)
  end.
  destruct (exceeds _ _); [intros [= <-]; right; eauto|].
  match goal with
  | |- bind ?m _ = _ -> _ => destruct m eqn:E'; cbn [bind]
  end.
  - destruct (_ || _)%bool; [intros [= <-]; right; eauto|discriminate].
  - intros [= <-]. eauto using validateScenes_throws.
Qed.

(** ** The normalizer *)

Lemma mapi_lookup {A B : Type} (f : nat -> A -> Outcome B) (l : list A) :
  forall (i : nat) (l' : list B),
  mapi f i l = Ok l' ->
  length l' = length l /\
  forall k y, l' !! k = Some y -> exists x, l !! k = Some x /\ f (i + k)%nat x = Ok y.
Proof.
  induction l as [|x rest IH]; intros i l' H; simpl in H.
  - injection H as <-. split; [reflexivity|]. intros k y Hk. discriminate Hk.
  - destruct (f i x) as [y0|] eqn:E; [|discriminate H]. cbn [bind] in H.
    destruct (mapi f (S i) rest) as [ys|] eqn:E'; [|discriminate H].
    cbn [bind] in H. injection H as <-.
    apply IH in E' as [L K]. split; [simpl; congruence|].
    intros [|k] y Hk; simpl in Hk.
    + injection Hk as <-. exists x. rewrite Nat.add_0_r. auto.
    + apply K in Hk as (x' & Hx & Hf). exists x'. split; [exact Hx|].
      rewrite <- Hf. f_equal. lia.
Qed.



Lemma mapi_throws {A B : Type} (f : nat -> A -> Outcome B) (P : Thrown -> Prop) :
  (forall k x t, f k x = Throw t -> P t) ->
  forall (l : list A) (i : nat) (t : Thrown), mapi f i l = Throw t -> P t.
Proof.
  intros Hf. induction l as [|x rest IH]; intros i t H; simpl in H.
  - discriminate H.
  - destruct (f i x) as [y0|t0] eqn:E; cbn [bind] in H.
    + destruct (mapi f (S i) rest) as [ys|t1] eqn:E'; cbn [bind] in H;
        [discriminate H|]. injection H as <-. eauto.
    + injection H as <-. eauto.
Qed.









Lemma normalizeDirection_throws (x : VideoDirection) (t : Thrown) :
  normalizeDirection x = Throw t -> t = TypeError.
Proof.
  unfold normalizeDirection. intros H.
  destruct (mapi normalizeScene 0 (scenes x)) as [l|t'] eqn:E;
    cbn [bind] in H; [discriminate H|]. injection H as <-.
  revert E. apply (mapi_throws _ (fun t => t = TypeError)). clear. intros k scene t.
  unfold normalizeScene.
  destruct (mapi normalizeShot 0 (shots scene)) as [l|t'] eqn:E;
    cbn [bind]; [discriminate|]. intros [= <-].
  revert E. apply (mapi_throws _ (fun t => t = TypeError)). clear. intros k shot t.
  unfold normalizeShot.
  destruct (colorPalette shot); cbn; congruence.
Qed.

End ParserFacts.
(* ===================================================================== *)
(** * trim and split                                                      *)
(* ===================================================================== *)

Module TextProps.
Import Js Parser Spec TextSpec JsFacts ParserFacts.

Lemma dropEnd_empty (x : Item) (r : list Item) :
  dropEnd (x :: r) = [] -> isSpace x = true /\ dropEnd r = [].
Proof.
  cbn [dropEnd]. destruct (dropEnd r); [|discriminate].
  destruct (isSpace x); [auto|discriminate].
Qed.

Lemma dropEnd_cleanEnd (l : list Item) : cleanEnd (dropEnd l).
Proof.
  unfold cleanEnd. induction l as [|x r IH]; cbn [dropEnd]; [exact I|].
  destruct (dropEnd r) as [|y r'] eqn:E.
  - destruct x as [t|c]; cbn [isSpace]; exact I.
  - rewrite last_cons_cons. exact IH.
Qed.

Lemma trim_trimmed (s : string) : trimmed (trim s).
Proof.
  unfold trimmed, startsClean, endsClean. rewrite scan_trim.
  split; [apply dropEnd_clean, dropStart_clean|apply dropEnd_cleanEnd].
Qed.

(** ** The number of pieces of a split *)

Lemma split_go_length (l : list Item) :
  forall (b : bool) (cur cur' : list ascii),
  length (split_go b cur l) = length (split_go b cur' l).
Proof.
  induction l as [|[t|c] r IH]; intros b cur cur'; cbn [split_go];
    [reflexivity| |apply IH].
  destruct b; [apply IH|]. cbn [length]. reflexivity.
Qed.

Lemma split_after_separator (l : list Item) (cur : list ascii) :
  length (split_go true cur l) = length (split_go false [] (dropStart l)).
Proof.
  induction l as [|[t|c] r IH]; cbn [split_go dropStart];
    [reflexivity|exact IH|apply split_go_length].
Qed.

Lemma split_dropStart (l : list Item) :
  (length (split_go false [] l) <= length (split_go false [] (dropStart l)) + 1)%nat.
Proof.
  destruct l as [|[t|c] r]; cbn [split_go dropStart length]; [lia| |lia].
  rewrite split_after_separator. lia.
Qed.

Lemma split_blank (l : list Item) :
  dropEnd l = [] ->
  forall cur, length (split_go true cur l) = 1%nat /\
              (length (split_go false cur l) <= 2)%nat.
Proof.
  induction l as [|x r IH]; intros E cur; [cbn; lia|].
  apply dropEnd_empty in E as [W E]. destruct x as [t|c]; [|discriminate W].
  cbn [split_go length].
  destruct (IH E cur) as [A _]. destruct (IH E []) as [B _]. lia.
Qed.

Lemma split_go_dropEnd (l : list Item) :
  forall (b : bool) (cur : list ascii),
  (length (split_go b cur l) <= length (split_go b cur (dropEnd l)) + 1)%nat.
Proof.
  induction l as [|x r IH]; intros b cur; [cbn; lia|].
  cbn [dropEnd]. destruct (dropEnd r) as [|y r'] eqn:E.
  - destruct x as [t|c]; cbn [isSpace split_go].
    + destruct (split_blank r E cur) as [A _], (split_blank r E []) as [B _].
      destruct b; cbn [length]; rewrite ?A, ?B; lia.
    + cbn [length]. destruct (split_blank r E (c :: cur)) as [_ A]. lia.
  - rewrite <- E in IH |- *. destruct x as [t|c]; cbn [split_go]; [|apply IH].
    destruct b; [apply IH|]. cbn [length]. specialize (IH true []). lia.
Qed.

(** Trimming removes at most two pieces of a split: the empty ones before
    leading and after trailing white space. *)
Lemma splitWs_trim (s : string) :
  (length (splitWs s) <= length (splitWs (trim s)) + 2)%nat.
Proof.
  unfold splitWs. rewrite scan_trim.
  pose proof (split_dropStart (scan s)) as A.
  pose proof (split_go_dropEnd (dropStart (scan s)) false []) as B.
  lia.
Qed.

(** ** The pieces of a trimmed string *)

Lemma piece_nonempty (cur : list ascii) :
  cur <> [] -> string_of_list_ascii (rev cur) <> EmptyString.
Proof.
  intros N E. apply N.
  apply (f_equal list_ascii_of_string) in E.
  rewrite list_ascii_of_string_of_list_ascii in E. cbn in E.
  apply (f_equal (@rev ascii)) in E. rewrite rev_involutive in E. exact E.
Qed.

Lemma cleanEnd_tail (x : Item) (r : list Item) :
  cleanEnd (x :: r) -> r <> [] -> cleanEnd r.
Proof.
  unfold cleanEnd. destruct r as [|y r]; [congruence|].
  rewrite last_cons_cons. auto.
Qed.

Lemma split_words (l : list Item) :
  cleanEnd l ->
  (forall cur, l <> [] ->
     Forall (fun piece => piece <> EmptyString) (split_go true cur l)) /\
  (forall cur, cur <> [] ->
     Forall (fun piece => piece <> EmptyString) (split_go false cur l)).
Proof.
  induction l as [|x r IH]; intros C.
  - split; [intros cur N; congruence|].
    intros cur N. cbn. constructor; [apply piece_nonempty, N|constructor].
  - assert (Cr : cleanEnd r).
    { destruct r; [exact I|apply (cleanEnd_tail x); [exact C|discriminate]]. }
    destruct (IH Cr) as [A B].
    destruct x as [t|c]; cbn [split_go].
    + assert (W : r <> []) by (intros ->; exact C).
      split; intros cur N; [apply A, W|].
      constructor; [apply piece_nonempty, N|]. apply A, W.
    + split; intros cur N; apply B; discriminate.
Qed.

(** A non-empty string with white space at neither end splits into
    words. *)
Lemma trimmed_allWords (s : string) :
  trimmed s -> s <> EmptyString -> allWords s.
Proof.
  unfold trimmed, startsClean, endsClean, allWords, splitWs. intros [S E] N.
  destruct (scan s) as [|x r] eqn:Sc.
  - exfalso. apply N. rewrite <- (text_scan s), Sc. reflexivity.
  - destruct x as [t|c]; [contradiction|]. cbn [split_go].
    assert (Cr : cleanEnd r).
    { destruct r; [exact I|apply (cleanEnd_tail (Other c)); [exact E|discriminate]]. }
    apply (split_words r Cr). discriminate.
Qed.

End TextProps.

(* ===================================================================== *)
(** * Properties of the Director                                          *)
(* ===================================================================== *)

Module DirectorProps.
Import Js Parser Director Spec JsFacts ParserFacts TextProps Samples.

Lemma Qlt_bool_inject (a b : Z) :
  Qlt_bool (inject_Z a) (inject_Z b) = (a <? b)%Z.
Proof.
  unfold Qlt_bool, Qle_bool, inject_Z. simpl. rewrite !Z.mul_1_r.
  rewrite Z.ltb_antisym. reflexivity.
Qed.

(** [validateScenes] reads the scene cap of its input nowhere. *)
Lemma validateScenes_cap (a b : ValidationInput) :
  maxShotsPerScene a = maxShotsPerScene b ->
  forall l i total, validateScenes a i l total = validateScenes b i l total.
Proof.
  intros E. induction l as [|x rest IH]; intros i total; simpl; [reflexivity|].
  assert (S : validateScene a i x total = validateScene b i x total).
  { unfold validateScene. rewrite E. reflexivity. }
  rewrite S. destruct (validateScene b i x total); cbn [bind]; [|reflexivity].
  rewrite IH. reflexivity.
Qed.

Lemma validated_length (raw : Value) (input : ValidationInput) (v : VideoDirection) :
  validateDirection raw input = Ok v -> length (scenes v) = length (rawScenes raw).
Proof.
  intros H. apply validateDirection_Ok in H as (_ & _ & total & H & _).
  apply validateScenes_Ok in H as [F _]. simpl in F.
  symmetry. exact (Forall2_length _ _ _ F).
Qed.

(** Adding a scene cap to a validation that succeeds without one: the
    same result when the cap is not exceeded, the scene-count error
    otherwise. *)
Lemma validateDirection_with_cap (raw : Value) (T : Q) (ar ar' : AspectRatio)
  (perScene : option Q) (cap : Q) (v : VideoDirection) :
  validateDirection raw
    {| targetDuration := T; aspectRatio := ar; maxScenes := None;
       maxShotsPerScene := perScene |} = Ok v ->
  validateDirection raw
    {| targetDuration := T; aspectRatio := ar'; maxScenes := Some cap;
       maxShotsPerScene := perScene |}
  = match exceeds (length (scenes v)) (Some cap) with
    | None => Ok v
    | Some m => Throw (ValidationError (TooManyScenes (length (scenes v)) m)
                         (Some "scenes"%string) None None)
    end.
Proof.
  intros H. pose proof (validated_length _ _ _ H) as L.
  revert H. unfold validateDirection. cbv zeta. cbn [targetDuration maxScenes].
  intros H. unfold rawScenes in L.
  repeat match type of H with
  | bind ?m _ = Ok _ =>
      let E := fresh "E" in destruct m eqn:E; cbn [bind] in H |- *; [|discriminate H]
  | (if ?b then _ else _) = Ok _ =>
      let E := fresh "E" in destruct b eqn:E; [discriminate H|]
  | match ?x with Some _ => _ | None => _ end = Ok _ =>
      let E := fresh "E" in destruct x eqn:E; [|discriminate H]
  end.
  match type of H with
  | match ?x with _ => _ end = _ => destruct x as [| | | | |[|first more]|]; try discriminate H
  end.
  rewrite L. cbn [exceeds] in H.
  destruct (exceeds (length (first :: more)) (Some cap)); [reflexivity|].
  rewrite (validateScenes_cap _
             {| targetDuration := T; aspectRatio := ar; maxScenes := None;
                maxShotsPerScene := perScene |}) by reflexivity.
  exact H.
Qed.

(** Removing the scene cap from a validation that succeeds. *)
Lemma validateDirection_without_cap (raw : Value) (T : Q) (ar ar' : AspectRatio)
  (perScene : option Q) (cap : Q) (v : VideoDirection) :
  validateDirection raw
    {| targetDuration := T; aspectRatio := ar'; maxScenes := Some cap;
       maxShotsPerScene := perScene |} = Ok v ->
  validateDirection raw
    {| targetDuration := T; aspectRatio := ar; maxScenes := None;
       maxShotsPerScene := perScene |} = Ok v.
Proof.
  unfold validateDirection. cbv zeta. cbn [targetDuration maxScenes].
  intros H.
  repeat match type of H with
  | bind ?m _ = Ok _ =>
      let E := fresh "E" in destruct m eqn:E; cbn [bind] in H |- *; [|discriminate H]
  | (if ?b then _ else _) = Ok _ =>
      let E := fresh "E" in destruct b eqn:E; [discriminate H|]
  | match ?x with Some _ => _ | None => _ end = Ok _ =>
      let E := fresh "E" in destruct x eqn:E; [|discriminate H]
  end.
  match type of H with
  | match ?x with _ => _ end = _ => destruct x as [| | | | |[|first more]|]; try discriminate H
  end.
  cbn [exceeds].
  destruct (exceeds (length (first :: more)) (Some cap)); [discriminate H|].
  rewrite (validateScenes_cap _
             {| targetDuration := T; aspectRatio := ar'; maxScenes := Some cap;
                maxShotsPerScene := perScene |}) by reflexivity.
  exact H.
Qed.

Lemma exceeds_refine_cap (n len : nat) :
  exceeds n (Some (inject_Z (Z.of_nat len + 2)))
  = if (len + 2 <? n)%nat then Some (inject_Z (Z.of_nat len + 2)) else None.
Proof.
  unfold exceeds. rewrite Qlt_bool_inject.
  assert (Z0 : Qeq_bool (inject_Z (Z.of_nat len + 2)) 0 = false).
  { apply not_true_is_false. intros H. apply Qeq_bool_iff in H.
    unfold Qeq in H. simpl in H. lia. }
  rewrite Z0. cbn [negb andb].
  destruct (len + 2 <? n)%nat eqn:E.
  - apply Nat.ltb_lt in E.
    rewrite (proj2 (Z.ltb_lt _ _)) by lia. reflexivity.
  - apply Nat.ltb_ge in E.
    rewrite (proj2 (Z.ltb_ge _ _)) by lia. reflexivity.
Qed.

(** Every shot of a direction that the validator accepts passed the
    prompt checks. *)
Lemma accepted_shots_checked (raw : Value) (input : ValidationInput)
  (v : VideoDirection) :
  validateDirection raw input = Ok v ->
  Forall2 (fun rawScene scene =>
             rawShots rawScene <> [] /\
             Forall2 (fun rawShot shot =>
                        exists sid k, validateShot sid k rawShot = Ok shot)
               (rawShots rawScene) (shots scene))
    (rawScenes raw) (scenes v).
Proof.
  intros H. apply validateDirection_Ok in H as (_ & _ & total & H & _).
  apply validateScenes_Ok in H as [F _]. exact F.
Qed.

(** C4 (as amended).  [validateDirection] rejects any direction that
    contains a shot whose [motionPrompt] is missing, empty or not a
    string, or whose [startPrompt] or [endPrompt] is not a string that
    [split(/\s+/)] cuts into at least 20 pieces; what it throws is a
    [ValidationError], or the [TypeError] of reading a property of [null].
    The length of [motionPrompt] is not among the checks. *)
Theorem validateDirection_rejects_failed_prompt_checks
  (raw : Value) (input : ValidationInput) (i j : nat) (scene shot : Value) :
  rawScenes raw !! i = Some scene ->
  rawShots scene !! j = Some shot ->
  failsPromptChecks shot = true ->
  exists t, validateDirection raw input = Throw t /\ rejection t.
Proof.
  intros Hi Hj Hf.
  destruct (validateDirection raw input) as [v|t] eqn:E.
  - exfalso. apply accepted_shots_checked in E.
    destruct (Forall2_lookup_l _ _ _ _ _ E Hi) as (vscene & _ & _ & F).
    destruct (Forall2_lookup_l _ _ _ _ _ F Hj) as (vshot & _ & sid & k & V).
    apply validateShot_Ok in V as (S1 & S2 & S3 & (P1 & P2 & _) & _).
    unfold failsPromptChecks, piecesAt in Hf. rewrite S1, S2, S3 in Hf.
    apply Nat.ltb_ge in P1, P2. rewrite P1, P2 in Hf. discriminate Hf.
  - exists t. split; [reflexivity|]. eapply validateDirection_throws. exact E.
Qed.

(** [validateDirection_rejects_failed_prompt_checks] at a concrete input. *)
Lemma validateDirection_rejects_failed_prompt_checks_witness :
  rawScenes rawTerse !! 0%nat = Some (rawScene 1 [terseShot]) /\
  rawShots (rawScene 1 [terseShot]) !! 0%nat = Some terseShot /\
  failsPromptChecks terseShot = true /\
  exists t, validateDirection rawTerse input10 = Throw t /\ rejection t.
Proof.
  refine (conj eq_refl (conj eq_refl (conj eq_refl _))).
  exact (validateDirection_rejects_failed_prompt_checks rawTerse input10 0 0
           (rawScene 1 [terseShot]) terseShot eq_refl eq_refl eq_refl).
Defined.

(** C4 is false as stated: the validator accepts [rawForge], whose shots
    have a [motionPrompt] of six words. *)
Lemma validateDirection_accepts_brief_motionPrompt :
  match validateDirection rawForge input10 with
  | Ok v =>
      existsb (fun scene =>
                 existsb (fun shot =>
                            Nat.ltb (length (splitWs (motionPrompt shot))) 20)
                   (shots scene)) (scenes v)
  | Throw _ => false
  end = true.
Proof. vm_compute. reflexivity. Qed.

(** The pieces are counted as [split(/\s+/)] cuts them: a prompt of
    twenty words separated by em spaces and ideographic spaces passes. *)
Example validateDirection_counts_unicode_spaces :
  length (splitWs emSpacedPrompt) = 20%nat /\
  exists v, validateDirection rawEmSpaced input10 = Ok v.
Proof. split; [vm_compute; reflexivity|]. eexists. vm_compute. reflexivity. Qed.








(** The validator adds the durations as doubles: 5.6 + 5.6 + 5.6 + 5.7
    is 22.499999999999996, below the 22.5 that a target of 25 s allows,
    and the direction is rejected. *)
Example total_is_added_in_doubles :
  validateDirection rawEdge input25
  = Throw (ValidationError
             (TotalDurationOutside (6333186975989759 # 281474976710656)
                (45 # 2) (55 # 2) 25)
             (Some "totalDuration"%string) None None).
Proof. vm_compute. reflexivity. Qed.

(** C10.  [refine] validates the answer of the LLM with the prior plan's
    [totalDuration] as target, a scene cap of the prior scene count plus
    two and no cap on the shots of a scene.  An answer of at most that
    many scenes is accepted (and normalized) when it passes the
    validation against that target without any cap; an answer of more
    scenes is rejected, and for its scene count when nothing else is
    wrong with it.  A plan that [refine] returns has the scenes of an
    answer that was within the cap and whose durations, as validated,
    are within 10% of the prior total. *)
Theorem refine_scene_cap (llm : LLM) (direction : VideoDirection)
  (feedback : string) (raw : Value) :
  json_refine llm direction feedback = Ok raw ->
  let prior := length (scenes direction) in
  (forall v,
     validateDirection raw (uncapped (totalDuration direction)) = Ok v ->
     (length (rawScenes raw) <= prior + 2)%nat ->
     refine llm direction feedback = normalizeDirection v) /\
  ((prior + 2 < length (rawScenes raw))%nat ->
   exists t,
     refine llm direction feedback = Throw t /\
     forall v,
       validateDirection raw (uncapped (totalDuration direction)) = Ok v ->
       t = Error (Prefixed "Refined direction validation failed: "
                    (TooManyScenes (length (rawScenes raw))
                       (inject_Z (Z.of_nat prior + 2))))) /\
  (forall plan,
     refine llm direction feedback = Ok plan ->
     (length (rawScenes raw) <= prior + 2)%nat /\
     length (scenes plan) = length (rawScenes raw) /\
     exists v,
       validateDirection raw (uncapped (totalDuration direction)) = Ok v /\
       normalizeDirection v = Ok plan /\
       inTolerance (totalDuration direction) (runningTotal (scenes v))).
Proof.
  intros J prior.
  assert (R : refine llm direction feedback
              = match parseDirection raw (refineInput direction) with
                | Throw (ValidationError m _ _ _) =>
                    Throw (Error (Prefixed "Refined direction validation failed: " m))
                | r => r
                end).
  { unfold refine. rewrite J. reflexivity. }
  assert (C : forall v,
            validateDirection raw (uncapped (totalDuration direction)) = Ok v ->
            validateDirection raw (refineInput direction)
            = if (prior + 2 <? length (rawScenes raw))%nat
              then Throw (ValidationError
                            (TooManyScenes (length (rawScenes raw))
                               (inject_Z (Z.of_nat prior + 2)))
                            (Some "scenes"%string) None None)
              else Ok v).
  { intros v V. unfold refineInput, uncapped in *.
    rewrite (validateDirection_with_cap _ _ _ ar_16_9 _ _ _ V).
    rewrite exceeds_refine_cap, (validated_length _ _ _ V).
    fold prior. destruct (prior + 2 <? length (rawScenes raw))%nat; reflexivity. }
  split; [|split].
  - intros v V L. rewrite R. unfold parseDirection. rewrite (C v V).
    rewrite (proj2 (Nat.ltb_ge _ _)) by lia. cbn [bind].
    destruct (normalizeDirection v) as [y|t] eqn:E; [reflexivity|].
    apply normalizeDirection_throws in E. subst t. reflexivity.
  - intros L.
    destruct (validateDirection raw (refineInput direction)) as [v|t] eqn:V.
    + exfalso. apply validateDirection_Ok in V as (_ & X & _).
      unfold refineInput in X. cbn [maxScenes] in X.
      rewrite exceeds_refine_cap in X. fold prior in X.
      rewrite (proj2 (Nat.ltb_lt _ _)) in X by lia. discriminate X.
    + destruct (validateDirection_throws _ _ _ V) as [->|(m & f & a & b & ->)].
      * exists TypeError. split.
        -- rewrite R. unfold parseDirection. rewrite V. reflexivity.
        -- intros v Vu. pose proof (C v Vu) as Cv.
           rewrite (proj2 (Nat.ltb_lt _ _)) in Cv by lia. discriminate Cv.
      * exists (Error (Prefixed "Refined direction validation failed: " m)). split.
        -- rewrite R. unfold parseDirection. rewrite V. reflexivity.
        -- intros v Vu. pose proof (C v Vu) as Cv.
           rewrite (proj2 (Nat.ltb_lt _ _)) in Cv by lia.
           injection Cv as ->. reflexivity.
  - intros plan P. rewrite R in P. unfold parseDirection in P.
    destruct (validateDirection raw (refineInput direction)) as [v|t] eqn:V;
      cbn [bind] in P.
    2:{ exfalso. destruct t; discriminate P. }
    assert (N : normalizeDirection v = Ok plan).
    { destruct (normalizeDirection v) as [y|t] eqn:E; [exact P|].
      exfalso. destruct t; discriminate P. }
    pose proof (validated_length _ _ _ V) as Lv.
    pose proof (validateDirection_Ok _ _ _ V) as (_ & X & total & VS & _ & Tol).
    unfold refineInput in X. cbn [maxScenes] in X.
    rewrite exceeds_refine_cap in X. fold prior in X.
    destruct (prior + 2 <? length (rawScenes raw))%nat eqn:B; [discriminate X|].
    apply Nat.ltb_ge in B. split; [exact B|]. split.
    + rewrite <- Lv. unfold normalizeDirection in N.
      destruct (mapi normalizeScene 0 (scenes v)) as [l|] eqn:M; cbn [bind] in N;
        [|discriminate N].
      injection N as <-. cbn [scenes]. exact (proj1 (mapi_lookup _ _ _ _ M)).
    + exists v. split; [|split; [exact N|]].
      * unfold refineInput in V.
        exact (validateDirection_without_cap _ _ ar_16_9 _ _ _ _ V).
      * rewrite <- (validated_total _ _ _ _ VS). exact Tol.
Qed.

(** [refine_scene_cap] at an LLM whose answer has four scenes, for a
    prior plan of one. *)
Lemma refine_scene_cap_witness :
  json_refine fourLLM priorPlan "Add scenes" = Ok rawFour /\
  (length (scenes priorPlan) + 2 < length (rawScenes rawFour))%nat /\
  exists t,
    refine fourLLM priorPlan "Add scenes" = Throw t /\
    forall v,
      validateDirection rawFour (uncapped (totalDuration priorPlan)) = Ok v ->
      t = Error (Prefixed "Refined direction validation failed: "
                   (TooManyScenes (length (rawScenes rawFour))
                      (inject_Z (Z.of_nat (length (scenes priorPlan)) + 2)))).
Proof.
  assert (L : (length (scenes priorPlan) + 2 < length (rawScenes rawFour))%nat)
    by (vm_compute; lia).
  refine (conj eq_refl (conj L _)).
  exact (proj1 (proj2 (refine_scene_cap fourLLM priorPlan "Add scenes" rawFour
                         eq_refl)) L).
Defined.

(** The same answers, as [refine] treats them: four scenes for a prior
    plan of one are one too many, although they pass the validation
    without a cap; one scene is accepted. *)
Example refine_counts_the_scenes :
  (exists v, validateDirection rawFour (uncapped (totalDuration priorPlan)) = Ok v) /\
  refine fourLLM priorPlan "Add scenes"
  = Throw (Error (Prefixed "Refined direction validation failed: "
                    (TooManyScenes 4 3))) /\
  refine droneLLM priorPlan "Make the ascent slower" = Ok planDrone.
Proof.
  split; [eexists; vm_compute; reflexivity|]. split; vm_compute; reflexivity.
Qed.

End DirectorProps.

(* ===================================================================== *)
(** * Facts about the VideoJob state machine                              *)
(* ===================================================================== *)

Module JobFacts.
Import Js VideoJob JobSpec.

Create HintDb job discriminated.

(** ** Lists and the log *)

Lemma alter_middle {A : Type} (f : A -> A) (pre : list A) (b : A) (rest : list A) :
  alter f (length pre) (pre ++ b :: rest) = pre ++ f b :: rest.
Proof. induction pre as [|x pre IH]; simpl; [reflexivity|]. f_equal. exact IH. Qed.

Lemma lookup_middle {A : Type} (pre : list A) (b : A) (rest : list A) :
  (pre ++ b :: rest) !! length pre = Some b.
Proof. induction pre as [|x pre IH]; simpl; [reflexivity|exact IH]. Qed.

Lemma polling_not_failed (s : SceneJobState) :
  isPolling (status s) = true -> isSceneFailed (status s) = false.
Proof. destruct (status s); simpl; congruence. Qed.

Lemma extends_refl (d : DurableObject) : extends d d.
Proof. exists []. rewrite app_nil_r. reflexivity. Qed.

Lemma extends_trans (a b c : DurableObject) :
  extends a b -> extends b c -> extends a c.
Proof.
  intros [x Hx] [y Hy]. exists (x ++ y). rewrite Hy, Hx, app_assoc. reflexivity.
Qed.

Lemma extends_record (e : Event) (a b : DurableObject) :
  log b = log a -> extends a (record e b).
Proof. intros H. exists [e]. cbn. rewrite H. reflexivity. Qed.

#[local] Hint Resolve extends_refl extends_record : job.

Lemma failWith_run (fallback : string) (t : Thrown) (d : DurableObject)
  (st : VideoJobState) :
  state d = Some st ->
  failWith fallback t d
  = (Ok tt, saved (setError (messageOr fallback t) (setStatus failed st)) d).
Proof.
  intros Hs. unfold failWith, bindM, modify, update, saveState, saved.
  cbn [state withState]. rewrite Hs. reflexivity.
Qed.

Lemma extends_saved (st : VideoJobState) (d : DurableObject) :
  extends d (saved st d).
Proof. apply extends_record. reflexivity. Qed.

#[local] Hint Resolve extends_saved : job.

(** ** The poll loop of [alarm] *)

Section PollLoop.
Variable env : Services.

Lemma alarm_polls (d : DurableObject) (st : VideoJobState) :
  state d = Some st ->
  running st = true ->
  (pollAttempts d < MAX_POLL_ATTEMPTS)%nat ->
  alarm env d = pollBody env (length (scenes st)) (entered d).
Proof.
  intros Hs R A. unfold alarm, bindM at 1 2. cbn [update].
  unfold loadState. cbn [state withAlarm]. rewrite Hs.
  unfold running in R. apply negb_true_iff in R. rewrite R.
  unfold bindM at 1. cbn [update]. unfold bindM at 1. cbn [read pollAttempts withPollAttempts withAlarm].
  rewrite (proj2 (Nat.ltb_ge MAX_POLL_ATTEMPTS (S (pollAttempts d)))) by (unfold MAX_POLL_ATTEMPTS in *; lia).
  reflexivity.
Qed.

(** One iteration of the poll loop that does not throw: what it does to
    the scene at its index and to the two flags. *)
Lemma pollScene_step (pre : list SceneJobState)
  (b : SceneJobState) (rest : list SceneJobState) (flags : bool * bool)
  (d : DurableObject) (st : VideoJobState) (flags' : bool * bool)
  (d' : DurableObject) :
  state d = Some st ->
  scenes st = pre ++ b :: rest ->
  pollScene env (length pre) flags d = (Ok flags', d') ->
  exists a st',
    state d' = Some st' /\ scenes st' = pre ++ a :: rest /\
    flags' = ((fst flags && negb (pollable a))%bool,
              (snd flags || pollable b && isSceneFailed (status a))%bool).
Proof.
  intros Hs Hl. unfold pollScene, bindM at 1, theState. rewrite Hs.
  rewrite Hl, lookup_middle. destruct flags as [allComplete anyFailed].
  cbn [fst snd]. unfold pollable.
  destruct (isPolling (status b)) eqn:P; cbn [negb orb andb].
  2:{ intros [= <- <-]. exists b, st. rewrite P. cbn [andb negb].
      rewrite andb_true_r, orb_false_r. auto. }
  destruct (hasText (videoRequestId b)) eqn:T; cbn [negb].
  2:{ intros [= <- <-]. exists b, st. rewrite P, T. cbn [andb negb].
      rewrite andb_true_r, orb_false_r. auto. }
  unfold bindM at 1, call.
  destruct (fal_checkVideoStatus env _ _) as [[| | |]|]; try discriminate.
  - intros [= <- <-]. eexists b, st. cbn [state record]. rewrite P, T.
    rewrite (polling_not_failed b P). cbn. rewrite orb_false_r, andb_false_r. auto.
  - intros [= <- <-]. eexists b, st. cbn [state record]. rewrite P, T.
    rewrite (polling_not_failed b P). cbn. rewrite orb_false_r, andb_false_r. auto.
  - unfold bindM at 1, call. cbn [record log].
    destruct (fal_getVideoResult env _ _) as [url|]; [|discriminate].
    unfold bindM, modifyScene, modify, update, ret. cbn [state record withState option_map].
    rewrite Hs. cbn [option_map scenes setScenes]. intros [= <- <-].
    eexists _, _. split; [reflexivity|]. cbn [scenes].
    rewrite Hl, !alter_middle. split; [reflexivity|].
    cbn. rewrite andb_true_r, orb_false_r. reflexivity.
  - unfold bindM, modifyScene, modify, update, ret. cbn [state record withState option_map].
    rewrite Hs. cbn [option_map scenes setScenes]. intros [= <- <-].
    eexists _, _. split; [reflexivity|]. cbn [scenes].
    rewrite Hl, !alter_middle. split; [reflexivity|].
    cbn. rewrite andb_true_r, orb_true_r. reflexivity.
Qed.

(** A pass of the poll loop that does not throw: the flags it returns,
    in terms of the shots before and after. *)
Lemma pollFrom_flags (todo : list SceneJobState) :
  forall (pre : list SceneJobState) (flags : bool * bool) (d : DurableObject)
         (st : VideoJobState) (flags' : bool * bool) (d' : DurableObject),
  state d = Some st ->
  scenes st = pre ++ todo ->
  pollFrom env (length pre) (length todo) flags d = (Ok flags', d') ->
  exists todo' st',
    state d' = Some st' /\ scenes st' = pre ++ todo' /\
    flags' = ((fst flags && nonePollable todo')%bool,
              (snd flags || anyTurnedFailed todo todo')%bool).
Proof.
  induction todo as [|b rest IH]; intros pre flags d st flags' d' Hs Hl.
  - simpl. intros [= <- <-]. exists [], st. destruct flags. cbn.
    rewrite andb_true_r, orb_false_r. auto.
  - cbn [length pollFrom]. unfold bindM at 1.
    destruct (pollScene env (length pre) flags d) as [[f1|] d2] eqn:E;
      [|discriminate].
    destruct (pollScene_step _ _ _ _ _ _ _ _ Hs Hl E) as (a & st2 & Hs2 & Hl2 & ->).
    intros H.
    assert (Hl2' : scenes st2 = (pre ++ [a]) ++ rest)
      by (rewrite <- app_assoc; exact Hl2).
    replace (S (length pre)) with (length (pre ++ [a])) in H
      by (rewrite length_app; simpl; lia).
    destruct (IH _ _ _ _ _ _ Hs2 Hl2' H) as (todo' & st' & Hs' & Hl' & ->).
    exists (a :: todo'), st'. split; [exact Hs'|].
    split; [rewrite Hl', <- app_assoc; reflexivity|].
    cbn. rewrite andb_assoc, orb_assoc. reflexivity.
Qed.

End PollLoop.

(** ** Compilation *)

Section Compilation.
Variable env : Services.

(** The render loop: it returns only with the job [complete] and a final
    video; when it throws, the job state is as it was. *)
Lemma pollRenderLoop_outcome (renderId : string) (remaining : nat) :
  forall (d : DurableObject) (st : VideoJobState) (r : Outcome unit)
         (d' : DurableObject),
  state d = Some st ->
  pollRenderLoop env renderId remaining d = (r, d') ->
  extends d d' /\
  match r with
  | Ok _ => exists st', state d' = Some st' /\ job_status st' = complete /\
                        hasText (finalVideoUrl st') = true /\ progress st' = 100%Z
  | Throw _ => state d' = Some st
  end.
Proof.
  induction remaining as [|k IH]; intros d st r d' Hs; cbn [pollRenderLoop].
  - intros [= <- <-]. split; [auto with job|exact Hs].
  - unfold bindM at 1, call.
    destruct (creatomate_checkRenderStatus env _ _) as [render|t].
    2:{ intros [= <- <-]. split; [auto with job|exact Hs]. }
    destruct (renderSucceeded (render_status render) && hasText (render_url render))%bool eqn:Ok1.
    + unfold bindM, modify, update, saveState. cbn [state record withState].
      rewrite Hs. cbn [option_map]. intros [= <- <-]. split.
      * exists [Called (CheckRenderStatus renderId);
                Saved (persisted (setProgress 100 (setStatus complete
                  (setFinalVideoUrl (default EmptyString (render_url render)) st))))].
        cbn. rewrite <- app_assoc. reflexivity.
      * eexists. split; [reflexivity|]. cbn.
        apply andb_true_iff in Ok1 as [_ U].
        destruct (render_url render); [exact (conj eq_refl (conj U eq_refl))|discriminate U].
    + destruct (renderFailed (render_status render)).
      * intros [= <- <-]. split; [auto with job|exact Hs].
      * intros H. apply (IH (record (Called (CheckRenderStatus renderId)) d) st) in H;
          [|exact Hs].
        destruct H as [X Y]. split; [|exact Y].
        eapply extends_trans; [|exact X]. apply extends_record. reflexivity.
Qed.

(** The render loop returns with the url of the render that
    succeeded. *)
Lemma pollRenderLoop_render (renderId : string) (remaining : nat) :
  forall (d : DurableObject) (st : VideoJobState) (d' : DurableObject),
  state d = Some st ->
  config_renderId d = Some renderId ->
  pollRenderLoop env renderId remaining d = (Ok tt, d') ->
  exists st', state d' = Some st' /\ rendered env d' st'.
Proof.
  induction remaining as [|k IH]; intros d st d' Hs Hc; cbn [pollRenderLoop].
  - discriminate.
  - unfold bindM at 1, call.
    destruct (creatomate_checkRenderStatus env _ _) as [render|t] eqn:A;
      [|discriminate].
    destruct (renderSucceeded (render_status render) && hasText (render_url render))%bool
      eqn:Ok1.
    + unfold bindM, modify, update, saveState. cbn [state record withState].
      rewrite Hs. cbn [option_map]. intros [= <-].
      apply andb_true_iff in Ok1 as [S1 U].
      destruct (render_url render) as [url|] eqn:Eu; [|discriminate U].
      eexists. split; [reflexivity|]. split; [reflexivity|]. split; [reflexivity|].
      exists (log d), renderId, render, url.
      cbn [log record withRow withState config_renderId default finalVideoUrl
           setProgress setStatus setFinalVideoUrl].
      repeat split; try assumption.
      * rewrite <- app_assoc. reflexivity.
      * destruct (render_status render); (reflexivity || discriminate S1).
      * intros ->. discriminate U.
    + destruct (renderFailed (render_status render)); [discriminate|].
      intros H.
      exact (IH (record (Called (CheckRenderStatus renderId)) d) st _ Hs Hc H).
Qed.

(** What the [try] block of [compileVideo] leaves behind. *)
Lemma compile_try (d : DurableObject) (st : VideoJobState)
  (r : Outcome unit) (d' : DurableObject) :
  state d = Some st ->
  (modify (fun st => setScenes (sortBySceneId (scenes st)) st) ;;
   st <- theState ;;
   let videoUrls := truthyUrls (scenes st) in
   match videoUrls with
   | [] => throw (Error (Text "No videos to compile"))
   | _ =>
       row <- read config_aspectRatio ;;
       aspectRatio <- match row with
                      | Some a => ret a
                      | None => throw (sqlNoRow env)
                      end ;;
       render <- call (CompileVideo videoUrls aspectRatio)
                   (fun n => creatomate_compileVideo env n videoUrls aspectRatio) ;;
       match render with
       | None => throw TypeError
       | Some r =>
           update (withRenderId (render_id r)) ;;
           pollRenderCompletion env (render_id r)
       end
   end) d = (r, d') ->
  extends d d' /\
  match r with
  | Ok _ => exists st', state d' = Some st' /\ rendered env d' st'
  | Throw _ => exists st', state d' = Some st'
  end.
Proof.
  intros Hs. unfold bindM at 1, modify, update. unfold bindM at 1, theState.
  cbn [state withState]. rewrite Hs. cbn [option_map].
  set (st1 := setScenes (sortBySceneId (scenes st)) st).
  set (d1 := withState (Some st1) d).
  assert (Hs1 : state d1 = Some st1) by reflexivity.
  assert (X1 : extends d d1) by (exists []; cbn; rewrite app_nil_r; reflexivity).
  clearbody d1.
  destruct (truthyUrls (scenes st1)) as [|u us].
  { intros [= <- <-]. split; [exact X1|eauto]. }
  unfold bindM at 1, read. unfold bindM at 1.
  destruct (config_aspectRatio d1) as [ar|].
  2:{ intros [= <- <-]. split; [exact X1|eauto]. }
  cbn [ret]. unfold bindM at 1, call.
  destruct (creatomate_compileVideo env _ _ _) as [[render|]|t].
  - unfold bindM at 1, update, pollRenderCompletion, bindM at 1, read.
    cbn [state withRenderId record]. rewrite Hs1.
    intros H. pose proof H as H'.
    eapply pollRenderLoop_outcome in H; [|cbn; exact Hs1].
    destruct H as [X Y]. split.
    + eapply extends_trans; [exact X1|]. eapply extends_trans; [|exact X].
      exists [Called (CompileVideo (u :: us) ar)]. reflexivity.
    + destruct r as [[]|]; [|eauto].
      eapply pollRenderLoop_render in H'; [exact H'|cbn; exact Hs1|reflexivity].
  - intros [= <- <-]. split; [|cbn; eauto].
    eapply extends_trans; [exact X1|]. apply extends_record. reflexivity.
  - intros [= <- <-]. split; [|cbn; eauto].
    eapply extends_trans; [exact X1|]. apply extends_record. reflexivity.
Qed.

(** [compileVideo] always persists [compiling] first, never throws, and
    leaves the job [complete] with the video of the render, or [failed]. *)
Lemma compileVideo_outcome (d : DurableObject)
  (st : VideoJobState) :
  state d = Some st ->
  exists d' st' more,
    compileVideo env d = (Ok tt, d') /\
    state d' = Some st' /\ renderedOrFailed env d' st' /\
    log d' = log d ++ Saved (persisted (setStatus compiling st)) :: more.
Proof.
  intros Hs. unfold compileVideo. unfold bindM at 1, theState. rewrite Hs.
  unfold bindM at 1, modify, update. unfold bindM at 1, saveState.
  cbn [state withState]. rewrite Hs. cbn [option_map].
  change (record _ (withRow _ (withState _ d)))
    with (saved (setStatus compiling st) d).
  set (d1 := saved (setStatus compiling st) d).
  assert (Hs1 : state d1 = Some (setStatus compiling st)) by reflexivity.
  assert (L1 : log d1 = log d ++ [Saved (persisted (setStatus compiling st))])
    by reflexivity.
  clearbody d1. unfold tryCatch.
  match goal with
  | |- context [match ?body d1 with _ => _ end] =>
      destruct (body d1) as [[[]|t] d2] eqn:B
  end.
  - apply (compile_try _ _ _ _ Hs1) in B as ([more Hm] & st' & Hs' & C).
    exists d2, st', more. split; [reflexivity|]. split; [exact Hs'|].
    split; [right; exact C|]. rewrite Hm, L1, <- app_assoc. reflexivity.
  - apply (compile_try _ _ _ _ Hs1) in B as ([more Hm] & st2 & Hs2).
    rewrite (failWith_run _ _ _ _ Hs2).
    eexists _, _, (more ++ [_]). split; [reflexivity|].
    split; [reflexivity|]. split; [left; reflexivity|].
    cbn. rewrite Hm, L1, <- !app_assoc. reflexivity.
Qed.

End Compilation.

(** ** updateProgress *)

Lemma stepsOf_range (scene : SceneJobState) : (0 <= stepsOf scene <= 3)%Z.
Proof.
  unfold stepsOf.
  destruct (hasText (startImageUrl scene)), (hasText (endImageUrl scene)),
    (hasText (videoUrl scene)); lia.
Qed.

Lemma countSteps_range (l : list SceneJobState) :
  (0 <= countSteps l <= 3 * Z.of_nat (length l))%Z.
Proof.
  unfold countSteps.
  assert (G : forall a, (a <= fold_left (fun n scene => n + stepsOf scene) l a
                         <= a + 3 * Z.of_nat (length l))%Z).
  { induction l as [|x rest IH]; intros a; cbn [fold_left length].
    - lia.
    - specialize (IH (a + stepsOf x)%Z). pose proof (stepsOf_range x). lia. }
  specialize (G 0%Z). lia.
Qed.

Lemma percentage_range (c t : Z) :
  (0 <= c <= t)%Z -> (0 < t)%Z ->
  (inject_Z 0 <= inject_Z c / inject_Z t * 100)%Q /\
  (inject_Z c / inject_Z t * 100 <= inject_Z 100)%Q.
Proof.
  intros Hc Ht. destruct t as [|p|p]; try lia.
  unfold Qle, Qdiv, Qmult, Qinv, inject_Z. cbn. lia.
Qed.

(** The value that [updateProgress] stores is a whole number between 0
    and 100, whatever the job state. *)
Lemma computeProgress_range (st : VideoJobState) :
  (0 <= computeProgress st <= 100)%Z.
Proof.
  unfold computeProgress.
  pose proof (countSteps_range (scenes st)) as C.
  set (t := (Z.of_nat (length (scenes st)) * 3 + 1)%Z) in *.
  assert (Ht : (0 < t)%Z) by (unfold t; lia).
  apply JsFacts.round_bounds;
    destruct (isComplete (job_status st));
    apply percentage_range; unfold t in *; lia.
Qed.

(** ** The image loop *)

Lemma noNewFailure_refl (l : list SceneJobState) : noNewFailure l l.
Proof. intros i s H F. eauto. Qed.

Lemma noNewFailure_trans (a b c : list SceneJobState) :
  noNewFailure a b -> noNewFailure b c -> noNewFailure a c.
Proof.
  intros H1 H2 i s Hs F. destruct (H2 i s Hs F) as (s' & Hs' & F'). eauto.
Qed.

Lemma noNewFailure_alter (f : SceneJobState -> SceneJobState) (i : nat)
  (l : list SceneJobState) :
  (forall s, status (f s) = scene_failed -> status s = scene_failed) ->
  noNewFailure l (alter f i l).
Proof.
  intros Hf j s' Hj F. destruct (decide (i = j)) as [->|N].
  - rewrite list_lookup_alter_eq in Hj.
    destruct (l !! j) as [s|] eqn:E; [|discriminate Hj].
    injection Hj as <-. eauto.
  - rewrite list_lookup_alter_ne in Hj by exact N. eauto.
Qed.

Lemma setSceneStatus_generating (v : SceneStatus) (s : SceneJobState) :
  v <> scene_failed ->
  status (setSceneStatus v s) = scene_failed -> status s = scene_failed.
Proof. intros N H. simpl in H. congruence. Qed.

Ltac no_new_failure :=
  repeat first
    [ apply noNewFailure_refl
    | eapply noNewFailure_trans;
      [|apply noNewFailure_alter; intros ? ?;
        first [ assumption
              | eapply setSceneStatus_generating; [|eassumption]; discriminate ]] ].

Section ImageLoop.
Variable env : Services.
Variable aspectRatio : AspectRatio.

Lemma generateImagesFor_step (scene : Scene) (d : DurableObject) (st : VideoJobState)
  (r : Outcome unit) (d' : DurableObject) :
  state d = Some st ->
  generateImagesFor env aspectRatio scene d = (r, d') ->
  imageStep aspectRatio d st r d'.
Proof.
  intros Hs. unfold generateImagesFor, bindM at 1, theState. rewrite Hs.
  destruct (findIndex (id scene) (scenes st)) as [i|].
  2:{ intros [= <- <-]. split; [|split].
      - exists st. split; [exact Hs|apply noNewFailure_refl].
      - auto with job.
      - discriminate. }
  unfold bindM, modifyScene, updateProgress, modify, update, saveState, call, firstUrl.
  cbn [state withState record withRow option_map log].
  rewrite Hs. cbn [option_map].
  match goal with
  | |- context [fal_generateImage env ?n ?p ?a] =>
      destruct (fal_generateImage env n p a) as [[|url1 more1]|t1]
  end.
  all: cbn [ret throw state withState record withRow option_map log].
  3:{ intros [= <- <-]. split; [|split].
      - eexists. split; [reflexivity|]. cbn [scenes setProgress setScenes]. no_new_failure.
      - eexists. cbn [log record withRow withState]. rewrite <- !app_assoc. reflexivity.
      - intros t _. eexists [_], _. cbn [log record withRow withState].
        rewrite <- !app_assoc. reflexivity. }
  1:{ intros [= <- <-]. split; [|split].
      - eexists. split; [reflexivity|]. cbn [scenes setProgress setScenes]. no_new_failure.
      - eexists. cbn [log record withRow withState]. rewrite <- !app_assoc. reflexivity.
      - intros t _. eexists [_], _. cbn [log record withRow withState].
        rewrite <- !app_assoc. reflexivity. }
  match goal with
  | |- context [fal_generateImage env ?n ?p ?a] =>
      destruct (fal_generateImage env n p a) as [[|url2 more2]|t2]
  end.
  all: cbn [ret throw state withState record withRow option_map log].
  all: intros [= <- <-]; split; [|split].
  all: try (eexists; split; [reflexivity|];
            cbn [scenes setProgress setScenes]; no_new_failure).
  all: try (eexists; cbn [log record withRow withState];
            rewrite <- !app_assoc; reflexivity).
  all: try discriminate.
  all: intros t _; eexists [_; _; _], _; cbn [log record withRow withState];
       rewrite <- !app_assoc; reflexivity.
Qed.

Lemma forEach_images (l : list Scene) :
  forall (d : DurableObject) (st : VideoJobState) (r : Outcome unit)
         (d' : DurableObject),
  state d = Some st ->
  forEach (generateImagesFor env aspectRatio) l d = (r, d') ->
  imageStep aspectRatio d st r d'.
Proof.
  induction l as [|scene rest IH]; intros d st r d' Hs; cbn [forEach].
  - intros [= <- <-]. split; [|split].
    + exists st. split; [exact Hs|apply noNewFailure_refl].
    + auto with job.
    + discriminate.
  - unfold bindM at 1.
    destruct (generateImagesFor env aspectRatio scene d) as [[[]|t] d2] eqn:E.
    + apply (generateImagesFor_step _ _ _ _ _ Hs) in E
        as ((st2 & Hs2 & N2) & [more2 X2] & _).
      intros H. apply (IH _ _ _ _ Hs2) in H as ((st' & Hs' & N') & X' & T').
      split; [|split].
      * exists st'. split; [exact Hs'|]. eapply noNewFailure_trans; eassumption.
      * eapply extends_trans; [exists more2; exact X2|exact X'].
      * intros t Ht. destruct (T' t Ht) as (earlier & prompt & L).
        exists (more2 ++ earlier), prompt.
        rewrite L, X2, <- !app_assoc. reflexivity.
    + intros [= <- <-].
      exact (generateImagesFor_step _ _ _ _ _ Hs E).
Qed.

End ImageLoop.

End JobFacts.

(* ===================================================================== *)
(** * Properties of the VideoJob state machine                            *)
(* ===================================================================== *)

Module JobProps.
Import Js VideoJob JobSpec JobFacts JobSamples.

(** What [alarm] does after a pass of the poll loop that did not throw. *)
Lemma pollBody_after (env : Services) (count : nat) (d : DurableObject)
  (flags : bool * bool) (d1 : DurableObject) (st1 : VideoJobState) :
  pollFrom env 0 count (true, false) d = (Ok flags, d1) ->
  state d1 = Some st1 ->
  let d2 := saved (progressed st1) d1 in
  snd (pollBody env count d)
  = if snd flags
    then saved (setError (Text "One or more videos failed to generate")
                  (setStatus failed (progressed st1))) d2
    else if fst flags
    then snd (compileVideo env
                (saved (setStatus videos_complete (progressed st1)) d2))
    else snd (setAlarm d2).
Proof.
  intros P Hs. cbv zeta. unfold pollBody, tryCatch, bindM at 1. rewrite P.
  unfold bindM at 1, updateProgress, modify, update.
  unfold bindM at 1, saveState. cbn [state withState]. rewrite Hs.
  cbn [option_map].
  change (record _ (withRow _ (withState _ d1)))
    with (saved (progressed st1) d1).
  destruct flags as [allComplete anyFailed]. cbn [fst snd].
  destruct anyFailed.
  - unfold bindM, modify, update, saveState. reflexivity.
  - destruct allComplete.
    + unfold bindM at 1, modify, update. unfold bindM at 1, saveState.
      cbn [state withState saved record withRow option_map].
      match goal with
      | |- context [compileVideo env ?x] =>
          change x with (saved (setStatus videos_complete (progressed st1))
                           (saved (progressed st1) d1))
      end.
      destruct (compileVideo_outcome env
                  (saved (setStatus videos_complete (progressed st1))
                     (saved (progressed st1) d1))
                  (setStatus videos_complete (progressed st1)) eq_refl)
        as (d' & st' & more & -> & _).
      reflexivity.
    + reflexivity.
Qed.

(** C1 (as amended).  In a tick of the poll loop in which no call
    throws: if a shot polled in the tick has turned [failed], the job
    transitions to [failed] with the error
    [One or more videos failed to generate], whatever the other shots
    are; otherwise, if no shot is left to poll, the job transitions to
    [videos_complete] and compilation starts; otherwise the alarm is
    armed again. *)
Theorem alarm_poll_verdict (env : Services) (d : DurableObject)
  (st : VideoJobState) (flags : bool * bool) (d1 : DurableObject) :
  state d = Some st ->
  running st = true ->
  (pollAttempts d < MAX_POLL_ATTEMPTS)%nat ->
  pollFrom env 0 (length (scenes st)) (true, false) (entered d) = (Ok flags, d1) ->
  exists st1,
    state d1 = Some st1 /\
    let d2 := saved (progressed st1) d1 in
    snd (alarm env d)
    = if anyTurnedFailed (scenes st) (scenes st1)
      then saved (setError (Text "One or more videos failed to generate")
                    (setStatus failed (progressed st1))) d2
      else if nonePollable (scenes st1)
      then snd (compileVideo env
                  (saved (setStatus videos_complete (progressed st1)) d2))
      else snd (setAlarm d2).
Proof.
  intros Hs R A P.
  destruct (pollFrom_flags env (scenes st) [] (true, false) (entered d) st
              flags d1 Hs eq_refl P) as (todo' & st1 & Hs1 & Hl1 & ->).
  exists st1. split; [exact Hs1|].
  rewrite (alarm_polls env d st Hs R A).
  rewrite (pollBody_after _ _ _ _ _ _ P Hs1). cbn [fst snd app orb andb] in *.
  rewrite Hl1. reflexivity.
Qed.

(** [alarm_poll_verdict] at a concrete input. *)
Lemma alarm_poll_verdict_witness :
  state started3 = Some state3 /\
  running state3 = true /\
  (pollAttempts started3 < MAX_POLL_ATTEMPTS)%nat /\
  pollFrom shot2Fails 0 (length (scenes state3)) (true, false) (entered started3)
  = (Ok (true, true), polledShot2Fails) /\
  exists st1,
    state polledShot2Fails = Some st1 /\
    let d2 := saved (progressed st1) polledShot2Fails in
    snd (alarm shot2Fails started3)
    = if anyTurnedFailed (scenes state3) (scenes st1)
      then saved (setError (Text "One or more videos failed to generate")
                    (setStatus failed (progressed st1))) d2
      else if nonePollable (scenes st1)
      then snd (compileVideo shot2Fails
                  (saved (setStatus videos_complete (progressed st1)) d2))
      else snd (setAlarm d2).
Proof.
  assert (A : (pollAttempts started3 < MAX_POLL_ATTEMPTS)%nat)
    by (vm_compute; lia).
  assert (P : pollFrom shot2Fails 0 (length (scenes state3)) (true, false)
                (entered started3) = (Ok (true, true), polledShot2Fails))
    by (vm_compute; reflexivity).
  exact (conj eq_refl (conj eq_refl (conj A (conj P
           (alarm_poll_verdict shot2Fails started3 state3 (true, true)
              polledShot2Fails eq_refl eq_refl A P))))).
Defined.

(** C1 is false as stated: after a tick in which shot 2 fails and shots 1
    and 3 complete, every shot is terminal and two are complete, yet the
    job is [failed], and [videos_complete] was never persisted. *)
Lemma partial_video_failure_fails_the_job :
  map status (scenes (jobStateOf (tick shot2Fails started3)))
  = [scene_complete; scene_failed; scene_complete] /\
  job_status (jobStateOf (tick shot2Fails started3)) = failed /\
  existsb (fun p => match fst p with videos_complete => true | _ => false end)
    (snapshots (tick shot2Fails started3)) = false.
Proof. vm_compute. auto. Qed.

(** C5 (as amended).  VideoJob has no compile-provider switch: whenever
    a tick finds every polled video complete and none failed, the job
    persists [videos_complete] and then [compiling], and it ends the tick
    either [failed], or [complete] with progress 100 and with the url of
    the render as its final video url: the url that Creatomate gave, in
    its last answer, for the render whose id the job had stored. *)
Theorem videos_complete_enters_compiling (env : Services) (d : DurableObject)
  (st : VideoJobState) (d1 : DurableObject) :
  state d = Some st ->
  running st = true ->
  (pollAttempts d < MAX_POLL_ATTEMPTS)%nat ->
  pollFrom env 0 (length (scenes st)) (true, false) (entered d)
  = (Ok (true, false), d1) ->
  exists st1 st' more,
    state d1 = Some st1 /\
    log (snd (alarm env d))
    = log d1
      ++ [Saved (persisted (progressed st1));
          Saved (persisted (setStatus videos_complete (progressed st1)));
          Saved (persisted (setStatus compiling (progressed st1)))]
      ++ more /\
    state (snd (alarm env d)) = Some st' /\
    renderedOrFailed env (snd (alarm env d)) st'.
Proof.
  intros Hs R A P.
  destruct (pollFrom_flags env (scenes st) [] (true, false) (entered d) st
              _ d1 Hs eq_refl P) as (todo' & st1 & Hs1 & _ & _).
  rewrite (alarm_polls env d st Hs R A).
  rewrite (pollBody_after _ _ _ _ _ _ P Hs1). cbn [fst snd].
  destruct (compileVideo_outcome env
              (saved (setStatus videos_complete (progressed st1))
                 (saved (progressed st1) d1))
              (setStatus videos_complete (progressed st1)) eq_refl)
    as (d' & st' & more & E & Hs' & C & L).
  rewrite E. cbn [snd]. exists st1, st', more.
  split; [exact Hs1|]. split; [|split; [exact Hs'|exact C]].
  rewrite L. cbn [saved record log withRow withState].
  rewrite <- !app_assoc. reflexivity.
Qed.

(** [videos_complete_enters_compiling] at a job of three shots whose
    videos all complete and whose render succeeds: the job ends
    [complete] with the url of the render. *)
Lemma videos_complete_enters_compiling_witness :
  (state started3 = Some state3 /\
   running state3 = true /\
   (pollAttempts started3 < MAX_POLL_ATTEMPTS)%nat /\
   pollFrom allDone 0 (length (scenes state3)) (true, false) (entered started3)
   = (Ok (true, false), polledAllDone) /\
   exists st1 st' more,
     state polledAllDone = Some st1 /\
     log (snd (alarm allDone started3))
     = log polledAllDone
       ++ [Saved (persisted (progressed st1));
           Saved (persisted (setStatus videos_complete (progressed st1)));
           Saved (persisted (setStatus compiling (progressed st1)))]
       ++ more /\
     state (snd (alarm allDone started3)) = Some st' /\
     renderedOrFailed allDone (snd (alarm allDone started3)) st') /\
  job_status (jobStateOf (tick allDone started3)) = complete /\
  finalVideoUrl (jobStateOf (tick allDone started3))
  = Some "https://cdn.example/final.mp4"%string.
Proof.
  assert (A : (pollAttempts started3 < MAX_POLL_ATTEMPTS)%nat)
    by (vm_compute; lia).
  assert (P : pollFrom allDone 0 (length (scenes state3)) (true, false)
                (entered started3) = (Ok (true, false), polledAllDone))
    by (vm_compute; reflexivity).
  split; [|split; vm_compute; reflexivity].
  exact (conj eq_refl (conj eq_refl (conj A (conj P
           (videos_complete_enters_compiling allDone started3 state3
              polledAllDone eq_refl eq_refl A P))))).
Defined.

(** C5 is false as stated: with no compilation service to answer, a job
    whose videos all complete does not jump to [complete]: it persists
    [compiling] and ends [failed]. *)
Lemma completed_videos_without_compiler_fail :
  map fst (skipn (length (snapshots started3))
             (snapshots (tick noCompiler started3)))
  = [generating_videos; videos_complete; compiling; failed] /\
  job_status (jobStateOf (tick noCompiler started3)) = failed /\
  job_error (jobStateOf (tick noCompiler started3))
  = Some (Text "Creatomate API error: 401 - Unauthorized").
Proof. vm_compute. auto. Qed.

(** C6 (as amended).  A tick that finds [pollAttempts] already at 40 (so
    that the incremented counter exceeds 40) on a job that is not
    terminal makes the job [failed] with the error
    [Video generation timed out]; it persists that state, makes no
    external call and arms no alarm, and any later tick leaves the object
    as it is. *)
Theorem alarm_timeout (env : Services) (d : DurableObject) (st : VideoJobState) :
  state d = Some st ->
  running st = true ->
  (MAX_POLL_ATTEMPTS <= pollAttempts d)%nat ->
  let timedOut := setError (Text "Video generation timed out")
                    (setStatus failed st) in
  snd (alarm env d) = saved timedOut (entered d) /\
  log (snd (alarm env d)) = log d ++ [Saved (persisted timedOut)] /\
  alarmArmed (snd (alarm env d)) = false /\
  forall env', snd (alarm env' (snd (alarm env d))) = snd (alarm env d).
Proof.
  intros Hs R A timedOut.
  assert (E : snd (alarm env d) = saved timedOut (entered d)).
  { unfold alarm, bindM at 1 2. cbn [update].
    unfold loadState. cbn [state withAlarm]. rewrite Hs.
    unfold running in R. apply negb_true_iff in R. rewrite R.
    unfold bindM at 1. cbn [update]. unfold bindM at 1.
    cbn [read pollAttempts withPollAttempts withAlarm].
    rewrite (proj2 (Nat.ltb_lt MAX_POLL_ATTEMPTS (S (pollAttempts d))))
      by (unfold MAX_POLL_ATTEMPTS in *; lia).
    unfold bindM, modify, update, saveState.
    cbn [state withPollAttempts withState withAlarm].
    rewrite Hs. reflexivity. }
  rewrite E. repeat split.
Qed.

(** [alarm_timeout] at a concrete input. *)
Lemma alarm_timeout_witness :
  state after40 = Some state40 /\
  running state40 = true /\
  (MAX_POLL_ATTEMPTS <= pollAttempts after40)%nat /\
  snd (alarm allRunning after40)
  = saved (setError (Text "Video generation timed out") (setStatus failed state40))
      (entered after40) /\
  log (snd (alarm allRunning after40))
  = log after40
    ++ [Saved (persisted (setError (Text "Video generation timed out")
                            (setStatus failed state40)))] /\
  alarmArmed (snd (alarm allRunning after40)) = false /\
  forall env', snd (alarm env' (snd (alarm allRunning after40)))
               = snd (alarm allRunning after40).
Proof.
  assert (A : (MAX_POLL_ATTEMPTS <= pollAttempts after40)%nat)
    by (vm_compute; lia).
  exact (conj eq_refl (conj eq_refl (conj A
           (alarm_timeout allRunning after40 state40 eq_refl eq_refl A)))).
Defined.

(** C6 is false as stated: after 40 ticks in which every video is still
    running the job is still [generating_videos]; tick 41 fails it, with
    the message [Video generation timed out], not
    [Timeout in GeneratingVideos]. *)
Lemma timeout_message_differs :
  job_status (jobStateOf (Nat.iter 40 (tick allRunning) started3))
  = generating_videos /\
  job_status (jobStateOf (Nat.iter 41 (tick allRunning) started3)) = failed /\
  job_error (jobStateOf (Nat.iter 41 (tick allRunning) started3))
  = Some (Text "Video generation timed out") /\
  job_error (jobStateOf (Nat.iter 41 (tick allRunning) started3))
  <> Some (Text "Timeout in GeneratingVideos").
Proof. vm_compute. repeat split. discriminate. Qed.

(** C7 fails on the code for a job of 67 shots: when the last videos
    arrive, [updateProgress] rounds 201/202 to 100 and [saveState]
    persists progress 100 while the job is still [generating_videos]
    (and then [videos_complete] and [compiling]). *)
Theorem progress_100_before_complete :
  computeProgress (jobStateOf
    (snd (pollFrom allDone 0 67 (true, false) (entered (started 67))))) = 100%Z /\
  filter (fun p => (snd p =? 100)%Z) (snapshots (tick allDone (started 67)))
  = [(generating_videos, 100%Z); (videos_complete, 100%Z);
     (compiling, 100%Z); (complete, 100%Z)].
Proof. vm_compute. auto. Qed.

(** C2 (as amended).  During the image phase an error while generating
    the image of any shot aborts the phase: the job transitions to
    [failed] with the message of the error (or [Image generation failed]),
    no shot is marked [failed], and nothing more is requested: the image
    request that failed is the last external call, and only the failed
    job state is persisted after it. *)
Theorem generateImages_aborts_on_error (env : Services) (l : list Scene)
  (aspectRatio : AspectRatio) (d : DurableObject) (st : VideoJobState)
  (t : Thrown) (d1 : DurableObject) :
  state d = Some st ->
  forEach (generateImagesFor env aspectRatio) l d = (Throw t, d1) ->
  exists st1 earlier prompt,
    state d1 = Some st1 /\
    noNewFailure (scenes st) (scenes st1) /\
    log d1 = log d ++ earlier ++ [Called (GenerateImage prompt aspectRatio)] /\
    snd (generateImages env l aspectRatio d)
    = saved (setError (messageOr "Image generation failed" t)
               (setStatus failed st1)) d1.
Proof.
  intros Hs E.
  destruct (forEach_images _ _ _ _ _ _ _ Hs E) as ((st1 & Hs1 & N) & _ & T).
  destruct (T t eq_refl) as (earlier & prompt & L).
  exists st1, earlier, prompt. repeat split; try assumption.
  unfold generateImages, bindM at 1, theState. rewrite Hs.
  unfold tryCatch, bindM at 1. rewrite E.
  rewrite (failWith_run _ _ _ _ Hs1). reflexivity.
Qed.

(** [generateImages_aborts_on_error] at a concrete input. *)
Lemma generateImages_aborts_on_error_witness :
  state initialized3 = Some stateInitialized3 /\
  forEach (generateImagesFor badImage ar_16_9) (scenesUpTo 3) initialized3
  = (Throw (Error (Text "Flux API error: 400 - Bad Request")), imagesAborted) /\
  exists st1 earlier prompt,
    state imagesAborted = Some st1 /\
    noNewFailure (scenes stateInitialized3) (scenes st1) /\
    log imagesAborted
    = log initialized3 ++ earlier ++ [Called (GenerateImage prompt ar_16_9)] /\
    snd (generateImages badImage (scenesUpTo 3) ar_16_9 initialized3)
    = saved (setError (messageOr "Image generation failed"
                         (Error (Text "Flux API error: 400 - Bad Request")))
               (setStatus failed st1)) imagesAborted.
Proof.
  assert (E : forEach (generateImagesFor badImage ar_16_9) (scenesUpTo 3)
                initialized3
              = (Throw (Error (Text "Flux API error: 400 - Bad Request")),
                 imagesAborted))
    by (vm_compute; reflexivity).
  exact (conj eq_refl (conj E
           (generateImages_aborts_on_error badImage (scenesUpTo 3) ar_16_9
              initialized3 stateInitialized3 _ imagesAborted eq_refl E))).
Defined.

(** C2 is false as stated: when the start image of shot 2 cannot be
    generated, shot 2 is not marked [failed], shot 3 is never processed,
    and the job is [failed] although shot 1 has both its images. *)
Lemma image_error_fails_the_whole_job :
  let d := snd (startGeneration badImage (scenesUpTo 3) ar_16_9 initialized3) in
  map status (scenes (jobStateOf d))
  = [generating_end_image; generating_start_image; scene_pending] /\
  map (fun s => (hasText (startImageUrl s) && hasText (endImageUrl s))%bool)
    (scenes (jobStateOf d)) = [true; false; false] /\
  job_status (jobStateOf d) = failed /\
  job_error (jobStateOf d) = Some (Text "Flux API error: 400 - Bad Request") /\
  filter isExternal (log d)
  = [Called (GenerateImage "start of scene 1" ar_16_9);
     Called (GenerateImage "end of scene 1" ar_16_9);
     Called (GenerateImage "start of scene 2" ar_16_9)].
Proof. vm_compute. auto 6. Qed.

End JobProps.

(* ===================================================================== *)
(** * Owner isolation of the job-status route                             *)
(* ===================================================================== *)

Module ApiProps.
Import Js Api ApiSpec ApiSamples.

(** A colon-free prefix followed by a colon determines the prefix. *)
Lemma colon_split (a u x y : string) :
  noColon a = true -> noColon u = true ->
  a +:+ String ":" x = u +:+ String ":" y -> a = u /\ x = y.
Proof.
  revert u. induction a as [|c a IH]; intros [|c' u] Ha Hu; simpl in *.
  - intros [= ->]. auto.
  - intros [= <- _]. discriminate Hu.
  - intros [= -> _]. discriminate Ha.
  - intros [= -> H]. apply andb_true_iff in Ha as [_ Ha], Hu as [_ Hu].
    destruct (IH u Ha Hu H) as [-> ->]. auto.
Qed.







Lemma namespaced_owner_grows (j u : string) (env : Env)
  (owners : gmap string string) :
  owners !! j = None ->
  namespaced env owners -> namespaced env (<[j := u]> owners).
Proof.
  intros Fresh Inv user j' w Huser H. pose proof (Inv _ _ _ Huser H) as O.
  rewrite lookup_insert_ne; [exact O|]. intros ->. congruence.
Qed.






(** The owner of the job is answered with its state. *)
Example owner_reads_the_job :
  http_status (fst (fst (handleRequest (platform projectUuid) (Some bob)
                           (GetJob jobUuid) afterGenerate))) = 200%nat.
Proof. vm_compute. reflexivity. Qed.

End ApiProps.

(* ===================================================================== *)
(** * Further properties of the parser                                    *)
(* ===================================================================== *)

Module PlanProps.
Import Js Parser Spec TextSpec PlanSpec JsFacts ParserFacts TextProps Samples.

Lemma mapi_Forall {A B : Type} (f : nat -> A -> Outcome B) (P : B -> Prop) :
  (forall k a b, f k a = Ok b -> P b) ->
  forall (l : list A) (i : nat) (l' : list B), mapi f i l = Ok l' -> Forall P l'.
Proof.
  intros Hf l i l' H. apply mapi_lookup in H as [_ H].
  apply Forall_lookup. intros k y Hk. destruct (H k y Hk) as (x & _ & Hx).
  exact (Hf _ _ _ Hx).
Qed.

Lemma mapi_lookup_l {A B : Type} (f : nat -> A -> Outcome B) (l : list A)
  (i : nat) (l' : list B) (k : nat) (x : A) :
  mapi f i l = Ok l' -> l !! k = Some x ->
  exists y, l' !! k = Some y /\ f (i + k)%nat x = Ok y.
Proof.
  intros H Hk. apply mapi_lookup in H as [L H].
  destruct (l' !! k) as [y|] eqn:E.
  - exists y. split; [reflexivity|]. destruct (H k y E) as (x' & Hx & Hy).
    rewrite Hk in Hx. injection Hx as <-. exact Hy.
  - apply lookup_ge_None in E. apply lookup_lt_Some in Hk. lia.
Qed.

Lemma normalizeShot_texts (k : nat) (x y : DirectedShot) :
  normalizeShot k x = Ok y -> Forall trimmed (shotTexts y).
Proof.
  unfold normalizeShot. destruct (trimOptional (colorPalette x)) as [cp|] eqn:E;
    cbn [bind]; [|discriminate].
  intros [= <-]. unfold shotTexts. cbn [startPrompt endPrompt motionPrompt lighting colorPalette].
  repeat (constructor; [apply trim_trimmed|]).
  destruct (colorPalette x); try discriminate; injection E as <-; cbn [app];
    constructor; [apply trim_trimmed|constructor].
Qed.

Lemma normalizeScene_texts (k : nat) (x y : DirectedScene) :
  normalizeScene k x = Ok y -> Forall trimmed (sceneTexts y).
Proof.
  unfold normalizeScene. destruct (mapi normalizeShot 0 (shots x)) as [l|] eqn:E;
    cbn [bind]; [|discriminate].
  intros [= <-]. unfold sceneTexts. cbn [name description mood shots].
  repeat (constructor; [apply trim_trimmed|]).
  apply Forall_flat_map. exact (mapi_Forall _ _ normalizeShot_texts _ _ _ E).
Qed.

(** X1.  Every text of a normalized direction - title, narrative, the
    names, descriptions and moods of its scenes, the prompts, lighting and
    colour palette of its shots - has white space at neither end: its
    first character is none of the 25 white-space characters of
    ECMAScript, and neither is its last. *)
Theorem normalizeDirection_trims_every_text (x y : VideoDirection) :
  normalizeDirection x = Ok y -> Forall trimmed (directionTexts y).
Proof.
  unfold normalizeDirection. destruct (mapi normalizeScene 0 (scenes x)) as [l|] eqn:E;
    cbn [bind]; [|discriminate].
  intros [= <-]. unfold directionTexts. cbn [title narrative scenes].
  repeat (constructor; [apply trim_trimmed|]).
  apply Forall_flat_map. exact (mapi_Forall _ _ normalizeScene_texts _ _ _ E).
Qed.

(** [normalizeDirection_trims_every_text] at a direction whose texts are
    padded with white space of many kinds. *)
Lemma normalizeDirection_trims_every_text_witness :
  normalizeDirection padded = Ok unpadded /\
  Forall trimmed (directionTexts unpadded).
Proof.
  assert (H : normalizeDirection padded = Ok unpadded) by (vm_compute; reflexivity).
  exact (conj H (normalizeDirection_trims_every_text padded unpadded H)).
Defined.

(** The texts of that direction, as normalized. *)
Example normalizeDirection_trims_unicode_spaces :
  directionTexts unpadded
  = ["Forge"; "A night at the forge"; "Night"; "The forge"; "tense";
     "a forge at night"; "the same forge at dawn"; "slow push in";
     "warm firelight"; "amber, black"]%string.
Proof. vm_compute. reflexivity. Qed.

Lemma normalizeShot_kept (j : nat) (x y : DirectedShot) :
  normalizeShot j x = Ok y -> shotKept j x y.
Proof.
  unfold normalizeShot. destruct (trimOptional (colorPalette x)); cbn [bind];
    [|discriminate].
  intros [= <-]. unfold shotKept, orCut.
  cbn [shot_id cameraMove shot_extra transitionOut].
  destruct (truthy (transitionOut x)); repeat split; congruence.
Qed.

Lemma normalizeScene_kept (i : nat) (x y : DirectedScene) :
  normalizeScene i x = Ok y -> sceneKept i x y.
Proof.
  unfold normalizeScene. destruct (mapi normalizeShot 0 (shots x)) as [l|] eqn:E;
    cbn [bind]; [|discriminate].
  intros [= <-]. unfold sceneKept. cbn [scene_id scene_extra shots].
  split; [reflexivity|]. split; [reflexivity|].
  split; [exact (proj1 (mapi_lookup _ _ _ _ E))|].
  intros j hx Hj. destruct (mapi_lookup_l _ _ _ _ _ _ E Hj) as (hy & Hy & N).
  exists hy. split; [exact Hy|]. exact (normalizeShot_kept _ _ _ N).
Qed.

(** X2.  Normalization keeps the shape of a direction and numbers it
    afresh: as many scenes and, in each, as many shots, in the same order;
    the scene at index i gets id i+1 and the shot at index j of a scene id
    j+1, whatever ids they had; camera move, a transition that was given,
    and the properties the parser does not know are kept, and a missing
    transition becomes 'cut'. *)
Theorem normalizeDirection_keeps_shape (x y : VideoDirection) :
  normalizeDirection x = Ok y ->
  length (scenes y) = length (scenes x) /\
  direction_extra y = direction_extra x /\
  forall i sx, scenes x !! i = Some sx ->
    exists sy, scenes y !! i = Some sy /\ sceneKept i sx sy.
Proof.
  unfold normalizeDirection. destruct (mapi normalizeScene 0 (scenes x)) as [l|] eqn:E;
    cbn [bind]; [|discriminate].
  intros [= <-]. cbn [scenes direction_extra].
  split; [exact (proj1 (mapi_lookup _ _ _ _ E))|]. split; [reflexivity|].
  intros i sx Hi. destruct (mapi_lookup_l _ _ _ _ _ _ E Hi) as (sy & Hy & N).
  exists sy. split; [exact Hy|]. exact (normalizeScene_kept _ _ _ N).
Qed.

(** [normalizeDirection_keeps_shape] at a direction whose ids are 7, and
    9 and 4. *)
Lemma normalizeDirection_keeps_shape_witness :
  normalizeDirection untidy = Ok tidy /\
  length (scenes tidy) = length (scenes untidy) /\
  direction_extra tidy = direction_extra untidy /\
  forall i sx, scenes untidy !! i = Some sx ->
    exists sy, scenes tidy !! i = Some sy /\ sceneKept i sx sy.
Proof.
  assert (H : normalizeDirection untidy = Ok tidy) by (vm_compute; reflexivity).
  exact (conj H (normalizeDirection_keeps_shape untidy tidy H)).
Defined.

Lemma normalizeDirection_keeps_shape_aux (x y : VideoDirection) :
  normalizeDirection x = Ok y ->
  length (scenes y) = length (scenes x) /\
  forall i sy, scenes y !! i = Some sy ->
    exists sx, scenes x !! i = Some sx /\ length (shots sy) = length (shots sx).
Proof.
  unfold normalizeDirection. destruct (mapi normalizeScene 0 (scenes x)) as [l|] eqn:E;
    cbn [bind]; [|discriminate].
  intros [= <-]. cbn [scenes]. apply mapi_lookup in E as [L K].
  split; [exact L|]. intros i sy Hi. destruct (K i sy Hi) as (sx & Hx & N).
  exists sx. split; [exact Hx|]. exact (proj1 (proj2 (proj2 (normalizeScene_kept _ _ _ N)))).
Qed.

(** ** What trimming leaves of the checked prompts *)

Lemma checked_prompt (s : string) :
  (20 <= length (splitWs s))%nat ->
  (18 <= length (splitWs (trim s)))%nat /\ allWords (trim s).
Proof.
  intros H. pose proof (splitWs_trim s) as B.
  assert (L : (18 <= length (splitWs (trim s)))%nat) by lia.
  split; [exact L|]. apply trimmed_allWords; [apply trim_trimmed|].
  intros E. rewrite E in L. cbn in L. lia.
Qed.

(** X3.  The validator counts the pieces of a prompt before
    normalization trims it, and white space at the two ends counts for up
    to two pieces.  So in a plan that [parseDirection] returns every
    [startPrompt] and every [endPrompt] has at least 18 words, and its
    split yields nothing but words. *)
Theorem parseDirection_prompts_keep_18_words
  (raw : Value) (input : ValidationInput) (plan : VideoDirection) :
  parseDirection raw input = Ok plan ->
  forall i scene j shot,
    scenes plan !! i = Some scene -> shots scene !! j = Some shot ->
    ((18 <= length (splitWs (startPrompt shot)))%nat /\ allWords (startPrompt shot)) /\
    ((18 <= length (splitWs (endPrompt shot)))%nat /\ allWords (endPrompt shot)).
Proof.
  unfold parseDirection. destruct (validateDirection raw input) as [v|] eqn:V;
    cbn [bind]; [|discriminate].
  intros N i scene j shot Hi Hj.
  pose proof (DirectorProps.accepted_shots_checked raw input v V) as F.
  unfold normalizeDirection in N.
  destruct (mapi normalizeScene 0 (scenes v)) as [l|] eqn:E; cbn [bind] in N;
    [|discriminate].
  injection N as <-. cbn [scenes] in Hi.
  destruct (proj2 (mapi_lookup _ _ _ _ E) i scene Hi) as (sv & Hsv & Ns).
  destruct (Forall2_lookup_r _ _ _ _ _ F Hsv) as (rawScene & _ & _ & Fs).
  unfold normalizeScene in Ns.
  destruct (mapi normalizeShot 0 (shots sv)) as [hs|] eqn:Es; cbn [bind] in Ns;
    [|discriminate].
  injection Ns as <-. cbn [shots] in Hj.
  destruct (proj2 (mapi_lookup _ _ _ _ Es) j shot Hj) as (hv & Hhv & Nh).
  destruct (Forall2_lookup_r _ _ _ _ _ Fs Hhv) as (rawShot & _ & sid & k & Vs).
  apply validateShot_Ok in Vs as (_ & _ & _ & (P1 & P2 & _) & _).
  unfold normalizeShot in Nh. destruct (trimOptional (colorPalette hv));
    cbn [bind] in Nh; [|discriminate].
  injection Nh as <-. cbn [startPrompt endPrompt].
  split; apply checked_prompt; assumption.
Qed.

(** [parseDirection_prompts_keep_18_words] at a plan with a prompt of 18
    words between two spaces. *)
Lemma parseDirection_prompts_keep_18_words_witness :
  exists plan,
    parseDirection rawPadded input10 = Ok plan /\
    forall i scene j shot,
      scenes plan !! i = Some scene -> shots scene !! j = Some shot ->
      ((18 <= length (splitWs (startPrompt shot)))%nat /\ allWords (startPrompt shot)) /\
      ((18 <= length (splitWs (endPrompt shot)))%nat /\ allWords (endPrompt shot)).
Proof.
  destruct (parseDirection rawPadded input10) as [plan|] eqn:H;
    [|vm_compute in H; discriminate H].
  exists plan. split; [reflexivity|].
  exact (parseDirection_prompts_keep_18_words rawPadded input10 plan H).
Defined.

(** ** The caps on scenes and shots *)

Lemma exceeds_effective (n : nat) (cap : option Q) :
  exceeds n (effectiveCap cap) = exceeds n cap.
Proof.
  destruct cap as [m|]; cbn [effectiveCap exceeds]; [|reflexivity].
  destruct (Qeq_bool m 0) eqn:Z; cbn [exceeds negb andb]; [reflexivity|].
  rewrite Z. reflexivity.
Qed.

Lemma exceeds_within (n : nat) (cap : option Q) :
  exceeds n cap = None -> withinCap n cap.
Proof.
  unfold withinCap, effectiveCap, exceeds. destruct cap as [m|]; [|trivial].
  destruct (Qeq_bool m 0); cbn [negb andb]; [trivial|].
  destruct (Qlt_bool m (inject_Z (Z.of_nat n))) eqn:L; [discriminate|].
  intros _. apply Qlt_bool_false. exact L.
Qed.

Lemma validateScene_same_caps (a b : ValidationInput) (i : nat) (x : Value)
  (total : SpecFloat.spec_float) :
  (forall n, exceeds n (maxShotsPerScene a) = exceeds n (maxShotsPerScene b)) ->
  validateScene a i x total = validateScene b i x total.
Proof.
  intros E. unfold validateScene. cbv zeta.
  repeat match goal with
  | |- bind ?m _ = bind ?m _ => destruct m; cbn [bind]; [|reflexivity]
  | |- (if ?c then _ else _) = _ => destruct c; [reflexivity|]
  | |- match ?o with Some _ => _ | None => _ end = _ => destruct o; [|reflexivity]
  end.
  match goal with
  | |- match ?v with _ => _ end = _ => destruct v as [| | | | |[|first more]|]; try reflexivity
  end.
  rewrite E. reflexivity.
Qed.

Lemma validateScenes_same_caps (a b : ValidationInput) :
  (forall n, exceeds n (maxShotsPerScene a) = exceeds n (maxShotsPerScene b)) ->
  forall l i total, validateScenes a i l total = validateScenes b i l total.
Proof.
  intros E. induction l as [|x rest IH]; intros i total; cbn [validateScenes];
    [reflexivity|].
  rewrite (validateScene_same_caps a b i x total E).
  destruct (validateScene b i x total); cbn [bind]; [|reflexivity].
  rewrite IH. reflexivity.
Qed.

Lemma validateDirection_same_caps (a b : ValidationInput) (raw : Value) :
  targetDuration a = targetDuration b ->
  (forall n, exceeds n (maxScenes a) = exceeds n (maxScenes b)) ->
  (forall n, exceeds n (maxShotsPerScene a) = exceeds n (maxShotsPerScene b)) ->
  validateDirection raw a = validateDirection raw b.
Proof.
  intros T E1 E2. unfold validateDirection. cbv zeta.
  repeat match goal with
  | |- bind ?m _ = bind ?m _ => destruct m; cbn [bind]; [|reflexivity]
  | |- (if ?c then _ else _) = _ => destruct c; [reflexivity|]
  | |- match ?o with Some _ => _ | None => _ end = _ => destruct o; [|reflexivity]
  end.
  match goal with
  | |- match ?v with _ => _ end = _ => destruct v as [| | | | |[|first more]|]; try reflexivity
  end.
  rewrite E1, T, (validateScenes_same_caps a b E2). reflexivity.
Qed.

(** X4.  A cap of zero is no cap: [input.maxScenes && ...] and
    [input.maxShotsPerScene && ...] skip the check for 0 as they do for
    an absent cap, so the parser answers the same with the zero caps
    removed. *)
Theorem zero_cap_is_no_cap (raw : Value) (input : ValidationInput) :
  parseDirection raw (effectiveInput input) = parseDirection raw input.
Proof.
  unfold parseDirection.
  rewrite (validateDirection_same_caps (effectiveInput input) input raw);
    [reflexivity|reflexivity|intros n; apply exceeds_effective
    |intros n; apply exceeds_effective].
Qed.

Lemma validateScene_within (input : ValidationInput) (i : nat) (raw : Value)
  (total : SpecFloat.spec_float) (r : DirectedScene * SpecFloat.spec_float) :
  validateScene input i raw total = Ok r ->
  withinCap (length (shots (fst r))) (maxShotsPerScene input).
Proof.
  unfold validateScene. intros H. cbv zeta in H.
  invert_ok H.
  match type of H with
  | match ?x with _ => _ end = _ => destruct x as [| | | | |[|first more]|]; try discriminate H
  end.
  invert_ok H.
  match type of H with
  | match ?x with _ => _ end = _ => destruct x eqn:Ex; [discriminate H|]
  end.
  invert_ok H. injection H as <-. cbn [fst shots].
  match goal with
  | V : validateShots _ _ _ _ = Ok _ |- _ =>
      apply validateShots_Ok in V as [F _];
      rewrite <- (Forall2_length _ _ _ F)
  end.
  apply exceeds_within. exact Ex.
Qed.

Lemma validateScenes_within (input : ValidationInput) (l : list Value) :
  forall (i : nat) (total : SpecFloat.spec_float)
    (r : list DirectedScene * SpecFloat.spec_float),
  validateScenes input i l total = Ok r ->
  Forall (fun scene => withinCap (length (shots scene)) (maxShotsPerScene input))
    (fst r).
Proof.
  induction l as [|x rest IH]; intros i total r H; cbn [validateScenes] in H.
  - injection H as <-. constructor.
  - destruct (validateScene input i x total) as [s|] eqn:E; cbn [bind] in H;
      [|discriminate H].
    destruct (validateScenes input (S i) rest (snd s)) as [r'|] eqn:E';
      cbn [bind] in H; [|discriminate H].
    injection H as <-. cbn [fst]. constructor.
    + exact (validateScene_within _ _ _ _ _ E).
    + exact (IH _ _ _ E').
Qed.

(** X5.  A plan that [parseDirection] returns respects the caps of its
    input: with a non-zero [maxScenes] it has at most that many scenes,
    and with a non-zero [maxShotsPerScene] every scene has at most that
    many shots. *)
Theorem parseDirection_respects_caps
  (raw : Value) (input : ValidationInput) (plan : VideoDirection) :
  parseDirection raw input = Ok plan ->
  withinCap (length (scenes plan)) (maxScenes input) /\
  forall i scene, scenes plan !! i = Some scene ->
    withinCap (length (shots scene)) (maxShotsPerScene input).
Proof.
  unfold parseDirection. destruct (validateDirection raw input) as [v|] eqn:V;
    cbn [bind]; [|discriminate].
  intros N. destruct (normalizeDirection_keeps_shape_aux v plan N) as [L K].
  pose proof (DirectorProps.validated_length raw input v V) as Lv.
  apply validateDirection_Ok in V as (_ & X & total & V & _).
  apply validateScenes_within in V. cbn [fst] in V.
  split.
  - rewrite L, Lv. apply exceeds_within. exact X.
  - intros i scene Hi. destruct (K i scene Hi) as (sv & Hsv & ->).
    exact (proj1 (Forall_lookup _ _) V i sv Hsv).
Qed.

(** [parseDirection_respects_caps] at a plan of one scene of two shots,
    with caps of five scenes and four shots. *)
Lemma parseDirection_respects_caps_witness :
  exists plan,
    parseDirection rawForge input10 = Ok plan /\
    withinCap (length (scenes plan)) (maxScenes input10) /\
    forall i scene, scenes plan !! i = Some scene ->
      withinCap (length (shots scene)) (maxShotsPerScene input10).
Proof.
  destruct (parseDirection rawForge input10) as [plan|] eqn:H;
    [|vm_compute in H; discriminate H].
  exists plan. split; [reflexivity|].
  exact (parseDirection_respects_caps rawForge input10 plan H).
Defined.

End PlanProps.

(* ===================================================================== *)
(** * Further properties of the Director                                  *)
(* ===================================================================== *)

Module DirectorMore.
Import Js Parser Director Spec DirectorSpec ParserFacts Samples.




(** The rejection of a scene without shots, as [direct] reports it. *)
Example direct_reports_the_scene :
  direct hollowLLM request10
  = Throw (Error (Prefixed "AI Director output validation failed: "
                    (Located (Text "Scene must have at least one shot")
                       (Some (JNum 1)) None))).
Proof. vm_compute. reflexivity. Qed.

(** A response that is not JSON, as [direct] reports it. *)
Example direct_reports_invalid_json :
  direct garbledLLM request10
  = Throw (Error (Prefixed "AI Director returned invalid JSON: " badJson)).
Proof. vm_compute. reflexivity. Qed.



End DirectorMore.

(* ===================================================================== *)
(** * Rules for the assertions, and what each method of VideoJob keeps    *)
(* ===================================================================== *)

Module JobRules.
Import Js VideoJob JobSpec JobLogic JobFacts.

(** ** Rules *)

Lemma triple_weaken {A : Type} (P P' : DurableObject -> Prop) (m : M A)
  (Q Q' : A -> DurableObject -> Prop) (E E' : Thrown -> DurableObject -> Prop) :
  triple P m Q E ->
  (forall d, P' d -> P d) -> (forall a d, Q a d -> Q' a d) ->
  (forall t d, E t d -> E' t d) ->
  triple P' m Q' E'.
Proof.
  intros H HP HQ HE d Hd. specialize (H d (HP d Hd)).
  destruct (m d) as [[a|t] d']; auto.
Qed.

Lemma triple_ret {A : Type} (P : DurableObject -> Prop) (a : A)
  (Q : A -> DurableObject -> Prop) (E : Thrown -> DurableObject -> Prop) :
  (forall d, P d -> Q a d) -> triple P (ret a) Q E.
Proof. intros H d Hd. exact (H d Hd). Qed.

Lemma triple_throw {A : Type} (P : DurableObject -> Prop) (t : Thrown)
  (Q : A -> DurableObject -> Prop) (E : Thrown -> DurableObject -> Prop) :
  (forall d, P d -> E t d) -> triple P (throw t) Q E.
Proof. intros H d Hd. exact (H d Hd). Qed.

Lemma triple_bind {A B : Type} (P : DurableObject -> Prop) (m : M A)
  (k : A -> M B) (R : A -> DurableObject -> Prop)
  (Q : B -> DurableObject -> Prop) (E : Thrown -> DurableObject -> Prop) :
  triple P m R E -> (forall a, triple (R a) (k a) Q E) ->
  triple P (bindM m k) Q E.
Proof.
  intros Hm Hk d Hd. unfold bindM. specialize (Hm d Hd).
  destruct (m d) as [[a|t] d']; [exact (Hk a d' Hm)|exact Hm].
Qed.

Lemma triple_tryCatch {A : Type} (P : DurableObject -> Prop) (body : M A)
  (handler : Thrown -> M A) (Q : A -> DurableObject -> Prop)
  (E' E : Thrown -> DurableObject -> Prop) :
  triple P body Q E' -> (forall t, triple (E' t) (handler t) Q E) ->
  triple P (tryCatch body handler) Q E.
Proof.
  intros Hb Hh d Hd. unfold tryCatch. specialize (Hb d Hd).
  destruct (body d) as [[a|t] d']; [exact Hb|exact (Hh t d' Hb)].
Qed.

Lemma triple_update (P : DurableObject -> Prop) (g : DurableObject -> DurableObject)
  (Q : unit -> DurableObject -> Prop) (E : Thrown -> DurableObject -> Prop) :
  (forall d, P d -> Q tt (g d)) -> triple P (update g) Q E.
Proof. intros H d Hd. exact (H d Hd). Qed.

Lemma triple_read {A : Type} (P : DurableObject -> Prop) (f : DurableObject -> A)
  (Q : A -> DurableObject -> Prop) (E : Thrown -> DurableObject -> Prop) :
  (forall d, P d -> Q (f d) d) -> triple P (read f) Q E.
Proof. intros H d Hd. exact (H d Hd). Qed.

Lemma triple_forEach {A : Type} (I : DurableObject -> Prop) (f : A -> M unit)
  (l : list A) (E : Thrown -> DurableObject -> Prop) :
  (forall x, triple I (f x) (fun _ => I) E) ->
  triple I (forEach f l) (fun _ => I) E.
Proof.
  intros H. induction l as [|x rest IH]; cbn [forEach].
  - apply triple_ret. auto.
  - eapply triple_bind; [apply H|]. intros u. exact IH.
Qed.

(** A computation that returns, given by its result. *)
Lemma triple_run {A : Type} (P : DurableObject -> Prop) (m : M A)
  (Q : A -> DurableObject -> Prop) (E : Thrown -> DurableObject -> Prop) :
  (forall d, P d -> exists a d', m d = (Ok a, d') /\ Q a d') ->
  triple P m Q E.
Proof. intros H d Hd. destruct (H d Hd) as (a & d' & -> & Hq). exact Hq. Qed.

Lemma keeps_snd {A : Type} (I : DurableObject -> Prop) (m : M A) (d : DurableObject) :
  keeps I m -> I d -> I (snd (m d)).
Proof.
  intros H Hd. specialize (H d Hd). destruct (m d) as [[a|t] d']; exact H.
Qed.

Lemma triple_returns {A : Type} (I : DurableObject -> Prop) (m : M A)
  (E : Thrown -> DurableObject -> Prop) :
  keeps I m -> returns m -> triple I m (fun _ => I) E.
Proof.
  intros H R d Hd. specialize (H d Hd). destruct (R d) as [a Ha].
  destruct (m d) as [[a'|t] d']; [exact H|discriminate Ha].
Qed.

Lemma keeps_throwing {A : Type} (I : DurableObject -> Prop) (m : M A)
  (E : Thrown -> DurableObject -> Prop) :
  keeps I m -> (forall t d, I d -> E t d) -> triple I m (fun _ => I) E.
Proof.
  intros H HE. eapply triple_weaken; [exact H|auto|auto|exact HE].
Qed.

Lemma saveState_returns : returns saveState.
Proof. intros d. exists tt. unfold saveState. destruct (state d); reflexivity. Qed.

Lemma update_returns (g : DurableObject -> DurableObject) : returns (update g).
Proof. intros d. exists tt. reflexivity. Qed.

(** ** The assertions that are closed *)

Lemma closed_sub (A B : Effect -> Prop) (I : DurableObject -> Prop) :
  (forall e, A e -> B e) -> closed B I -> closed A I.
Proof. intros S C e d Ae. apply C, S, Ae. Qed.

Lemma closed_and (A : Effect -> Prop) (I1 I2 : DurableObject -> Prop) :
  closed A I1 -> closed A I2 -> closed A (fun d => I1 d /\ I2 d).
Proof. intros C1 C2 e d Ae [H1 H2]. split; [apply C1|apply C2]; assumption. Qed.

Lemma Polls_Works (e : Effect) : Polls e -> Works e.
Proof. intros H. apply works_generates, generates_polls, H. Qed.

Lemma Polls_Performs (e : Effect) : Polls e -> Performs e.
Proof. intros H. apply performs_works, Polls_Works, H. Qed.

Lemma Generates_Performs (e : Effect) : Generates e -> Performs e.
Proof. intros H. apply performs_works, works_generates, H. Qed.

Lemma loaded_closed : closed (fun _ => True) loaded.
Proof.
  intros e d _ [st H]. unfold loaded.
  destruct e; cbn [effect state withState record withRow withAlarm
                   withPollAttempts withConfig withRenderId];
    rewrite ?H; cbn [option_map state record withRow]; eauto.
Qed.

Lemma stored_closed : closed (fun _ => True) stored.
Proof.
  intros e d _ [sr H]. unfold stored.
  destruct e; cbn [effect]; try (exists sr; exact H).
  - destruct (state d); [eexists; reflexivity|exists sr; exact H].
  - destruct (state d); exists sr; exact H.
Qed.

Lemma sound_closed (J : VideoJobState -> Prop) :
  stable J -> closed Performs (sound J).
Proof.
  intros [Hf Hp] e d Pe [A B]. unfold sound.
  destruct e; cbn [effect]; try (split; [exact A|exact B]).
  - split; [|exact B]. cbn [state withState].
    destruct (state d) as [st|]; [|discriminate].
    intros st' [= <-]. exact (Hf f st Pe (A st eq_refl)).
  - destruct (state d) as [st|] eqn:Hs.
    + split; cbn [state job_state_row record withRow].
      * rewrite Hs. exact A.
      * intros st' [= <-]. exact (Hp st (A st eq_refl)).
    + split; [rewrite Hs; exact A|exact B].
  - destruct (state d) as [st|] eqn:Hs.
    + split; [rewrite Hs; exact A|exact B].
    + split; [|exact B]. cbn [state withState]. exact B.
Qed.

Lemma inStatus_closed (v : JobStatus) : closed Generates (inStatus v).
Proof.
  intros e d Ge (st & H & Hv). unfold inStatus.
  destruct Ge as [e [i g G|c]| |]; cbn [effect state withState record withRow];
    rewrite ?H; cbn [option_map]; eauto.
Qed.

Lemma polledSince_refl (d : DurableObject) : polledSince d d.
Proof.
  unfold polledSince. repeat split.
  - exists []. rewrite app_nil_r. auto.
  - destruct (state d) as [st|]; [|reflexivity]. exists st. auto 10.
Qed.

Lemma polledSince_closed (d0 : DurableObject) : closed Polls (polledSince d0).
Proof.
  intros e d Pe (R & A & N & (more & L & X) & S). unfold polledSince.
  destruct Pe as [i g G|c]; cbn [effect job_state_row alarmArmed pollAttempts
                                 log state withState record].
  - repeat split; try assumption; [exists more; auto|].
    destruct (state d0) as [st0|].
    + destruct S as (st & Hs & S1 & S2 & S3 & S4 & S5). rewrite Hs.
      cbn [option_map]. eexists. split; [reflexivity|].
      cbn [job_status progress job_error finalVideoUrl scenes setScenes].
      rewrite length_alter. auto.
    + rewrite S. reflexivity.
  - repeat split; try assumption.
    exists (more ++ [Called c]). rewrite L, app_assoc. split; [reflexivity|].
    rewrite forallb_app, X. reflexivity.
Qed.

(** ** What the statements keep *)

Section Keeps.
Variable allowed : Effect -> Prop.
Variable I : DurableObject -> Prop.
Hypothesis C : closed allowed I.

Lemma keeps_ret {A : Type} (a : A) : keeps I (ret a).
Proof. apply triple_ret. auto. Qed.

Lemma keeps_throw {A : Type} (t : Thrown) : keeps I (@throw A t).
Proof. apply triple_throw. auto. Qed.

Lemma keeps_bind {A B : Type} (m : M A) (k : A -> M B) :
  keeps I m -> (forall a, keeps I (k a)) -> keeps I (bindM m k).
Proof. intros Hm Hk. eapply triple_bind; [exact Hm|exact Hk]. Qed.

Lemma keeps_tryCatch {A : Type} (body : M A) (handler : Thrown -> M A) :
  keeps I body -> (forall t, keeps I (handler t)) -> keeps I (tryCatch body handler).
Proof. intros Hb Hh. eapply triple_tryCatch; [exact Hb|exact Hh]. Qed.

Lemma keeps_forEach {A : Type} (f : A -> M unit) (l : list A) :
  (forall x, keeps I (f x)) -> keeps I (forEach f l).
Proof. intros H. apply triple_forEach. exact H. Qed.

Lemma keeps_read {A : Type} (f : DurableObject -> A) : keeps I (read f).
Proof. apply triple_read. auto. Qed.

Lemma keeps_theState : keeps I theState.
Proof. intros d Hd. unfold theState. destruct (state d); exact Hd. Qed.

Lemma keeps_effect (e : Effect) : allowed e -> keeps I (update (effect e)).
Proof. intros Ae. apply triple_update. intros d Hd. exact (C e d Ae Hd). Qed.

Lemma keeps_call {A : Type} (c : Call) (answer : nat -> Outcome A) :
  allowed (Request c) -> keeps I (call c answer).
Proof.
  intros Ae d Hd. unfold call. pose proof (C _ d Ae Hd) as X. cbn [effect] in X.
  destruct (answer (length (log d))); exact X.
Qed.

Lemma keeps_modify (f : VideoJobState -> VideoJobState) :
  allowed (Assign f) -> keeps I (modify f).
Proof. intros Ae. exact (keeps_effect (Assign f) Ae). Qed.

Lemma keeps_saveState : allowed Persist -> keeps I saveState.
Proof.
  intros Ae d Hd. unfold saveState. pose proof (C _ d Ae Hd) as X.
  cbn [effect] in X. destruct (state d); exact X.
Qed.

Lemma keeps_loadState : allowed Reload -> keeps I loadState.
Proof.
  intros Ae d Hd. unfold loadState. pose proof (C _ d Ae Hd) as X.
  cbn [effect] in X. destruct (state d); exact X.
Qed.

Lemma keeps_setAlarm : allowed ArmAlarm -> keeps I setAlarm.
Proof. intros Ae. exact (keeps_effect ArmAlarm Ae). Qed.

End Keeps.

(** The steps of a proof that a method keeps an assertion closed under
    [allowed]; [side] proves that an effect is allowed. *)
Ltac keeps_with C side :=
  repeat (cbv beta;
    lazymatch goal with
    | |- keeps _ (bindM _ _) => apply keeps_bind; [|intros ?]
    | |- keeps _ (tryCatch _ _) => apply keeps_tryCatch; [|intros ?]
    | |- keeps _ (forEach _ _) => apply keeps_forEach; intros ?
    | |- keeps _ (ret _) => apply keeps_ret
    | |- keeps _ (throw _) => apply keeps_throw
    | |- keeps _ (read _) => apply keeps_read
    | |- keeps _ theState => apply keeps_theState
    | |- keeps _ (call _ _) => apply (keeps_call _ _ C); side
    | |- keeps _ saveState => apply (keeps_saveState _ _ C); side
    | |- keeps _ loadState => apply (keeps_loadState _ _ C); side
    | |- keeps _ setAlarm => apply (keeps_setAlarm _ _ C); side
    | |- keeps _ updateProgress => apply (keeps_modify _ _ C); side
    | |- keeps _ (modifyScene _ _) => apply (keeps_modify _ _ C); side
    | |- keeps _ (modify _) => apply (keeps_modify _ _ C); side
    | |- keeps _ (failWith _ _) => unfold failWith
    | |- keeps _ (update (withAlarm false)) =>
        apply (keeps_effect _ _ C ClearAlarm); side
    | |- keeps _ (update (withPollAttempts 0)) =>
        apply (keeps_effect _ _ C ResetPolls); side
    | |- keeps _ (update (fun d => withPollAttempts (S (pollAttempts d)) d)) =>
        apply (keeps_effect _ _ C CountPoll); side
    | |- keeps _ (update (withConfig ?l ?a)) =>
        apply (keeps_effect _ _ C (Configure l a)); side
    | |- keeps _ (update (withRenderId ?r)) =>
        apply (keeps_effect _ _ C (NoteRender r)); side
    | |- keeps _ (match ?x with _ => _ end) => destruct x eqn:?
    | |- keeps _ (if ?b then _ else _) => destruct b eqn:?
    end).

Ltac polls := first [apply polls_request | apply polls_scene; constructor].

Ltac generates :=
  first [ exact generates_progress | exact generates_save
        | apply generates_polls; polls ].

Ltac works :=
  first [ apply works_generates; generates
        | exact works_sort | exact works_armAlarm
        | apply works_fail | apply works_noteRender
        | apply works_status; discriminate
        | apply works_complete; assumption ].

Ltac performs :=
  first [ apply performs_works; works
        | exact performs_load | exact performs_clearAlarm
        | exact performs_countPoll | exact performs_resetPolls
        | apply performs_updatedAt | apply performs_configure ].

(** ** What the methods keep *)

Section Methods.
Variable env : Services.
Variable I : DurableObject -> Prop.

Lemma keeps_pollScene (i : nat) (flags : bool * bool) :
  closed Polls I -> keeps I (pollScene env i flags).
Proof. intros C. unfold pollScene. keeps_with C polls. Qed.

Lemma keeps_pollFrom (count : nat) :
  closed Polls I ->
  forall (i : nat) (flags : bool * bool), keeps I (pollFrom env i count flags).
Proof.
  intros C. induction count as [|k IH]; intros i flags; cbn [pollFrom].
  - apply keeps_ret.
  - apply keeps_bind; [apply keeps_pollScene, C|]. intros flags'. apply IH.
Qed.

Lemma keeps_submitFor (aspectRatio : AspectRatio) (scene : Scene) :
  closed Polls I -> keeps I (submitFor env aspectRatio scene).
Proof. intros C. unfold submitFor. keeps_with C polls. Qed.

Lemma keeps_generateImagesFor (aspectRatio : AspectRatio) (scene : Scene) :
  closed Generates I -> keeps I (generateImagesFor env aspectRatio scene).
Proof. intros C. unfold generateImagesFor, firstUrl. keeps_with C generates. Qed.

(** *** Compilation and the alarm past its guards *)

Section Working.
Hypothesis C : closed Works I.

Lemma keeps_pollRenderLoop (renderId : string) (remaining : nat) :
  keeps I (pollRenderLoop env renderId remaining).
Proof.
  induction remaining as [|k IH]; cbn [pollRenderLoop].
  - apply keeps_throw.
  - apply keeps_bind; [apply (keeps_call _ _ C); works|]. intros render.
    destruct (renderSucceeded (render_status render) && hasText (render_url render))%bool
      eqn:Hr.
    + apply andb_true_iff in Hr as [_ U]. keeps_with C works.
    + destruct (renderFailed (render_status render)); [apply keeps_throw|exact IH].
Qed.

Lemma keeps_compileVideo : keeps I (compileVideo env).
Proof.
  unfold compileVideo, pollRenderCompletion.
  keeps_with C works; apply keeps_pollRenderLoop.
Qed.

Lemma keeps_pollBody (count : nat) : keeps I (pollBody env count).
Proof.
  unfold pollBody.
  keeps_with C works;
    first [ apply keeps_pollFrom, (closed_sub _ _ _ Polls_Works C)
          | apply keeps_compileVideo ].
Qed.

End Working.

(** *** The public methods *)

Hypothesis C : closed Performs I.

Lemma keeps_alarm : keeps I (alarm env).
Proof.
  unfold alarm.
  keeps_with C performs;
    first [ apply keeps_pollFrom, (closed_sub _ _ _ Polls_Performs C)
          | apply keeps_compileVideo, (closed_sub _ _ _ performs_works C) ].
Qed.

Lemma keeps_startVideoGeneration (l : list Scene) (aspectRatio : AspectRatio) :
  keeps I (startVideoGeneration env l aspectRatio).
Proof.
  unfold startVideoGeneration.
  keeps_with C performs;
    apply keeps_submitFor, (closed_sub _ _ _ Polls_Performs C).
Qed.

Lemma keeps_generateImages (l : list Scene) (aspectRatio : AspectRatio) :
  keeps I (generateImages env l aspectRatio).
Proof.
  unfold generateImages.
  keeps_with C performs;
    first [ apply keeps_generateImagesFor,
              (closed_sub _ _ _ Generates_Performs C)
          | apply keeps_startVideoGeneration ].
Qed.

Lemma keeps_startGeneration (l : list Scene) (aspectRatio : AspectRatio) :
  keeps I (startGeneration env l aspectRatio).
Proof.
  unfold startGeneration. keeps_with C performs; apply keeps_generateImages.
Qed.

End Methods.

End JobRules.

(* ===================================================================== *)
(** * Invariants of the life of a job                                     *)
(* ===================================================================== *)

Module JobInvariants.
Import Js VideoJob JobSpec JobLogic JobMoreSpec JobFacts JobRules JobSamples.

(** ** The edits and the ids of the scenes *)

Lemma SceneEdit_sceneId (g : SceneJobState -> SceneJobState) (s : SceneJobState) :
  SceneEdit g -> sceneId (g s) = sceneId s.
Proof. intros []; reflexivity. Qed.

Lemma alter_sceneId (g : SceneJobState -> SceneJobState) (i : nat)
  (l : list SceneJobState) :
  SceneEdit g -> map sceneId (alter g i l) = map sceneId l.
Proof.
  intros G. revert i. induction l as [|x rest IH]; intros [|i]; cbn; try reflexivity.
  - rewrite (SceneEdit_sceneId g x G). reflexivity.
  - rewrite IH. reflexivity.
Qed.

Lemma insertBySceneId_perm (x : SceneJobState) (l : list SceneJobState) :
  insertBySceneId x l ≡ₚ x :: l.
Proof.
  induction l as [|y rest IH]; cbn [insertBySceneId]; [reflexivity|].
  destruct (sceneId x <=? sceneId y)%Z; [reflexivity|].
  rewrite IH. apply Permutation_swap.
Qed.

Lemma sortBySceneId_perm (l : list SceneJobState) : sortBySceneId l ≡ₚ l.
Proof.
  unfold sortBySceneId. induction l as [|x rest IH]; cbn [fold_right]; [reflexivity|].
  rewrite insertBySceneId_perm, IH. reflexivity.
Qed.

Ltac invert_performs H f :=
  let W := fresh "W" in
  let G := fresh "G" in
  let X := fresh "X" in
  let Y := fresh "Y" in
  inversion H as [? W| | | | | |];
  [inversion W as [? G| | | | | |];
   [inversion G as [? X| |]; [inversion X as [? ? Y|]|]| | | |]|];
  try subst f.

Lemma sameJob_stable (jobId projectId : string) (ids : list Z) :
  stable (sameJob jobId projectId ids).
Proof.
  split.
  - intros f st Pf (A & B & P). invert_performs Pf f;
      (split; [exact A|split; [exact B|]]);
      cbn [scenes setScenes setProgress setStatus setUpdatedAt setError
           setFinalVideoUrl]; try exact P.
    + rewrite alter_sceneId by assumption. exact P.
    + rewrite sortBySceneId_perm. exact P.
  - intros st H. exact H.
Qed.

(** ** The edits and the progress *)

Lemma hasText_orNull (u : option string) : hasText (orNull u) = hasText u.
Proof. unfold orNull. destruct (hasText u) eqn:E; [exact E|reflexivity]. Qed.

Lemma computeProgress_complete (st : VideoJobState) :
  job_status st = complete -> computeProgress st = 100%Z.
Proof.
  intros H. unfold computeProgress. rewrite H. cbn [isComplete].
  set (t := (Z.of_nat (length (scenes st)) * 3 + 1)%Z).
  assert (Ht : (0 < t)%Z) by (unfold t; lia).
  unfold round.
  assert (E : (inject_Z t / inject_Z t * 100 + (1 # 2) == 201 # 2)%Q).
  { destruct t as [|p|p]; try lia.
    unfold Qeq, Qdiv, Qmult, Qinv, Qplus, inject_Z. cbn. lia. }
  rewrite E. reflexivity.
Qed.

Lemma progressSound_stable : stable progressSound.
Proof.
  split.
  - intros f st Pf [R D]. invert_performs Pf f; unfold progressSound;
      cbn [progress job_status finalVideoUrl setScenes setProgress setStatus
           setUpdatedAt setError setFinalVideoUrl].
    + split; [exact R|exact D].
    + split; [apply computeProgress_range|]. intros Hc.
      split; [exact (proj1 (D Hc))|exact (computeProgress_complete st Hc)].
    + split; [exact R|]. intros Hc. congruence.
    + split; [exact R|exact D].
    + split; [exact R|]. discriminate.
    + split; [lia|]. intros _. split; [|reflexivity].
      match goal with U : hasText ?u = true |- _ =>
        destruct u as [s|]; [exact U|discriminate U] end.
    + split; [exact R|exact D].
  - intros st [R D]. unfold progressSound.
    cbn [progress job_status finalVideoUrl persisted].
    rewrite hasText_orNull. split; [exact R|exact D].
Qed.

(** ** From the initialization on *)

Lemma lifecycle_invariant (J : VideoJobState -> Prop) (jobId projectId : string)
  (l : list Scene) :
  stable J ->
  (forall env st,
     state (snd (initialize env jobId projectId l fresh)) = Some st -> J st) ->
  forall d, lifecycle jobId projectId l d -> sound J d /\ stored d.
Proof.
  intros St Init d L.
  assert (C : closed Performs (fun d => sound J d /\ stored d)).
  { apply closed_and; [apply sound_closed, St|].
    apply (closed_sub _ (fun _ => True)); [auto|apply stored_closed]. }
  induction L as [env|env l' ar d L IH|env d L IH|d L IH|d L IH].
  - split; [split|].
    + apply Init.
    + cbn. intros st [= <-]. apply (proj2 St). apply (Init env). reflexivity.
    + eexists. reflexivity.
  - apply keeps_snd; [|exact IH]. apply keeps_startGeneration, C.
  - apply keeps_snd; [|exact IH]. apply keeps_alarm, C.
  - apply keeps_snd; [|exact IH].
    apply (keeps_loadState _ _ C). exact performs_load.
  - destruct IH as [[A B] S]. split; [split|exact S].
    + cbn. discriminate.
    + exact B.
Qed.

Lemma lifecycle_sound (J : VideoJobState -> Prop) (jobId projectId : string)
  (l : list Scene) :
  stable J ->
  (forall env st,
     state (snd (initialize env jobId projectId l fresh)) = Some st -> J st) ->
  forall d, lifecycle jobId projectId l d ->
  exists st, current d = Some st /\ J st.
Proof.
  intros St Init d L.
  destruct (lifecycle_invariant J jobId projectId l St Init d L) as [[A B] [sr Hr]].
  unfold current.
  destruct (state d) as [st|] eqn:Hs.
  - exists st. split; [reflexivity|]. exact (A st eq_refl).
  - exists sr. split; [exact Hr|]. exact (B sr Hr).
Qed.

(** X7.  A job stays the job it was initialized as.  Whatever requests
    to start, alarms, reads and evictions follow its initialization, and
    whatever the services answer, the job state keeps its id and its
    project, and its scenes keep the ids of the scenes it was initialized
    with: none is added, dropped or renumbered. *)
Theorem job_identity_is_kept (jobId projectId : string) (l : list Scene)
  (d : DurableObject) :
  lifecycle jobId projectId l d ->
  exists st, current d = Some st /\ sameJob jobId projectId (map id l) st.
Proof.
  apply lifecycle_sound; [apply sameJob_stable|].
  intros env st. cbn. intros [= <-]. unfold sameJob. cbn.
  split; [reflexivity|]. split; [reflexivity|].
  rewrite map_map. reflexivity.
Qed.

(** In the life of a job, the state in memory and the stored row carry
    the id of that job. *)
Lemma lifecycle_ids (jobId projectId : string) (l : list Scene)
  (d : DurableObject) :
  lifecycle jobId projectId l d ->
  sound (fun st => job_id st = jobId) d.
Proof.
  intros L.
  destruct (lifecycle_invariant (sameJob jobId projectId (map id l))
              jobId projectId l (sameJob_stable _ _ _)) with (d := d)
    as [[A B] _]; [|exact L|].
  - intros env st. cbn. intros [= <-]. unfold sameJob. cbn.
    split; [reflexivity|]. split; [reflexivity|]. rewrite map_map. reflexivity.
  - split; intros st H; [exact (proj1 (A st H))|exact (proj1 (B st H))].
Qed.

Lemma jobOfTwo_lifecycle : lifecycle "job-1" "project-1" (scenesUpTo 2) jobOfTwo.
Proof. apply life_alarm, life_evict, life_start, life_initialize. Qed.

(** [job_identity_is_kept] at a job of two scenes that was started,
    evicted and polled. *)
Lemma job_identity_is_kept_witness :
  lifecycle "job-1" "project-1" (scenesUpTo 2) jobOfTwo /\
  exists st, current jobOfTwo = Some st /\
             sameJob "job-1" "project-1" (map id (scenesUpTo 2)) st.
Proof.
  refine (conj jobOfTwo_lifecycle _).
  exact (job_identity_is_kept "job-1" "project-1" (scenesUpTo 2) jobOfTwo
           jobOfTwo_lifecycle).
Defined.

(** X8.  Throughout the life of a job its progress is a percentage, and
    a job that is [complete] has its final video and a progress of 100. *)
Theorem job_progress_is_sound (jobId projectId : string) (l : list Scene)
  (d : DurableObject) :
  lifecycle jobId projectId l d ->
  exists st, current d = Some st /\ progressSound st.
Proof.
  apply lifecycle_sound; [apply progressSound_stable|].
  intros env st. cbn. intros [= <-]. split; [cbn; lia|discriminate].
Qed.

(** [job_progress_is_sound] at the same job. *)
Lemma job_progress_is_sound_witness :
  lifecycle "job-1" "project-1" (scenesUpTo 2) jobOfTwo /\
  exists st, current jobOfTwo = Some st /\ progressSound st.
Proof.
  refine (conj jobOfTwo_lifecycle _).
  exact (job_progress_is_sound "job-1" "project-1" (scenesUpTo 2) jobOfTwo
           jobOfTwo_lifecycle).
Defined.

End JobInvariants.

(* ===================================================================== *)
(** * Further properties of the VideoJob state machine                    *)
(* ===================================================================== *)

Module JobMore.
Import Js VideoJob JobSpec JobLogic JobHttp JobMoreSpec JobFacts JobRules
  JobInvariants JobSamples.

Lemma fail_now (m : Message) (d : DurableObject) (st : VideoJobState) :
  state d = Some st ->
  (modify (fun st => setError m (setStatus failed st)) ;; saveState) d
  = (Ok tt, saved (setError m (setStatus failed st)) d).
Proof.
  intros Hs. unfold bindM, modify, update, saveState, saved.
  cbn [state withState]. rewrite Hs. reflexivity.
Qed.

Lemma loaded_everywhere (allowed : Effect -> Prop) : closed allowed loaded.
Proof. apply (closed_sub _ (fun _ => True)); [auto|apply loaded_closed]. Qed.

Lemma triple_loadState (E : Thrown -> DurableObject -> Prop) :
  triple (fun d => exists st, current d = Some st) loadState
    (fun a d => exists st, a = Some st /\ state d = Some st) E.
Proof.
  intros d [st H]. unfold loadState, current in *.
  destruct (state d) as [st'|] eqn:Hs.
  - exists st'. auto.
  - cbn [state withState]. exists st. auto.
Qed.

Lemma triple_theState (E : Thrown -> DurableObject -> Prop) :
  triple loaded theState (fun _ => loaded) E.
Proof.
  intros d [st H]. unfold theState. rewrite H. exists st. exact H.
Qed.

(** ** Where [alarm] leaves a job *)

Lemma alarm_triple (env : Services) :
  triple (fun d => exists st, current d = Some st) (alarm env)
    (fun _ => settled) (fun _ _ => False).
Proof.
  unfold alarm.
  eapply triple_bind.
  { apply triple_update with (Q := fun _ d => exists st, current d = Some st).
    intros d H. exact H. }
  intros u0. eapply triple_bind; [apply triple_loadState|].
  intros [st|]; [|intros d (st & X & _); discriminate X].
  destruct (isComplete (job_status st) || isFailed (job_status st))%bool eqn:T.
  { apply triple_ret. intros d (st' & X & Hs). injection X as <-.
    exists st. split; [exact Hs|].
    destruct (job_status st); try discriminate T; auto. }
  eapply triple_bind.
  { apply triple_update with (Q := fun _ => loaded).
    intros d (st' & _ & Hs). exists st'. exact Hs. }
  intros u1. eapply triple_bind.
  { apply triple_read with (Q := fun _ => loaded). auto. }
  intros attempts. destruct (Nat.ltb MAX_POLL_ATTEMPTS attempts).
  { apply triple_run. intros d [st' Hs]. eexists _, _.
    split; [apply fail_now, Hs|]. eexists. split; [reflexivity|]. auto. }
  eapply triple_tryCatch with (E' := fun _ => loaded).
  2:{ intros t. apply triple_update. intros d [st' Hs]. exists st'.
      split; [exact Hs|]. auto. }
  eapply triple_bind; [apply keeps_pollFrom, loaded_everywhere|].
  intros flags. cbv beta.
  eapply triple_bind;
    [apply (keeps_modify _ _ (loaded_everywhere (fun _ => True))); exact I|].
  intros u2. eapply triple_bind;
    [apply (keeps_saveState _ _ (loaded_everywhere (fun _ => True))); exact I|].
  intros u3. destruct (snd flags).
  { apply triple_run. intros d [st' Hs]. eexists _, _.
    split; [apply fail_now, Hs|]. eexists. split; [reflexivity|]. auto. }
  destruct (fst flags).
  - eapply triple_bind;
      [apply (keeps_modify _ _ (loaded_everywhere (fun _ => True))); exact I|].
    intros u4. eapply triple_bind;
      [apply (keeps_saveState _ _ (loaded_everywhere (fun _ => True))); exact I|].
    intros u5. apply triple_run. intros d [st' Hs].
    destruct (compileVideo_outcome env d st' Hs)
      as (d' & st'' & more & R & Hs'' & CF & _).
    exists tt, d'. split; [exact R|]. exists st''. split; [exact Hs''|].
    destruct CF as [F|[Cm _]]; auto.
  - apply triple_update. intros d [st' Hs]. exists st'. split; [exact Hs|]. auto.
Qed.

(** X9.  An alarm never leaves a job hanging.  Whatever the services
    answer or throw, a tick on an initialized job returns, and leaves the
    job [complete], [failed], or with the alarm armed for the next
    tick. *)
Theorem alarm_settles (env : Services) (d : DurableObject) (st : VideoJobState) :
  current d = Some st ->
  fst (alarm env d) = Ok tt /\ settled (snd (alarm env d)).
Proof.
  intros H. pose proof (alarm_triple env d (ex_intro _ st H)) as T.
  destruct (alarm env d) as [[[]|t] d']; [split; [reflexivity|exact T]|destruct T].
Qed.

(** [alarm_settles] at a job of three shots: when every video is still
    running, and when shot 2 fails. *)
Lemma alarm_settles_witness :
  (fst (alarm allRunning started3) = Ok tt /\ settled (snd (alarm allRunning started3))) /\
  (fst (alarm shot2Fails started3) = Ok tt /\ settled (snd (alarm shot2Fails started3))).
Proof.
  split.
  - exact (alarm_settles allRunning started3 state3 eq_refl).
  - exact (alarm_settles shot2Fails started3 state3 eq_refl).
Defined.

(** ** Where [startGeneration] leaves a job *)

Lemma failWith_launched (fallback : string) (t : Thrown) :
  triple loaded (failWith fallback t) (fun _ => launched) (fun _ _ => False).
Proof.
  apply triple_run. intros d [st Hs]. eexists _, _.
  split; [apply failWith_run, Hs|]. eexists. split; [reflexivity|].
  split; [reflexivity|]. left. split; [reflexivity|discriminate].
Qed.

Lemma startVideoGeneration_triple (env : Services) (l : list Scene)
  (aspectRatio : AspectRatio) :
  triple loaded (startVideoGeneration env l aspectRatio)
    (fun _ => launched) (fun _ _ => False).
Proof.
  unfold startVideoGeneration.
  eapply triple_bind; [apply triple_theState|]. intros st0.
  eapply triple_bind.
  { apply triple_update with (Q := fun _ => inStatus generating_videos).
    intros d [st Hs]. eexists. cbn [state withState]. rewrite Hs.
    split; reflexivity. }
  intros u0. eapply triple_bind.
  { apply triple_returns; [|apply saveState_returns].
    apply (keeps_saveState _ _ (inStatus_closed generating_videos)),
      generates_save. }
  intros u1. eapply triple_tryCatch with (E' := fun _ => loaded);
    [|intros t; apply failWith_launched].
  eapply triple_bind.
  { apply keeps_throwing.
    - apply keeps_forEach. intros scene.
      apply keeps_submitFor,
        (closed_sub _ _ _ generates_polls (inStatus_closed generating_videos)).
    - intros t d (st & Hs & _). exists st. exact Hs. }
  intros u2. cbv beta. apply triple_run. intros d (st & Hs & Hv).
  eexists tt, _. split.
  { unfold bindM, updateProgress, modify, update, saveState, setAlarm.
    cbn [state withState record withRow withPollAttempts withAlarm].
    rewrite Hs. reflexivity. }
  eexists. split; [reflexivity|]. split; [reflexivity|]. right.
  split; [exact Hv|]. split; reflexivity.
Qed.

Lemma generateImages_triple (env : Services) (l : list Scene)
  (aspectRatio : AspectRatio) :
  triple loaded (generateImages env l aspectRatio)
    (fun _ => launched) (fun _ _ => False).
Proof.
  unfold generateImages.
  eapply triple_bind; [apply triple_theState|]. intros st0.
  eapply triple_tryCatch with (E' := fun _ => loaded);
    [|intros t; apply failWith_launched].
  eapply triple_bind.
  { apply keeps_forEach. intros scene.
    apply keeps_generateImagesFor, loaded_everywhere. }
  intros u0. eapply triple_bind;
    [apply (keeps_modify _ _ (loaded_everywhere (fun _ => True))); exact I|].
  intros u1. eapply triple_bind;
    [apply (keeps_modify _ _ (loaded_everywhere (fun _ => True))); exact I|].
  intros u2. eapply triple_bind;
    [apply (keeps_saveState _ _ (loaded_everywhere (fun _ => True))); exact I|].
  intros u3. eapply triple_weaken;
    [apply startVideoGeneration_triple|auto|auto|intros t d []].
Qed.

Lemma startGeneration_triple (env : Services) (l : list Scene)
  (aspectRatio : AspectRatio) :
  triple (fun d => exists st, current d = Some st)
    (startGeneration env l aspectRatio)
    (fun _ => launched) (fun _ _ => False).
Proof.
  unfold startGeneration.
  eapply triple_bind with (R := fun _ => loaded).
  { intros d H. pose proof (triple_loadState (fun _ _ => False) d H) as X.
    revert X. destruct (loadState d) as [[a|t] d']; [|auto].
    intros (st & _ & Hs). exists st. exact Hs. }
  intros loadedState. eapply triple_bind; [apply triple_theState|]. intros st0.
  eapply triple_bind.
  { apply triple_update with (Q := fun _ => loaded). intros d H. exact H. }
  intros u0. eapply triple_bind.
  { apply triple_update with (Q := fun _ => loaded).
    intros d [st Hs]. eexists. cbn [state withState]. rewrite Hs. reflexivity. }
  intros u1. eapply triple_bind.
  { apply triple_read with (Q := fun _ => loaded). auto. }
  intros stamp. eapply triple_bind.
  { apply triple_update with (Q := fun _ => loaded).
    intros d [st Hs]. eexists. cbn [state withState]. rewrite Hs. reflexivity. }
  intros u2. eapply triple_bind.
  { apply triple_returns; [|apply saveState_returns].
    apply (keeps_saveState _ _ (loaded_everywhere (fun _ => True))). exact I. }
  intros u3. apply generateImages_triple.
Qed.

Lemma withState_same (d : DurableObject) : withState (state d) d = d.
Proof. destruct d. reflexivity. Qed.

Lemma startGeneration_uninitialized (env : Services) (l : list Scene)
  (aspectRatio : AspectRatio) (d : DurableObject) :
  current d = None ->
  startGeneration env l aspectRatio d
  = (Throw (Error (Text "Job not initialized")), d).
Proof.
  unfold current. intros H. destruct (state d) as [st|] eqn:Hs; [discriminate|].
  unfold startGeneration, bindM, loadState, theState. rewrite Hs, H.
  cbn [state withState]. rewrite <- Hs at 1. rewrite withState_same. reflexivity.
Qed.

Lemma startGeneration_initialized (env : Services) (l : list Scene)
  (aspectRatio : AspectRatio) (d : DurableObject) (st : VideoJobState) :
  current d = Some st ->
  fst (startGeneration env l aspectRatio d) = Ok tt /\
  launched (snd (startGeneration env l aspectRatio d)).
Proof.
  intros H.
  pose proof (startGeneration_triple env l aspectRatio d (ex_intro _ st H)) as T.
  destruct (startGeneration env l aspectRatio d) as [[[]|t] d'];
    [split; [reflexivity|exact T]|destruct T].
Qed.

(** X10.  Where [startGeneration] leaves a job.  On an object that was
    never initialized it throws 'Job not initialized' and changes
    nothing.  On an initialized job it returns, whatever the services
    answer or throw - an error of the image or video service is recorded
    in the job, not thrown; what is stored is then what is in memory, and
    the job is [failed] with an error, or [generating_videos] with the
    poll counter at 0 and the alarm armed. *)
Theorem startGeneration_launches (env : Services) (l : list Scene)
  (aspectRatio : AspectRatio) (d : DurableObject) :
  (current d = None ->
   startGeneration env l aspectRatio d
   = (Throw (Error (Text "Job not initialized")), d)) /\
  (forall st, current d = Some st ->
   fst (startGeneration env l aspectRatio d) = Ok tt /\
   launched (snd (startGeneration env l aspectRatio d))).
Proof.
  split.
  - apply startGeneration_uninitialized.
  - intros st. apply startGeneration_initialized.
Qed.

(** [startGeneration_launches] at a job of three scenes: with services
    that answer, and with an image service that fails. *)
Lemma startGeneration_launches_witness :
  (fst (startGeneration allDone (scenesUpTo 3) ar_16_9 initialized3) = Ok tt /\
   launched (snd (startGeneration allDone (scenesUpTo 3) ar_16_9 initialized3))) /\
  (fst (startGeneration badImage (scenesUpTo 3) ar_16_9 initialized3) = Ok tt /\
   launched (snd (startGeneration badImage (scenesUpTo 3) ar_16_9 initialized3))).
Proof.
  split.
  - exact (proj2 (startGeneration_launches allDone (scenesUpTo 3) ar_16_9 initialized3)
             stateInitialized3 eq_refl).
  - exact (proj2 (startGeneration_launches badImage (scenesUpTo 3) ar_16_9 initialized3)
             stateInitialized3 eq_refl).
Defined.

(** ** An alarm that has nothing to do *)

(** X11.  An alarm on a job that is [complete] or [failed], or on an
    object that holds no job, does nothing: it makes no request, saves
    nothing, counts no poll and arms no alarm.  All it leaves is the job
    state loaded into memory if it was not, and the alarm that fired
    cleared. *)
Theorem alarm_is_idle_when_done (env : Services) (d : DurableObject) :
  match current d with
  | Some st => running st = false
  | None => True
  end ->
  alarm env d = (Ok tt, withState (current d) (withAlarm false d)).
Proof.
  unfold alarm, bindM, update, loadState, current. cbn [state withAlarm job_state_row].
  destruct (state d) as [st|] eqn:Hs.
  - intros R. unfold running in R. apply negb_false_iff in R. rewrite R.
    unfold ret. f_equal. rewrite <- Hs. symmetry. apply (withState_same (withAlarm false d)).
  - destruct (job_state_row d) as [sr|]; [|reflexivity].
    intros R. unfold running in R. apply negb_false_iff in R. rewrite R. reflexivity.
Qed.

(** [alarm_is_idle_when_done] at the job that has timed out, evicted
    from memory. *)
Lemma alarm_is_idle_when_done_witness :
  alarm allDone (evict (tick allRunning after40))
  = (Ok tt, withState (current (evict (tick allRunning after40)))
              (withAlarm false (evict (tick allRunning after40)))).
Proof.
  apply (alarm_is_idle_when_done allDone (evict (tick allRunning after40))).
  vm_compute. reflexivity.
Defined.

(** ** A poll that throws *)

Lemma pollBody_throws (env : Services) (count : nat) (d : DurableObject)
  (t : Thrown) (d1 : DurableObject) :
  pollFrom env 0 count (true, false) d = (Throw t, d1) ->
  pollBody env count d = setAlarm d1.
Proof. intros P. unfold pollBody, tryCatch, bindM. rewrite P. reflexivity. Qed.

(** X12.  An error while polling is taken as transient.  When a request
    of the poll loop throws, in a tick on a running job within its 40
    attempts, [alarm] returns all the same, with the alarm armed again.
    The tick has saved nothing, has logged requests only, and has left
    the status, the progress and the error of the job as they were; only
    the poll counter has advanced. *)
Theorem alarm_retries_after_error (env : Services) (d : DurableObject)
  (st : VideoJobState) (t : Thrown) (d1 : DurableObject) :
  state d = Some st ->
  running st = true ->
  (pollAttempts d < MAX_POLL_ATTEMPTS)%nat ->
  pollFrom env 0 (length (scenes st)) (true, false) (entered d) = (Throw t, d1) ->
  let d' := snd (alarm env d) in
  fst (alarm env d) = Ok tt /\
  alarmArmed d' = true /\
  pollAttempts d' = S (pollAttempts d) /\
  job_state_row d' = job_state_row d /\
  (exists requests,
     log d' = log d ++ requests ++ [AlarmSet POLL_INTERVAL_MS] /\
     forallb isExternal requests = true) /\
  exists st', state d' = Some st' /\ job_status st' = job_status st /\
              progress st' = progress st /\ job_error st' = job_error st.
Proof.
  intros Hs R A P. cbv zeta.
  rewrite (alarm_polls env d st Hs R A), (pollBody_throws env _ _ t d1 P).
  cbn [fst snd setAlarm update].
  pose proof (keeps_pollFrom env _ (length (scenes st))
                (polledSince_closed (entered d)) 0%nat (true, false)
                (entered d) (polledSince_refl _)) as K.
  rewrite P in K. destruct K as (Kr & Ka & Kn & (more & Kl & Kx) & Kst).
  cbn [state entered withPollAttempts withAlarm] in Kst. rewrite Hs in Kst.
  destruct Kst as (st' & Hs' & S1 & S2 & S3 & _).
  cbn [alarmArmed pollAttempts job_state_row log state record withAlarm].
  split; [reflexivity|]. split; [reflexivity|]. split; [exact Kn|].
  split; [exact Kr|]. split.
  - exists more. rewrite Kl. cbn [log entered withPollAttempts withAlarm].
    rewrite <- app_assoc. auto.
  - exists st'. auto.
Qed.

(** [alarm_retries_after_error] at a job of three shots, when fal.ai
    cannot be reached. *)
Lemma alarm_retries_after_error_witness :
  exists t d1,
    pollFrom unreachable 0 (length (scenes state3)) (true, false) (entered started3)
    = (Throw t, d1) /\
    let d' := snd (alarm unreachable started3) in
    fst (alarm unreachable started3) = Ok tt /\
    alarmArmed d' = true /\
    pollAttempts d' = S (pollAttempts started3) /\
    job_state_row d' = job_state_row started3 /\
    (exists requests,
       log d' = log started3 ++ requests ++ [AlarmSet POLL_INTERVAL_MS] /\
       forallb isExternal requests = true) /\
    exists st', state d' = Some st' /\ job_status st' = job_status state3 /\
                progress st' = progress state3 /\ job_error st' = job_error state3.
Proof.
  destruct (pollFrom unreachable 0 (length (scenes state3)) (true, false)
              (entered started3)) as [[flags|t] d1] eqn:P;
    [vm_compute in P; discriminate P|].
  exists t, d1. split; [reflexivity|].
  assert (A : (pollAttempts started3 < MAX_POLL_ATTEMPTS)%nat)
    by (vm_compute; lia).
  exact (alarm_retries_after_error unreachable started3 state3 t d1
           eq_refl eq_refl A P).
Defined.

(** ** Compilation *)

Lemma ascending_nil : ascending [].
Proof. intros i j a b _ H. discriminate H. Qed.

Lemma ascending_cons (x : SceneJobState) (l : list SceneJobState) :
  (forall b, b ∈ l -> (sceneId x <= sceneId b)%Z) -> ascending l ->
  ascending (x :: l).
Proof.
  intros H A i j a b Hij Hi Hj. destruct i as [|i], j as [|j]; try lia;
    cbn in Hi, Hj.
  - injection Hi as <-. apply H. exact (list_elem_of_lookup_2 _ _ _ Hj).
  - apply (A i j); [lia|exact Hi|exact Hj].
Qed.

Lemma ascending_inv (x : SceneJobState) (l : list SceneJobState) :
  ascending (x :: l) ->
  (forall b, b ∈ l -> (sceneId x <= sceneId b)%Z) /\ ascending l.
Proof.
  intros A. split.
  - intros b Hb. apply list_elem_of_lookup_1 in Hb as [j Hj].
    apply (A 0%nat (S j) x b); [lia|reflexivity|exact Hj].
  - intros i j a b Hij Hi Hj. apply (A (S i) (S j)); [lia|exact Hi|exact Hj].
Qed.

Lemma insertBySceneId_ascending (x : SceneJobState) (l : list SceneJobState) :
  ascending l -> ascending (insertBySceneId x l).
Proof.
  induction l as [|y rest IH]; cbn [insertBySceneId]; intros A.
  - apply ascending_cons; [|exact ascending_nil]. intros b Hb. inversion Hb.
  - destruct (Z.leb_spec (sceneId x) (sceneId y)) as [L|L].
    + apply ascending_cons; [|exact A]. apply ascending_inv in A as [Hy _].
      intros b Hb. apply elem_of_cons in Hb as [->|Hb]; [exact L|].
      specialize (Hy b Hb). lia.
    + apply ascending_inv in A as [Hy Ar].
      apply ascending_cons; [|exact (IH Ar)].
      intros b Hb. rewrite insertBySceneId_perm in Hb.
      apply elem_of_cons in Hb as [->|Hb]; [lia|exact (Hy b Hb)].
Qed.

Lemma sortBySceneId_ascending (l : list SceneJobState) :
  ascending (sortBySceneId l).
Proof.
  unfold sortBySceneId. induction l as [|x rest IH]; cbn [fold_right].
  - exact ascending_nil.
  - apply insertBySceneId_ascending, IH.
Qed.

Lemma truthyUrls_sorted_nil (l : list SceneJobState) :
  truthyUrls l = [] <-> truthyUrls (sortBySceneId l) = [].
Proof.
  unfold truthyUrls. rewrite <- !Permutation_nil_r.
  rewrite (sortBySceneId_perm l). reflexivity.
Qed.

Lemma compileVideo_request (env : Services) (d : DurableObject)
  (st : VideoJobState) (aspectRatio : AspectRatio) :
  state d = Some st ->
  config_aspectRatio d = Some aspectRatio ->
  truthyUrls (sortBySceneId (scenes st)) <> [] ->
  exists more,
    log (snd (compileVideo env d))
    = log d ++ Saved (persisted (setStatus compiling st))
            :: Called (CompileVideo (truthyUrls (sortBySceneId (scenes st)))
                         aspectRatio) :: more.
Proof.
  intros Hs Ha N'.
  unfold compileVideo. unfold bindM at 1, theState. rewrite Hs.
  unfold bindM at 1, modify, update. unfold bindM at 1, saveState.
  cbn [state withState]. rewrite Hs. cbn [option_map].
  unfold tryCatch, bindM at 1. cbn [update state withState record withRow option_map].
  unfold bindM at 1. cbn [state withState scenes setScenes setStatus].
  destruct (truthyUrls (sortBySceneId (scenes st))) as [|u us] eqn:U;
    [congruence|].
  unfold bindM at 1, read. cbn [config_aspectRatio withState record withRow].
  rewrite Ha. unfold bindM at 1, ret. unfold bindM at 1, call.
  cbn [log withState record withRow].
  match goal with
  | |- context [record (Called (CompileVideo (u :: us) aspectRatio)) ?x] =>
      set (d2 := record (Called (CompileVideo (u :: us) aspectRatio)) x)
  end.
  assert (S2 : exists st2, state d2 = Some st2) by (eexists; reflexivity).
  assert (L2 : log d2 = log d ++ [Saved (persisted (setStatus compiling st));
                                  Called (CompileVideo (u :: us) aspectRatio)])
    by (cbn; rewrite <- app_assoc; reflexivity).
  clearbody d2. destruct S2 as [st2 S2].
  assert (F : forall t,
            log (snd (failWith "Compilation failed" t d2))
            = log d ++ Saved (persisted (setStatus compiling st))
                :: Called (CompileVideo (u :: us) aspectRatio)
                :: [Saved (persisted (setError (messageOr "Compilation failed" t)
                                        (setStatus failed st2)))]).
  { intros t. rewrite (failWith_run _ _ _ _ S2). cbn. rewrite L2, <- app_assoc.
    reflexivity. }
  destruct (creatomate_compileVideo env _ (u :: us) aspectRatio) as [[render|]|t].
  - unfold bindM at 1, pollRenderCompletion, bindM at 1, read.
    cbn [state withRenderId]. rewrite S2.
    destruct (pollRenderLoop env (render_id render) 60
                (withRenderId (render_id render) d2)) as [[[]|t] d3] eqn:P;
      apply (pollRenderLoop_outcome env _ _ _ st2) in P as [[more X] Y];
      try exact S2.
    + exists more. cbn [snd]. rewrite X. cbn [log withRenderId].
      rewrite L2, <- app_assoc. reflexivity.
    + rewrite (failWith_run _ _ _ _ Y). eexists (more ++ [_]).
      cbn [snd saved log record withRow withState]. rewrite X.
      cbn [log withRenderId]. rewrite L2, <- !app_assoc. reflexivity.
  - eexists. apply F.
  - eexists. apply F.
Qed.

(** X13.  The videos are compiled in the order of their scenes.  When
    [compileVideo] finds a video to compile and the aspect ratio of the
    job, the first thing it does after saving [compiling] is to request
    the compilation of the videos of the scene states taken in ascending
    order of scene id, whatever their order in the job state, leaving out
    the scenes that have no video. *)
Theorem compileVideo_orders_the_videos (env : Services) (d : DurableObject)
  (st : VideoJobState) (aspectRatio : AspectRatio) :
  state d = Some st ->
  config_aspectRatio d = Some aspectRatio ->
  truthyUrls (scenes st) <> [] ->
  exists ordered more,
    ordered ≡ₚ scenes st /\ ascending ordered /\
    log (snd (compileVideo env d))
    = log d ++ Saved (persisted (setStatus compiling st))
            :: Called (CompileVideo (truthyUrls ordered) aspectRatio) :: more.
Proof.
  intros Hs Ha N.
  assert (N' : truthyUrls (sortBySceneId (scenes st)) <> [])
    by (intros E; apply N, truthyUrls_sorted_nil, E).
  destruct (compileVideo_request env d st aspectRatio Hs Ha N') as [more L].
  exists (sortBySceneId (scenes st)), more.
  split; [apply sortBySceneId_perm|]. split; [apply sortBySceneId_ascending|].
  exact L.
Qed.

(** [compileVideo_orders_the_videos] at a job whose scene states are in
    the order 3, 1, 2. *)
Lemma compileVideo_orders_the_videos_witness :
  exists ordered more,
    ordered ≡ₚ scenes (jobStateOf shuffled) /\ ascending ordered /\
    log (snd (compileVideo allDone shuffled))
    = log shuffled ++ Saved (persisted (setStatus compiling (jobStateOf shuffled)))
            :: Called (CompileVideo (truthyUrls ordered) ar_9_16) :: more.
Proof.
  apply (compileVideo_orders_the_videos allDone shuffled (jobStateOf shuffled) ar_9_16);
    [reflexivity|reflexivity|vm_compute; discriminate].
Defined.

(** X14.  A job without a single video is not sent to compilation:
    [compileVideo] saves [compiling], asks nothing of Creatomate, and
    fails the job with 'No videos to compile'. *)
Theorem compileVideo_without_videos (env : Services) (d : DurableObject)
  (st : VideoJobState) :
  state d = Some st ->
  truthyUrls (scenes st) = [] ->
  exists st',
    state (snd (compileVideo env d)) = Some st' /\
    job_status st' = failed /\
    job_error st' = Some (Text "No videos to compile") /\
    log (snd (compileVideo env d))
    = log d ++ [Saved (persisted (setStatus compiling st)); Saved (persisted st')].
Proof.
  intros Hs N. apply truthyUrls_sorted_nil in N.
  destruct (compileVideo env d) as [o d'] eqn:R. revert R.
  unfold compileVideo. unfold bindM at 1, theState. rewrite Hs.
  unfold bindM at 1, modify, update. unfold bindM at 1, saveState.
  cbn [state withState]. rewrite Hs. cbn [option_map].
  unfold tryCatch, bindM at 1. cbn [update state withState record withRow option_map].
  unfold bindM at 1. cbn [state withState scenes setScenes setStatus]. rewrite N.
  unfold failWith, bindM, modify, update, saveState, throw.
  cbn [snd state withState record withRow option_map log].
  intros [= <- <-].
  eexists. split; [reflexivity|]. split; [reflexivity|]. split; [reflexivity|].
  cbn [snd log withState record withRow]. rewrite <- app_assoc. reflexivity.
Qed.

(** [compileVideo_without_videos] at a job of three scenes that has just
    been initialized. *)
Lemma compileVideo_without_videos_witness :
  exists st',
    state (snd (compileVideo allDone noVideos)) = Some st' /\
    job_status st' = failed /\
    job_error st' = Some (Text "No videos to compile") /\
    log (snd (compileVideo allDone noVideos))
    = log noVideos ++ [Saved (persisted (setStatus compiling stateInitialized3));
                       Saved (persisted st')].
Proof.
  exact (compileVideo_without_videos allDone noVideos stateInitialized3
           eq_refl eq_refl).
Defined.

(** ** The render loop *)

Lemma pollRenderLoop_gives_up (env : Services) (renderId : string) (remaining : nat) :
  (forall n, exists r, creatomate_checkRenderStatus env n renderId = Ok r /\
                       stillRendering r = true) ->
  forall d,
  pollRenderLoop env renderId remaining d
  = (Throw (Error (Text "Render timed out")),
     Nat.iter remaining (record (Called (CheckRenderStatus renderId))) d).
Proof.
  intros H. induction remaining as [|k IH]; intros d; cbn [pollRenderLoop].
  - reflexivity.
  - unfold bindM at 1, call. destruct (H (length (log d))) as (r & -> & W).
    unfold stillRendering in W. apply andb_true_iff in W as [W1 W2].
    apply negb_true_iff in W1, W2. rewrite W1, W2, IH.
    rewrite Nat.iter_succ_r. reflexivity.
Qed.

(** X15.  The wait for a render ends.  If Creatomate answers every
    check of a render with a render that is neither finished nor failed,
    [pollRenderCompletion] makes 60 checks and throws 'Render timed out';
    it does nothing else to the object. *)
Theorem pollRenderCompletion_gives_up (env : Services) (renderId : string)
  (d : DurableObject) (st : VideoJobState) :
  state d = Some st ->
  (forall n, exists r, creatomate_checkRenderStatus env n renderId = Ok r /\
                       stillRendering r = true) ->
  pollRenderCompletion env renderId d
  = (Throw (Error (Text "Render timed out")),
     Nat.iter 60 (record (Called (CheckRenderStatus renderId))) d).
Proof.
  intros Hs H. unfold pollRenderCompletion, bindM, read. rewrite Hs.
  apply pollRenderLoop_gives_up, H.
Qed.

(** [pollRenderCompletion_gives_up] at a job of three shots, with a
    render that stays [rendering]. *)
Lemma pollRenderCompletion_gives_up_witness :
  pollRenderCompletion stalled "render-1" started3
  = (Throw (Error (Text "Render timed out")),
     Nat.iter 60 (record (Called (CheckRenderStatus "render-1"))) started3).
Proof.
  apply (pollRenderCompletion_gives_up stalled "render-1" started3 state3 eq_refl).
  intros n. eexists. split; reflexivity.
Defined.

(** ** The number of ticks of a job *)

Lemma attempts_closed (n : nat) : closed Works (fun d => pollAttempts d = n).
Proof.
  intros e d We H. destruct We as [? [? [? ? ?|?]| |]|? ? ?| |?|? ?| |?];
    cbn [effect pollAttempts withState record withAlarm withRenderId];
    try exact H.
  destruct (state d); exact H.
Qed.

Lemma alarm_done (env : Services) (d : DurableObject) (st : VideoJobState) :
  state d = Some st -> running st = false ->
  state (snd (alarm env d)) = Some st.
Proof.
  intros Hs R. unfold alarm, bindM, update, loadState.
  cbn [state withAlarm]. rewrite Hs. unfold running in R.
  apply negb_false_iff in R. rewrite R. exact Hs.
Qed.

Lemma alarm_out_of_attempts (env : Services) (d : DurableObject)
  (st : VideoJobState) :
  state d = Some st -> running st = true ->
  (MAX_POLL_ATTEMPTS <= pollAttempts d)%nat ->
  exists st', state (snd (alarm env d)) = Some st' /\ job_status st' = failed.
Proof.
  intros Hs R A. unfold alarm, bindM at 1 2. cbn [update].
  unfold loadState. cbn [state withAlarm]. rewrite Hs.
  unfold running in R. apply negb_true_iff in R. rewrite R.
  unfold bindM at 1. cbn [update]. unfold bindM at 1.
  cbn [read pollAttempts withPollAttempts withAlarm].
  rewrite (proj2 (Nat.ltb_lt MAX_POLL_ATTEMPTS (S (pollAttempts d))))
    by (unfold MAX_POLL_ATTEMPTS in *; lia).
  unfold bindM, modify, update, saveState.
  cbn [state withPollAttempts withState withAlarm]. rewrite Hs.
  eexists. split; reflexivity.
Qed.

Lemma settled_cases (d : DurableObject) :
  settled d -> ended d \/ exists st, state d = Some st /\ running st = true.
Proof.
  intros (st & Hs & H). destruct (running st) eqn:R; [right; eauto|].
  left. exists st. auto.
Qed.

Lemma ticks_ended (envs : list Services) :
  forall d, ended d -> ended (ticks envs d).
Proof.
  induction envs as [|env rest IH]; intros d E; [exact E|].
  cbn [ticks fold_left]. apply IH. destruct E as (st & Hs & R).
  exists st. split; [exact (alarm_done env d st Hs R)|exact R].
Qed.

(** X22.  The alarms of a job come to an end.  While its durable object
    stays in memory, a job is [complete] or [failed] after at most 41
    ticks, whatever the services answer or throw in each of them: after
    any run of alarms that, added to the poll attempts already counted,
    exceeds 40. *)
Theorem job_ends_within_41_ticks (envs : list Services) (d : DurableObject)
  (st : VideoJobState) :
  state d = Some st ->
  envs <> [] ->
  (MAX_POLL_ATTEMPTS < pollAttempts d + length envs)%nat ->
  ended (ticks envs d).
Proof.
  revert d st. induction envs as [|env rest IH]; intros d st Hs N B;
    [contradiction|].
  cbn [ticks fold_left]. fold (ticks rest (snd (alarm env d))).
  destruct (running st) eqn:R.
  2:{ apply ticks_ended. exists st. split; [exact (alarm_done env d st Hs R)|exact R]. }
  destruct (le_lt_dec MAX_POLL_ATTEMPTS (pollAttempts d)) as [A|A].
  { apply ticks_ended.
    destruct (alarm_out_of_attempts env d st Hs R A) as (st' & Hs' & F).
    exists st'. split; [exact Hs'|]. unfold running. rewrite F. reflexivity. }
  assert (T : settled (snd (alarm env d))).
  { assert (Hc : current d = Some st) by (unfold current; rewrite Hs; reflexivity).
    pose proof (alarm_triple env d (ex_intro _ st Hc)) as T.
    destruct (alarm env d) as [[[]|t] d']; [exact T|destruct T]. }
  destruct (settled_cases _ T) as [E|(st' & Hs' & R')];
    [apply ticks_ended, E|].
  assert (K : pollAttempts (snd (alarm env d)) = S (pollAttempts d)).
  { rewrite (alarm_polls env d st Hs R A).
    apply (keeps_snd (fun d' => pollAttempts d' = S (pollAttempts d))).
    - apply keeps_pollBody, attempts_closed.
    - reflexivity. }
  apply (IH _ st' Hs').
  - intros ->. cbn [length] in B. unfold MAX_POLL_ATTEMPTS in *. lia.
  - rewrite K. cbn [length] in B. lia.
Qed.

(** [job_ends_within_41_ticks] at a job of three shots whose videos are
    still running at every tick. *)
Lemma job_ends_within_41_ticks_witness :
  ended (ticks (replicate 41 allRunning) started3).
Proof.
  apply (job_ends_within_41_ticks (replicate 41 allRunning) started3 state3 eq_refl).
  - discriminate.
  - vm_compute. lia.
Defined.

(** ** Storage and the HTTP interface *)

Lemma orNull_keeps (u : option string) :
  u <> Some EmptyString -> orNull u = u.
Proof.
  unfold orNull, hasText. destruct u as [s|]; [|reflexivity].
  destruct (String.eqb_spec s EmptyString) as [->|]; [congruence|reflexivity].
Qed.

Lemma orNullMessage_keeps (m : option Message) :
  m <> Some (Text EmptyString) -> orNullMessage m = m.
Proof.
  unfold orNullMessage. destruct m as [[s| | | | | | | | | | |]|]; try reflexivity.
  destruct (String.eqb_spec s EmptyString) as [->|]; [congruence|reflexivity].
Qed.

Lemma persisted_idempotent (st : VideoJobState) :
  persisted (persisted st) = persisted st.
Proof.
  unfold persisted. cbn [job_id projectId job_status scenes finalVideoUrl
                         progress job_error createdAt updatedAt].
  f_equal.
  - unfold orNull. destruct (hasText (finalVideoUrl st)) eqn:E; [rewrite E|];
      reflexivity.
  - unfold orNullMessage. destruct (job_error st) as [[s| | | | | | | | | | |]|];
      try reflexivity.
    destruct (String.eqb s EmptyString) eqn:E; [reflexivity|]. rewrite E.
    reflexivity.
Qed.

(** In the life of a job the object stores no row of another job. *)
Lemma lifecycle_ownRow (jobId projectId : string) (l : list Scene)
  (d : DurableObject) (st : VideoJobState) :
  lifecycle jobId projectId l d -> state d = Some st -> ownRow st d = true.
Proof.
  intros L Hs. destruct (JobInvariants.lifecycle_ids _ _ _ _ L) as [A B].
  unfold ownRow. destruct (job_state_row d) as [row|] eqn:R; [|reflexivity].
  rewrite (A st Hs), (B row eq_refl). apply String.eqb_refl.
Qed.

(** X16.  What is saved can be read back, by an object that stores no
    row of another job (as every object does that the router has
    initialized once).  The upsert of [saveState] then leaves the table
    with the one row of the state, and after an eviction from memory a
    GET of [/state] answers 200 with the state that was saved and loads
    it into memory.  That state is the one that was in memory, except
    that an empty final url or an empty error message has become absent;
    saving and reading it again changes nothing more. *)
Theorem saved_state_is_read_back (env : Services) (d : DurableObject)
  (st : VideoJobState) :
  state d = Some st ->
  ownRow st d = true ->
  let d' := evict (snd (saveState d)) in
  insertOrReplace (persisted st) (tableOf d) = tableOf d' /\
  selectOne (tableOf d') = Some (persisted st) /\
  fetch env GetState d'
  = ({| code := 200; body := StateJson (Some (persisted st)) |},
     withState (Some (persisted st)) d') /\
  persisted (persisted st) = persisted st /\
  (finalVideoUrl st <> Some EmptyString ->
   job_error st <> Some (Text EmptyString) -> persisted st = st).
Proof.
  intros Hs O. cbv zeta.
  assert (T : tableOf (evict (snd (saveState d))) = [persisted st]).
  { unfold saveState. rewrite Hs. reflexivity. }
  rewrite T. split; [|split; [reflexivity|split; [|split]]].
  - unfold insertOrReplace, tableOf, ownRow in *.
    destruct (job_state_row d) as [row|]; [|reflexivity].
    cbn [List.filter persisted job_id]. rewrite O. reflexivity.
  - unfold saveState. rewrite Hs. reflexivity.
  - apply persisted_idempotent.
  - intros U M. unfold persisted. rewrite (orNull_keeps _ U), (orNullMessage_keeps _ M).
    destruct st. reflexivity.
Qed.

(** [saved_state_is_read_back] at a job of three shots whose videos have
    been requested. *)
Lemma saved_state_is_read_back_witness :
  ownRow state3 started3 = true /\
  let d' := evict (snd (saveState started3)) in
  insertOrReplace (persisted state3) (tableOf started3) = tableOf d' /\
  selectOne (tableOf d') = Some (persisted state3) /\
  fetch allDone GetState d'
  = ({| code := 200; body := StateJson (Some (persisted state3)) |},
     withState (Some (persisted state3)) d') /\
  persisted (persisted state3) = persisted state3 /\
  (finalVideoUrl state3 <> Some EmptyString ->
   job_error state3 <> Some (Text EmptyString) -> persisted state3 = state3).
Proof.
  refine (conj eq_refl _).
  exact (saved_state_is_read_back allDone started3 state3 eq_refl eq_refl).
Defined.

(** Why the row of another job is excluded: the table keeps it, as its
    first row, beside the row of the job that is saved. *)
Example another_job_is_read_first :
  let other := persisted state3 in
  let mine := persisted (jobStateOf (snd (initialize allDone "job-2" "project-1"
                                            (scenesUpTo 3) fresh))) in
  insertOrReplace mine [other] = [other; mine] /\
  selectOne (insertOrReplace mine [other]) = Some other.
Proof. vm_compute. split; reflexivity. Qed.

(** X17.  The answers of the durable object to the requests of the
    router.  [fetch] answers 404 to a request it does not route, and
    leaves the object alone.  It answers 500 only to a request to start
    a job that was never initialized: the body is then the error 'Job
    not initialized', and the object is left alone.  Every other request
    is answered with 200 - a request to start an initialized job even
    when the generation has failed, which shows in the job state
    only. *)
Theorem fetch_answers (env : Services) (request : Request) (d : DurableObject) :
  match request with
  | Unrouted => fetch env request d = ({| code := 404; body := NotFoundText |}, d)
  | PostStart _ _ =>
      match current d with
      | None =>
          fetch env request d
          = ({| code := 500; body := ErrorJson (Text "Job not initialized") |}, d)
      | Some _ =>
          fst (fetch env request d) = {| code := 200; body := SuccessJson |} /\
          launched (snd (fetch env request d))
      end
  | _ => code (fst (fetch env request d)) = 200%nat
  end.
Proof.
  destruct request as [|jobId projectId l|l ar|]; cbn [fetch].
  - unfold respond, getState, loadState. destruct (state d); reflexivity.
  - reflexivity.
  - unfold respond. destruct (current d) as [st|] eqn:Hc.
    + destruct (startGeneration_initialized env l ar d st Hc) as [R L].
      destruct (startGeneration env l ar d) as [[[]|t] d']; [|discriminate R].
      split; [reflexivity|exact L].
    + rewrite (startGeneration_uninitialized env l ar d Hc). reflexivity.
  - reflexivity.
Qed.

(** The four kinds of request, on a fresh object and on an initialized
    job. *)
Example fetch_codes :
  map (fun request => code (fst (fetch badImage request fresh)))
    [GetState; PostInitialize "job-1" "project-1" (scenesUpTo 3);
     PostStart (scenesUpTo 3) ar_16_9; Unrouted]
  = [200; 200; 500; 404]%nat /\
  map (fun request => code (fst (fetch badImage request initialized3)))
    [GetState; PostStart (scenesUpTo 3) ar_16_9; Unrouted]
  = [200; 200; 404]%nat.
Proof. split; vm_compute; reflexivity. Qed.

End JobMore.

(* ===================================================================== *)
(** * The timeline that Creatomate is asked to render                     *)
(* ===================================================================== *)

Module CreatomateProps.
Import Js Creatomate.

Lemma videoElements_length (n : nat) (kind : string) (overlap hold : Q)
  (videoUrls : list string) :
  forall i t, length (fst (videoElements n kind overlap hold i t videoUrls))
              = length videoUrls.
Proof.
  induction videoUrls as [|url rest IH]; intros i t; cbn [videoElements fst length];
    [reflexivity|].
  rewrite IH. reflexivity.
Qed.

(** The element that the loop pushes for the url at index [k] of the
    urls it still has to handle. *)
Lemma videoElements_lookup (n : nat) (kind : string) (overlap hold : Q)
  (videoUrls : list string) :
  forall (i : nat) (t : Q) (k : nat) (url : string),
  (i + length videoUrls)%nat = n ->
  videoUrls !! k = Some url ->
  exists e,
    fst (videoElements n kind overlap hold i t videoUrls) !! k = Some e /\
    el_type e = video /\ source e = url /\ track e = 1%Z /\
    (time e == t + inject_Z (Z.of_nat k) * (videoDuration - overlap))%Q /\
    el_duration e = (if Nat.eqb (i + k) (n - 1) then (videoDuration + hold)%Q
                     else videoDuration) /\
    transition e = (if Nat.ltb 0 (i + k)
                    then Some {| transition_type := kind;
                                 transition_duration := overlap |}
                    else None).
Proof.
  induction videoUrls as [|url0 rest IH]; intros i t k url Hn Hk;
    [discriminate Hk|].
  cbn [videoElements fst]. destruct k as [|k].
  - injection Hk as <-. eexists. split; [reflexivity|].
    cbn [el_type source track time el_duration transition].
    rewrite Nat.add_0_r. repeat split. cbn. ring.
  - change (rest !! k = Some url) in Hk. cbn [length] in Hn.
    match goal with
    | |- exists e, (?x :: ?l) !! S k = Some e /\ _ =>
        change ((x :: l) !! S k) with (l !! k)
    end.
    assert (L : (k < length rest)%nat) by exact (lookup_lt_Some _ _ _ Hk).
    assert (B : Nat.ltb i (n - 1) = true) by (apply Nat.ltb_lt; lia).
    rewrite B.
    destruct (IH (S i) (t + (videoDuration - overlap))%Q k url ltac:(lia) Hk)
      as (e & He & T1 & T2 & T3 & T4 & T5 & T6).
    exists e. split; [exact He|].
    replace (i + S k)%nat with (S i + k)%nat by lia.
    repeat split; try assumption.
    rewrite T4, Nat2Z.inj_succ, <- Z.add_1_r, inject_Z_plus. ring.
Qed.

(** X18.  The timeline of the render that a job requests.  With the
    options that [VideoJob.compileVideo] passes - a crossfade of 0.5 s, a
    final hold of 3 s, no audio - the request has one video element per
    url, in the order of the urls, on track 1.  The element at index i
    starts at 4.5 i seconds, so that each clip overlaps the one before by
    the crossfade; it lasts 5 s, and the last one 8 s; every element but
    the first has the crossfade.  The whole timeline of n clips lasts
    4.5 n + 3.5 seconds. *)
Theorem job_render_timeline (videoUrls : list string) (a : VideoJob.AspectRatio) :
  let n := length videoUrls in
  let l := elements (renderSource videoUrls (jobOptions a)) in
  length l = n /\
  (forall i url, videoUrls !! i = Some url ->
     exists e, l !! i = Some e /\
       el_type e = video /\ source e = url /\ track e = 1%Z /\
       (time e == inject_Z (Z.of_nat i) * (9 # 2))%Q /\
       el_duration e = (if Nat.eqb i (n - 1) then (5 + 3)%Q else 5%Q) /\
       transition e = (if Nat.eqb i 0 then None
                       else Some {| transition_type := "crossfade";
                                    transition_duration := 1 # 2 |})) /\
  (n <> 0%nat ->
   (timelineEnd l == inject_Z (Z.of_nat n) * (9 # 2) + (7 # 2))%Q).
Proof.
  cbv zeta.
  cbv [renderSource jobOptions elements audioUrl aspectRatio transitionDuration
       transitionType finalHoldDuration default from_option id VideoJob.hasText].
  rewrite app_nil_r.
  set (l := fst (videoElements (length videoUrls) "crossfade" (1 # 2) 3 0 0 videoUrls)).
  assert (Len : length l = length videoUrls) by apply videoElements_length.
  assert (At : forall i url, videoUrls !! i = Some url ->
     exists e, l !! i = Some e /\
       el_type e = video /\ source e = url /\ track e = 1%Z /\
       (time e == inject_Z (Z.of_nat i) * (9 # 2))%Q /\
       el_duration e = (if Nat.eqb i (length videoUrls - 1) then (5 + 3)%Q else 5%Q) /\
       transition e = (if Nat.eqb i 0 then None
                       else Some {| transition_type := "crossfade";
                                    transition_duration := 1 # 2 |})).
  { intros i url Hi.
    destruct (videoElements_lookup (length videoUrls) "crossfade" (1 # 2) 3
                videoUrls 0 0 i url eq_refl Hi)
      as (e & He & T1 & T2 & T3 & T4 & T5 & T6).
    exists e. cbn [Nat.add] in T5, T6. repeat split; try assumption.
    - rewrite T4. unfold videoDuration. ring.
    - rewrite T6. destruct i; reflexivity. }
  split; [exact Len|]. split; [exact At|].
  intros N. unfold timelineEnd.
  destruct (videoUrls !! (length videoUrls - 1)%nat) as [url|] eqn:Hu.
  2:{ apply lookup_ge_None in Hu. lia. }
  destruct (At _ _ Hu) as (e & He & _ & _ & _ & T4 & T5 & _).
  assert (La : last l = Some e).
  { rewrite last_lookup, Len. replace (pred (length videoUrls)) with
      (length videoUrls - 1)%nat by lia. exact He. }
  rewrite La, T4, T5, Nat.eqb_refl.
  replace (Z.of_nat (length videoUrls - 1)) with (Z.of_nat (length videoUrls) - 1)%Z
    by lia.
  unfold Z.sub. rewrite inject_Z_plus. change (inject_Z (- (1))) with (-1 # 1).
  ring.
Qed.

(** The timeline of three clips: starts at 0, 4.5 and 9 s, and an end at
    17 s. *)
Example timeline_of_three :
  let l := elements (renderSource ["a.mp4"; "b.mp4"; "c.mp4"]%string
                       (jobOptions VideoJob.ar_16_9)) in
  map (fun e => Qred (time e)) l = [0; 9 # 2; 9]%Q /\
  map (fun e => Qred (el_duration e)) l = [5; 5; 8]%Q /\
  Qred (timelineEnd l) = 17%Q.
Proof. vm_compute. repeat split. Qed.

End CreatomateProps.

(* ===================================================================== *)
(** * Further properties of the router                                    *)
(* ===================================================================== *)

Module ApiMoreProps.
Import Js Api ApiSpec ApiMore ApiSamples ApiProps JobLogic JobRules JobInvariants
  JobMore.

Lemma projectKey_under (user projectId : string) :
  underUser user (projectKey user projectId).
Proof. exists ("project:" +:+ projectId). reflexivity. Qed.

Lemma jobKey_under (user jobId : string) : underUser user (jobKey user jobId).
Proof. exists ("job:" +:+ jobId). reflexivity. Qed.

Lemma currentJobKey_under (user projectId : string) :
  underUser user (currentJobKey user projectId).
Proof. exists ("project:" +:+ projectId +:+ ":currentJob"). reflexivity. Qed.

Lemma underUser_one (a b key : string) :
  noColon a = true -> noColon b = true ->
  underUser a key -> underUser b key -> a = b.
Proof.
  intros Ha Hb [x ->] [y E]. cbn in E. injection E as E.
  exact (proj1 (colon_split _ _ _ _ Ha Hb E)).
Qed.

Lemma putCache_other (k k' : string) (v : Stored) (env : Env) :
  k <> k' -> CACHE (putCache k v env) !! k' = CACHE env !! k'.
Proof. intros N. unfold putCache. cbn [CACHE]. apply lookup_insert_ne, N. Qed.

Lemma fetchState_cache (name : string) (env : Env) :
  CACHE (snd (fetchState name env)) = CACHE env.
Proof. reflexivity. Qed.

(** X19.  A request writes under the requester's own keys only.  An
    entry of the KV namespace whose key does not begin with
    [user:<id of the requester>:] is the same after the request as
    before, whatever the route and whatever the platform and the services
    answer; a request without authentication changes no entry at all.
    Between users whose ids have no colon, as UUIDs, the parts of the
    namespace are disjoint, so that no request changes an entry under
    another user's keys. *)
Theorem request_writes_under_own_keys (pf : Platform) (auth : option AuthContext)
  (route : Route) (env : Env) (key : string) :
  ((forall a, auth = Some a -> ~ underUser (userId a) key) ->
   CACHE (after pf auth route env) !! key = CACHE env !! key) /\
  (forall a other, auth = Some a ->
     noColon (userId a) = true -> noColon other = true -> other <> userId a ->
     underUser other key ->
     CACHE (after pf auth route env) !! key = CACHE env !! key).
Proof.
  assert (G : (forall a, auth = Some a -> ~ underUser (userId a) key) ->
              CACHE (after pf auth route env) !! key = CACHE env !! key).
  { intros H. unfold after. destruct auth as [a|].
    2:{ destruct route; cbn; try reflexivity;
        match goal with |- context [isWord ?x] => destruct (isWord x) end;
        reflexivity. }
    specialize (H a eq_refl).
    assert (P : forall p, projectKey (userId a) p <> key)
      by (intros p <-; exact (H (projectKey_under _ _))).
    assert (J : forall j, jobKey (userId a) j <> key)
      by (intros j <-; exact (H (jobKey_under _ _))).
    assert (Cj : forall p, currentJobKey (userId a) p <> key)
      by (intros p <-; exact (H (currentJobKey_under _ _))).
    destruct route as [name scenes ar|projectId|jobId|projectId|];
      cbn [handleRequest].
    - unfold postProjects. destruct (_ || _)%bool; cbn [fst snd]; [reflexivity|].
      apply putCache_other, P.
    - destruct (isWord projectId); [|reflexivity]. unfold postGenerate.
      destruct (CACHE env !! projectKey (userId a) projectId) as [[project| |]|];
        cbn [fst snd]; try reflexivity.
      rewrite putCache_other by apply Cj. rewrite putCache_other by apply J.
      reflexivity.
    - destruct (isWord jobId); [|reflexivity]. unfold getJob.
      destruct (negb (truthyStored _)); cbn [fst snd]; [reflexivity|].
      destruct (fst (fetchState jobId env)); reflexivity.
    - destruct (isWord projectId); [|reflexivity]. unfold getProjectJob.
      destruct (CACHE env !! currentJobKey (userId a) projectId) as [[| |j]|];
        cbn [fst snd]; try reflexivity.
      destruct (String.eqb j EmptyString); reflexivity.
    - unfold postTemplateCreate. cbn [fst snd]. apply putCache_other, P. }
  split; [exact G|].
  intros a other -> Ha Ho N U. apply G. intros a' [= <-] U'.
  apply N. exact (underUser_one _ _ _ Ho Ha U U').
Qed.

(** After bob has created a project, a request by alice to generate a
    project of that id changes nothing under bob's keys. *)
Lemma request_writes_under_own_keys_witness :
  CACHE (after (platform jobUuid) (Some alice) (PostGenerate projectUuid) afterCreate)
    !! projectKey (userId bob) projectUuid
  = CACHE afterCreate !! projectKey (userId bob) projectUuid.
Proof.
  apply (proj2 (request_writes_under_own_keys (platform jobUuid) (Some alice)
                  (PostGenerate projectUuid) afterCreate
                  (projectKey (userId bob) projectUuid))
           alice (userId bob) eq_refl eq_refl eq_refl).
  - discriminate.
  - apply projectKey_under.
Defined.

(** ** Reading back what a request has written *)

Lemma string_app_inv (p x y : string) : p +:+ x = p +:+ y -> x = y.
Proof.
  induction p as [|c p IH]; cbn; [auto|]. intros [= H]. exact (IH H).
Qed.

Lemma jobKey_is_not_currentJobKey (user jobId projectId : string) :
  jobKey user jobId <> currentJobKey user projectId.
Proof.
  unfold jobKey, currentJobKey. intros H.
  apply (string_app_inv "user:") in H. apply string_app_inv in H. discriminate H.
Qed.

Lemma renumber_lookup (l : list VideoJob.Scene) (i : nat) (s : VideoJob.Scene) :
  l !! i = Some s ->
  renumber l !! i
  = Some {| VideoJob.id := Z.of_nat i + 1;
            VideoJob.name := VideoJob.name s;
            VideoJob.startPrompt := VideoJob.startPrompt s;
            VideoJob.endPrompt := VideoJob.endPrompt s;
            VideoJob.motionPrompt := VideoJob.motionPrompt s;
            VideoJob.duration := VideoJob.duration s |}.
Proof. intros H. unfold renumber. rewrite list_lookup_imap, H. reflexivity. Qed.

(** X20.  A project that was created can be read back by its creator.
    A request to create a project with a name and at least one scene is
    answered with 201 and the project: it has the id drawn for it, the
    name and as many scenes as were sent, and its scenes are those that
    were sent, numbered from 1 in the order sent, whatever ids they had.
    A GET of that project by the same user then answers with that
    project. *)
Theorem created_project_is_read_back (pf : Platform) (a : AuthContext)
  (name : string) (scenes : list VideoJob.Scene)
  (aspectRatio : option VideoJob.AspectRatio) (env : Env) :
  name <> EmptyString -> scenes <> [] -> isWord (generateId pf) = true ->
  exists project,
    answer pf (Some a) (PostProjects name scenes aspectRatio) env
    = okResponse 201 (ProjectData project) /\
    project_id project = generateId pf /\
    project_name project = name /\
    length (project_scenes project) = length scenes /\
    (forall i s, scenes !! i = Some s ->
       project_scenes project !! i
       = Some {| VideoJob.id := Z.of_nat i + 1;
                 VideoJob.name := VideoJob.name s;
                 VideoJob.startPrompt := VideoJob.startPrompt s;
                 VideoJob.endPrompt := VideoJob.endPrompt s;
                 VideoJob.motionPrompt := VideoJob.motionPrompt s;
                 VideoJob.duration := VideoJob.duration s |}) /\
    getProjectRoute (Some a) (generateId pf)
      (after pf (Some a) (PostProjects name scenes aspectRatio) env)
    = Project200 project.
Proof.
  intros Hn Hs Hw. unfold answer, after. cbn [handleRequest]. unfold postProjects.
  destruct (String.eqb_spec name EmptyString) as [E|_]; [contradiction|].
  destruct scenes as [|s0 rest]; [contradiction|]. cbn [length Nat.eqb orb fst snd].
  eexists. split; [reflexivity|]. cbn [project_id project_name project_scenes].
  split; [reflexivity|]. split; [reflexivity|].
  split; [unfold renumber; rewrite length_imap; reflexivity|].
  split; [intros i s Hi; exact (renumber_lookup _ _ _ Hi)|].
  unfold getProjectRoute. rewrite Hw. unfold getProject, putCache. cbn [CACHE].
  rewrite lookup_insert_eq. reflexivity.
Qed.

(** [created_project_is_read_back] at the project that bob creates. *)
Lemma created_project_is_read_back_witness :
  exists project,
    answer (platform projectUuid) (Some bob)
      (PostProjects "Forest" (JobSamples.scenesUpTo 2) None) emptyEnv
    = okResponse 201 (ProjectData project) /\
    project_id project = projectUuid /\
    project_name project = "Forest"%string /\
    length (project_scenes project) = 2%nat /\
    (forall i s, JobSamples.scenesUpTo 2 !! i = Some s ->
       project_scenes project !! i
       = Some {| VideoJob.id := Z.of_nat i + 1;
                 VideoJob.name := VideoJob.name s;
                 VideoJob.startPrompt := VideoJob.startPrompt s;
                 VideoJob.endPrompt := VideoJob.endPrompt s;
                 VideoJob.motionPrompt := VideoJob.motionPrompt s;
                 VideoJob.duration := VideoJob.duration s |}) /\
    getProjectRoute (Some bob) projectUuid
      (after (platform projectUuid) (Some bob)
         (PostProjects "Forest" (JobSamples.scenesUpTo 2) None) emptyEnv)
    = Project200 project.
Proof.
  apply (created_project_is_read_back (platform projectUuid) bob "Forest"
           (JobSamples.scenesUpTo 2) None emptyEnv);
    [discriminate|discriminate|reflexivity].
Defined.

(** X21.  A job that was started can be read back by its owner.  A
    request to generate an existing project is answered with 202 and the
    id drawn for the job, whatever the services answer.  A GET of the
    job, and a GET of the current job of the project, made next by the
    same user answer 200 with the state of that job: it has the id drawn
    and the id of the project, and it is [failed] or
    [generating_videos]. *)
Theorem started_job_is_read_back (pf pf' : Platform) (a : AuthContext)
  (projectId : string) (env : Env) (project : Project) :
  CACHE env !! projectKey (userId a) projectId = Some (StoredProject project) ->
  isWord projectId = true ->
  isWord (generateId pf) = true ->
  let jobId := generateId pf in
  let env' := after pf (Some a) (PostGenerate projectId) env in
  answer pf (Some a) (PostGenerate projectId) env
  = okResponse 202 (StartedData jobId projectId) /\
  exists st,
    VideoJob.job_id st = jobId /\
    VideoJob.projectId st = project_id project /\
    (VideoJob.job_status st = VideoJob.failed \/
     VideoJob.job_status st = VideoJob.generating_videos) /\
    answer pf' (Some a) (GetJob jobId) env' = okResponse 200 (JobData (Some st)) /\
    answer pf' (Some a) (GetProjectJob projectId) env'
    = okResponse 200 (JobData (Some st)).
Proof.
  intros Hp Hw Hj. cbv zeta. unfold answer, after. cbn [handleRequest].
  rewrite Hw, Hj. unfold postGenerate. rewrite Hp. cbn [fst snd].
  split; [reflexivity|].
  set (jobId := generateId pf).
  set (d1 := snd (VideoJob.initialize (services pf) jobId (project_id project)
                    (project_scenes project) (stub jobId env))).
  set (d2 := snd (VideoJob.startGeneration (services pf) (project_scenes project)
                    (project_aspectRatio project) d1)).
  assert (C1 : exists st1, current d1 = Some st1) by (eexists; reflexivity).
  destruct C1 as [st1 C1].
  destruct (startGeneration_initialized (services pf) (project_scenes project)
              (project_aspectRatio project) d1 st1 C1)
    as [_ (st & Hs & _ & Hv)].
  fold d2 in Hs, Hv.
  assert (Id : sound (sameJob jobId (project_id project)
                        (map VideoJob.id (project_scenes project))) d2).
  { apply keeps_snd.
    - apply keeps_startGeneration, sound_closed, sameJob_stable.
    - assert (J : forall st0,
                VideoJob.state d1 = Some st0 \/
                VideoJob.job_state_row d1 = Some st0 ->
                sameJob jobId (project_id project)
                  (map VideoJob.id (project_scenes project)) st0).
      { intros st0 H. unfold d1 in H. cbn in H.
        destruct H as [[= <-]|[= <-]]; unfold sameJob; cbn;
          (split; [reflexivity|]); (split; [reflexivity|]);
          rewrite map_map; reflexivity. }
      split; intros st0 H; apply J; auto. }
  destruct (proj1 Id st Hs) as (I1 & I2 & _).
  exists st. split; [exact I1|]. split; [exact I2|]. split.
  { destruct Hv as [[F _]|[G _]]; auto. }
  assert (F : fetchState jobId
                (putCache (currentJobKey (userId a) projectId) (StoredJobId jobId)
                   (putCache (jobKey (userId a) jobId) (StoredJobRef projectId jobId)
                      (putObject jobId d2 env)))
              = (Some st, putObject jobId d2
                   (putCache (currentJobKey (userId a) projectId) (StoredJobId jobId)
                      (putCache (jobKey (userId a) jobId)
                         (StoredJobRef projectId jobId) (putObject jobId d2 env))))).
  { unfold fetchState, stub, putCache, putObject. cbn [VIDEO_JOB CACHE].
    rewrite lookup_insert_eq. change (default VideoJob.fresh (Some d2)) with d2.
    unfold VideoJob.loadState. rewrite Hs. reflexivity. }
  split.
  - unfold getJob. rewrite putCache_other by apply not_eq_sym, jobKey_is_not_currentJobKey.
    unfold putCache at 1. cbn [CACHE]. rewrite lookup_insert_eq.
    cbn [truthyStored negb]. rewrite F. reflexivity.
  - unfold getProjectJob. unfold putCache at 1. cbn [CACHE].
    rewrite lookup_insert_eq.
    destruct (String.eqb_spec jobId EmptyString) as [E|_].
    { unfold jobId in E. rewrite E in Hj. discriminate Hj. }
    rewrite F. reflexivity.
Qed.

(** [started_job_is_read_back] at the project of bob, when the image
    service fails. *)
Lemma started_job_is_read_back_witness :
  let env' := after (failingPlatform jobUuid) (Some bob) (PostGenerate projectUuid)
                afterCreate in
  answer (failingPlatform jobUuid) (Some bob) (PostGenerate projectUuid) afterCreate
  = okResponse 202 (StartedData jobUuid projectUuid) /\
  exists st,
    VideoJob.job_id st = jobUuid /\
    VideoJob.projectId st = projectUuid /\
    (VideoJob.job_status st = VideoJob.failed \/
     VideoJob.job_status st = VideoJob.generating_videos) /\
    answer (platform jobUuid) (Some bob) (GetJob jobUuid) env'
    = okResponse 200 (JobData (Some st)) /\
    answer (platform jobUuid) (Some bob) (GetProjectJob projectUuid) env'
    = okResponse 200 (JobData (Some st)).
Proof.
  assert (H : CACHE afterCreate !! projectKey (userId bob) projectUuid
              = Some (StoredProject bobsProject)) by (vm_compute; reflexivity).
  exact (started_job_is_read_back (failingPlatform jobUuid) (platform jobUuid) bob
           projectUuid afterCreate bobsProject H eq_refl eq_refl).
Defined.

(** ** Requests that are refused *)

(** X24.  A request that is refused changes nothing.  Without
    authentication every route that creates a project, starts a job or
    reads a job answers 401 'Unauthorized' (404 when the id in the path
    is malformed), contacts no durable object and leaves the KV namespace
    and the durable objects as they are.  And whoever makes it, a
    request that is answered with an error leaves every entry of the KV
    namespace as it is (a write to the namespace itself does not fail
    here). *)
Theorem refused_requests_change_nothing (pf : Platform)
  (auth : option AuthContext) (route : Route) (env : Env) :
  (auth = None ->
   handleRequest pf auth route env
   = (if routed route then errorResponse 401 "Unauthorized"
      else errorResponse 404 "Not found", env, [])) /\
  (success (answer pf auth route env) = false ->
   CACHE (after pf auth route env) = CACHE env).
Proof.
  split.
  - intros ->. destruct route; cbn [handleRequest routed]; try reflexivity;
      match goal with |- context [isWord ?x] => destruct (isWord x) end;
      reflexivity.
  - unfold answer, after. destruct auth as [a|].
    2:{ intros _. destruct route; cbn; try reflexivity;
        match goal with |- context [isWord ?x] => destruct (isWord x) end;
        reflexivity. }
    destruct route as [name scenes ar|projectId|jobId|projectId|];
      cbn [handleRequest].
    + unfold postProjects. destruct (_ || _)%bool; cbn [fst snd success];
        [reflexivity|discriminate].
    + destruct (isWord projectId); [|reflexivity]. unfold postGenerate.
      destruct (CACHE env !! projectKey (userId a) projectId) as [[project| |]|];
        cbn [fst snd success]; try reflexivity. discriminate.
    + destruct (isWord jobId); [|reflexivity]. unfold getJob.
      destruct (negb (truthyStored _)); cbn [fst snd]; [reflexivity|].
      destruct (fst (fetchState jobId env)); reflexivity.
    + destruct (isWord projectId); [|reflexivity]. unfold getProjectJob.
      destruct (CACHE env !! currentJobKey (userId a) projectId) as [[| |j]|];
        cbn [fst snd]; try reflexivity.
      destruct (String.eqb j EmptyString); reflexivity.
    + unfold postTemplateCreate. cbn [fst snd success]. discriminate.
Qed.

(** [refused_requests_change_nothing] at a request without
    authentication for the job of bob, and at a request of alice for
    it. *)
Lemma refused_requests_change_nothing_witness :
  handleRequest (platform jobUuid) None (GetJob jobUuid) afterGenerate
  = (errorResponse 401 "Unauthorized", afterGenerate, []) /\
  CACHE (after (platform jobUuid) (Some alice) (GetJob jobUuid) afterGenerate)
  = CACHE afterGenerate.
Proof.
  split.
  - exact (proj1 (refused_requests_change_nothing (platform jobUuid) None
                    (GetJob jobUuid) afterGenerate) eq_refl).
  - apply (proj2 (refused_requests_change_nothing (platform jobUuid) (Some alice)
                    (GetJob jobUuid) afterGenerate)).
    vm_compute. reflexivity.
Defined.

End ApiMoreProps.
